(** * Room registry and chunked-transfer coordinator of [server.js]

    A shallow embedding of the socket.io relay in [src/server.js]: the two
    process-wide maps [rooms] and [activeTransfers], the socket.io adapter
    (which connection sits in which transport group), and one function per
    event handler.  Every handler is a run-to-completion reaction: it takes
    the state before the event and yields the state after it together with
    the messages it sent, in the order it sent them.

    What is an input of the model rather than computed by it:
    - the clock ([Date.now()]) is an argument of the events that read it;
    - the integers drawn by [generatePIN] are an argument (a finite list of
      draws; running out of draws stands for a retry loop that never ends);
    - the percentage of [upload_progress] is a floating-point quotient, the
      message carries the two integers it is computed from.
    Requests are taken to be well formed: string ids, a chunk index that is
    an array index, a byte payload, and a callback where the handler calls
    one.  Connection-state recovery of socket.io is not modelled.

    Also embedded: the read-only HTTP endpoints, the cross-origin check, and
    the poll of the second server bundled in the same source file. *)

From Stdlib Require Import ZArith.
From Stdlib Require Import Init.Byte.
From Stdlib Require Import Ascii.
From stdpp Require Import gmap strings list pretty.

Open Scope string_scope.
Open Scope list_scope.

#[local] Set Warnings "-clear-no-such-hyp".

(** ** A JavaScript [Map] with string keys

    Iteration order of a [Map] is insertion order and [disconnect] and the
    sweep iterate, so the map is an association list.  [set] on a key that
    is present keeps the key's position. *)

Fixpoint Map_get {V} (k : string) (m : list (string * V)) : option V :=
  match m with
  | [] => None
  | (k', v) :: m' => if decide (k' = k) then Some v else Map_get k m'
  end.

Definition Map_has {V} (k : string) (m : list (string * V)) : bool :=
  match Map_get k m with Some _ => true | None => false end.

Fixpoint Map_set {V} (k : string) (v : V) (m : list (string * V))
  : list (string * V) :=
  match m with
  | [] => [(k, v)]
  | (k', v') :: m' =>
      if decide (k' = k) then (k, v) :: m' else (k', v') :: Map_set k v m'
  end.

Definition Map_delete {V} (k : string) (m : list (string * V))
  : list (string * V) :=
  filter (λ e, e.1 ≠ k) m.

Definition Map_keys {V} (m : list (string * V)) : list string := m.*1.

(** ** A JavaScript array with holes

    [transfer.chunks] starts as [[]] and is written by index, so it can have
    holes.  [None] is a hole. *)

Definition Array_set {A} (a : list (option A)) (i : nat) (v : A)
  : list (option A) :=
  if decide (i < length a) then <[i := Some v]> a
  else a ++ replicate (i - length a) None ++ [Some v].

(** [a.filter(x => x !== undefined).length]: [filter] skips holes. *)
Definition Array_defined_count {A} (a : list (option A)) : nat :=
  length (omap id a).

(** [Buffer.concat(a.map(c => Buffer.from(c)))]: [map] keeps the holes and
    [Buffer.concat] throws a [TypeError] on one, which is [None] here. *)
Fixpoint Buffer_concat (a : list (option (list byte))) : option (list byte) :=
  match a with
  | [] => Some []
  | None :: _ => None
  | Some c :: a' =>
      match Buffer_concat a' with
      | Some rest => Some (c ++ rest)
      | None => None
      end
  end.

(** ** Data model *)

Record Participant := { socketId : string; userId : string }.

Record Room := {
  creator : string;
  creatorUserId : option string;
  participants : list Participant;
  uniqueUsers : gset string;
  createdAt : Z;
}.

Record Transfer := {
  from : string;
  pin : string;
  fileName : string;
  fileSize : Z;
  fileType : string;
  chunks : list (option (list byte));
  totalChunks : nat;
  recipients : list string;
  startTime : Z;
}.

(** The socket.io adapter: transport group name -> connections in it.  A
    connection is put in the group named by its own id when it connects and
    is taken out of every group before its [disconnect] handler runs. *)
Record State := {
  rooms : list (string * Room);
  activeTransfers : list (string * Transfer);
  adapter : gmap string (gset string);
}.

Definition initial : State :=
  {| rooms := []; activeTransfers := []; adapter := ∅ |}.

(** ** Messages *)

Inductive message :=
| user_joined (sid uid : string)
| user_left (sid uid : string)
| incoming_file (transferId name : string) (size : Z) (type sender : string)
| transfer_error (transferId error : string)
| upload_progress (transferId : string) (receivedChunks divisor : nat)
| file_received (transferId name type : string) (fileData : list byte)
    (sender : string)
| transfer_complete (transferId : string)
| download_ready (transferId : string)
| transfer_rejected (transferId rejectedBy : string)
| transfer_cancelled (transferId : string).

(** The argument of a handler's [callback]. *)
Inductive ack :=
| failure (error : string)
| created (pin : string)
| joined (participants : nat) (isCreator : bool)
| initiated (transferId : string)
| success
| room_info (participants : nat) (isCreator : bool) (createdAt : Z).

(** Where a message is sent: [socket.emit], [socket.to(room).emit] and
    [io.to(room).emit]. *)
Inductive target :=
| Socket (sid : string)
| SocketTo (sid room : string)
| IoTo (room : string).

(** An emission records the target as written in the source and the
    connections the adapter resolves it to at the moment of the call. *)
Inductive emission :=
| Emit (t : target) (receivers : gset string) (m : message)
| Callback (sid : string) (a : ack)
| HttpJson (pin : string) (createdAt : Z).

Definition sockets_in (ad : gmap string (gset string)) (room : string)
  : gset string :=
  default ∅ (ad !! room).

Definition receivers_of (ad : gmap string (gset string)) (t : target)
  : gset string :=
  match t with
  | Socket sid => {[sid]}
  | SocketTo sid room => sockets_in ad room ∖ {[sid]}
  | IoTo room => sockets_in ad room
  end.

Definition emit (ad : gmap string (gset string)) (t : target) (m : message)
  : emission :=
  Emit t (receivers_of ad t) m.

Definition socket_join (sid room : string) (ad : gmap string (gset string))
  : gmap string (gset string) :=
  <[room := {[sid]} ∪ sockets_in ad room]> ad.

Definition socket_leave (sid room : string) (ad : gmap string (gset string))
  : gmap string (gset string) :=
  <[room := sockets_in ad room ∖ {[sid]}]> ad.

Definition socket_leave_all (sid : string) (ad : gmap string (gset string))
  : gmap string (gset string) :=
  (λ g, g ∖ {[sid]}) <$> ad.

(** How a reaction ends: it returns, it dies on an uncaught exception
    ([Buffer.concat] on an array with a hole), or it never ends (the PIN
    retry loop with no free draw). *)
Inductive outcome :=
| Returned (s : State) (out : list emission)
| Threw (s : State) (out : list emission)
| Diverged.

(** ** Room handlers *)

(** [generatePIN]: the draw is the integer [Math.floor] yields. *)
Definition generatePIN (draw : N) : string := pretty draw.

(** [let pin = generatePIN(); while (rooms.has(pin)) pin = generatePIN();] *)
Fixpoint unique_pin (draws : list N) (rs : list (string * Room))
  : option string :=
  match draws with
  | [] => None
  | d :: draws' =>
      if Map_has (generatePIN d) rs then unique_pin draws' rs
      else Some (generatePIN d)
  end.

Definition set_rooms (rs : list (string * Room)) (s : State) : State :=
  {| rooms := rs; activeTransfers := activeTransfers s; adapter := adapter s |}.

Definition set_adapter (ad : gmap string (gset string)) (s : State) : State :=
  {| rooms := rooms s; activeTransfers := activeTransfers s; adapter := ad |}.

Definition set_activeTransfers (ts : list (string * Transfer)) (s : State)
  : State :=
  {| rooms := rooms s; activeTransfers := ts; adapter := adapter s |}.

(** [io.on("connection")]: socket.io puts the socket in its own group. *)
Definition connection (sid : string) (s : State) : outcome :=
  Returned (set_adapter (socket_join sid sid (adapter s)) s) [].

Definition create_room (sid uid : string) (draws : list N) (now : Z)
    (s : State) : outcome :=
  match unique_pin draws (rooms s) with
  | None => Diverged
  | Some p =>
      let room := {| creator := sid;
                     creatorUserId := Some uid;
                     participants := [{| socketId := sid; userId := uid |}];
                     uniqueUsers := {[uid]};
                     createdAt := now |} in
      Returned
        (set_adapter (socket_join sid p (adapter s))
           (set_rooms (Map_set p room (rooms s)) s))
        [Callback sid (created p)]
  end.

(** [POST /api/room] *)
Definition post_api_room (draws : list N) (now now' : Z) (s : State)
  : outcome :=
  match unique_pin draws (rooms s) with
  | None => Diverged
  | Some p =>
      let room := {| creator := "web-api";
                     creatorUserId := None;
                     participants := [];
                     uniqueUsers := ∅;
                     createdAt := now |} in
      Returned (set_rooms (Map_set p room (rooms s)) s) [HttpJson p now']
  end.

Definition is_socket (sid : string) (p : Participant) : bool :=
  bool_decide (socketId p = sid).

Definition with_members (room : Room) (ps : list Participant)
    (us : gset string) : Room :=
  {| creator := creator room;
     creatorUserId := creatorUserId room;
     participants := ps;
     uniqueUsers := us;
     createdAt := createdAt room |}.

Definition join_room (sid p uid : string) (s : State) : outcome :=
  match Map_get p (rooms s) with
  | None => Returned s [Callback sid (failure "Invalid PIN")]
  | Some room =>
      match find (is_socket sid) (participants room) with
      | Some _ => Returned s [Callback sid (failure "Already in room")]
      | None =>
          let room' :=
            with_members room
              (participants room ++ [{| socketId := sid; userId := uid |}])
              ({[uid]} ∪ uniqueUsers room) in
          let ad := socket_join sid p (adapter s) in
          Returned
            (set_adapter ad (set_rooms (Map_set p room' (rooms s)) s))
            [emit ad (SocketTo sid p) (user_joined sid uid);
             Callback sid
               (joined (size (uniqueUsers room'))
                  (bool_decide (creator room = sid)))]
      end
  end.

(** The part of [leave_room] and of the [disconnect] loop body that edits
    the room object: drop the connection's entries, then drop the user from
    [uniqueUsers] unless another entry still carries it. *)
Definition without_socket (sid : string) (participant : Participant)
    (room : Room) : Room :=
  let ps := filter (λ q, socketId q ≠ sid) (participants room) in
  let stillHasUser :=
    existsb (λ q, bool_decide (userId q = userId participant)) ps in
  with_members room ps
    (if stillHasUser then uniqueUsers room
     else uniqueUsers room ∖ {[userId participant]}).

Definition leave_room (sid p : string) (s : State) : outcome :=
  match Map_get p (rooms s) with
  | None => Returned s []
  | Some room =>
      match find (is_socket sid) (participants room) with
      | None => Returned s []
      | Some participant =>
          let room' := without_socket sid participant room in
          let ad := socket_leave sid p (adapter s) in
          let rs := Map_set p room' (rooms s) in
          Returned
            (set_adapter ad
               (set_rooms
                  (if decide (length (participants room') = 0)
                   then Map_delete p rs else rs) s))
            [emit ad (SocketTo sid p) (user_left sid (userId participant))]
      end
  end.

Definition get_room_info (sid p : string) (s : State) : outcome :=
  match Map_get p (rooms s) with
  | None => Returned s [Callback sid (failure "Room not found")]
  | Some room =>
      Returned s
        [Callback sid
           (room_info (size (uniqueUsers room))
              (bool_decide (creator room = sid)) (createdAt room))]
  end.

(** [cleanupExpiredRooms] *)
Definition cleanupExpiredRooms (now : Z) (s : State) : outcome :=
  let oneHourAgo := (now - 60 * 60 * 1000)%Z in
  Returned
    (set_rooms (filter (λ e, ¬ (createdAt e.2 < oneHourAgo)%Z) (rooms s)) s)
    [].

(** ** Transfer handlers *)

Definition with_chunks (transfer : Transfer)
    (cs : list (option (list byte))) (total : nat) : Transfer :=
  {| from := from transfer;
     pin := pin transfer;
     fileName := fileName transfer;
     fileSize := fileSize transfer;
     fileType := fileType transfer;
     chunks := cs;
     totalChunks := total;
     recipients := recipients transfer;
     startTime := startTime transfer |}.

(** [`${socket.id}_${Date.now()}`] *)
Definition make_transferId (sid : string) (now : Z) : string :=
  sid +:+ "_" +:+ pretty now.

Definition initiate_file_transfer (sid p name : string) (size : Z)
    (type : string) (now now' : Z) (s : State) : outcome :=
  match Map_get p (rooms s) with
  | None => Returned s [Callback sid (failure "Room not found")]
  | Some room =>
      let transferId := make_transferId sid now in
      let rcpts :=
        socketId <$> filter (λ q, socketId q ≠ sid) (participants room) in
      if decide (length rcpts = 0)
      then Returned s [Callback sid (failure "No recipients in room")]
      else
        let transfer := {| from := sid;
                           pin := p;
                           fileName := name;
                           fileSize := size;
                           fileType := type;
                           chunks := [];
                           totalChunks := 0;
                           recipients := rcpts;
                           startTime := now' |} in
        Returned
          (set_activeTransfers
             (Map_set transferId transfer (activeTransfers s)) s)
          [emit (adapter s) (SocketTo sid p)
             (incoming_file transferId name size type sid);
           Callback sid (initiated transferId)]
  end.

Definition invalid_transfer (sid transferId : string) (s : State) : outcome :=
  Returned s
    [emit (adapter s) (Socket sid)
       (transfer_error transferId "Invalid transfer")].

Definition file_chunk (sid transferId : string) (chunkIndex : nat)
    (chunkData : list byte) (isLast : bool) (s : State) : outcome :=
  match Map_get transferId (activeTransfers s) with
  | None => invalid_transfer sid transferId s
  | Some transfer =>
      if negb (bool_decide (from transfer = sid))
      then invalid_transfer sid transferId s
      else
        let cs := Array_set (chunks transfer) chunkIndex chunkData in
        let total :=
          if isLast then chunkIndex + 1 else totalChunks transfer in
        let transfer' := with_chunks transfer cs total in
        let ts := Map_set transferId transfer' (activeTransfers s) in
        let receivedChunks := Array_defined_count cs in
        let progress :=
          emit (adapter s) (Socket sid)
            (upload_progress transferId receivedChunks
               (if decide (total = 0) then 1 else total)) in
        if isLast && bool_decide (receivedChunks = total)
        then
          match Buffer_concat cs with
          | None => Threw (set_activeTransfers ts s) [progress]
          | Some completeFile =>
              Returned
                (set_activeTransfers (Map_delete transferId ts) s)
                [progress;
                 emit (adapter s) (SocketTo sid (pin transfer))
                   (file_received transferId (fileName transfer)
                      (fileType transfer) completeFile sid);
                 emit (adapter s) (Socket sid) (transfer_complete transferId)]
          end
        else Returned (set_activeTransfers ts s) [progress]
  end.

Definition respond_to_file (sid transferId : string) (accept : bool)
    (s : State) : outcome :=
  match Map_get transferId (activeTransfers s) with
  | None => Returned s [Callback sid (failure "Transfer not found")]
  | Some transfer =>
      if accept
      then Returned s
             [emit (adapter s) (Socket sid) (download_ready transferId);
              Callback sid success]
      else Returned s
             [emit (adapter s) (IoTo (from transfer))
                (transfer_rejected transferId sid);
              Callback sid success]
  end.

(** ** Disconnect

    The two loops of the [disconnect] handler, each over the entries of its
    map in insertion order.  An iteration touches only its own entry, so the
    loop is a recursion over the entries. *)

Fixpoint disconnect_rooms (sid : string) (ad : gmap string (gset string))
    (entries : list (string * Room)) : list (string * Room) * list emission :=
  match entries with
  | [] => ([], [])
  | (p, room) :: rest =>
      let '(rs, out) := disconnect_rooms sid ad rest in
      match find (is_socket sid) (participants room) with
      | None => ((p, room) :: rs, out)
      | Some participant =>
          let room' := without_socket sid participant room in
          let notice :=
            emit ad (SocketTo sid p) (user_left sid (userId participant)) in
          if decide (length (participants room') = 0)
          then (rs, notice :: out)
          else ((p, room') :: rs, notice :: out)
      end
  end.

Fixpoint disconnect_transfers (sid : string) (ad : gmap string (gset string))
    (entries : list (string * Transfer))
  : list (string * Transfer) * list emission :=
  match entries with
  | [] => ([], [])
  | (transferId, transfer) :: rest =>
      let '(ts, out) := disconnect_transfers sid ad rest in
      if decide (from transfer = sid)
      then (ts, emit ad (IoTo (pin transfer)) (transfer_cancelled transferId)
                  :: out)
      else ((transferId, transfer) :: ts, out)
  end.

Definition disconnect (sid : string) (s : State) : outcome :=
  let ad := socket_leave_all sid (adapter s) in
  let '(rs, out) := disconnect_rooms sid ad (rooms s) in
  let '(ts, out') := disconnect_transfers sid ad (activeTransfers s) in
  Returned {| rooms := rs; activeTransfers := ts; adapter := ad |}
    (out ++ out').

(** ** The server as a transition system *)

Inductive event :=
| Connection (sid : string)
| CreateRoom (sid uid : string) (draws : list N) (now : Z)
| JoinRoom (sid p uid : string)
| LeaveRoom (sid p : string)
| InitiateFileTransfer (sid p name : string) (size : Z) (type : string)
    (now now' : Z)
| FileChunk (sid transferId : string) (chunkIndex : nat)
    (chunkData : list byte) (isLast : bool)
| RespondToFile (sid transferId : string) (accept : bool)
| GetRoomInfo (sid p : string)
| Disconnect (sid : string)
| CleanupExpiredRooms (now : Z)
| PostApiRoom (draws : list N) (now now' : Z).

Definition react (e : event) (s : State) : outcome :=
  match e with
  | Connection sid => connection sid s
  | CreateRoom sid uid draws now => create_room sid uid draws now s
  | JoinRoom sid p uid => join_room sid p uid s
  | LeaveRoom sid p => leave_room sid p s
  | InitiateFileTransfer sid p name size type now now' =>
      initiate_file_transfer sid p name size type now now' s
  | FileChunk sid transferId chunkIndex chunkData isLast =>
      file_chunk sid transferId chunkIndex chunkData isLast s
  | RespondToFile sid transferId accept =>
      respond_to_file sid transferId accept s
  | GetRoomInfo sid p => get_room_info sid p s
  | Disconnect sid => disconnect sid s
  | CleanupExpiredRooms now => cleanupExpiredRooms now s
  | PostApiRoom draws now now' => post_api_room draws now now' s
  end.

(** States the server can be in: the process starts with empty maps, and a
    reaction that throws or never returns ends the run. *)
Inductive reachable : State → Prop :=
| reachable_initial : reachable initial
| reachable_react e s s' out :
    reachable s → react e s = Returned s' out → reachable s'.

(** Running a list of events from a state, collecting what each one sent. *)
Fixpoint run (es : list event) (s : State) : outcome :=
  match es with
  | [] => Returned s []
  | e :: es' =>
      match react e s with
      | Returned s' out =>
          match run es' s' with
          | Returned s'' out' => Returned s'' (out ++ out')
          | Threw s'' out' => Threw s'' (out ++ out')
          | Diverged => Diverged
          end
      | other => other
      end
  end.

(** ** What the properties are stated with *)

(** The number of distinct user identities that have a connection listed in
    the room, counted from the participant list. *)
Definition active_distinct_users (room : Room) : nat :=
  length (remove_dups (userId <$> participants room)).

(** What holds of every room of a running server: no connection is listed
    twice, [uniqueUsers] is the set of users of the listed connections,
    every listed connection is in the room's transport group, and only a
    room made by [POST /api/room] has no participants. *)
Definition room_inv (ad : gmap string (gset string)) (p : string)
    (room : Room) : Prop :=
  NoDup (socketId <$> participants room)
  ∧ uniqueUsers room = list_to_set (userId <$> participants room)
  ∧ (∀ q, q ∈ participants room → socketId q ∈ sockets_in ad p)
  ∧ (participants room = [] →
     creatorUserId room = None ∧ creator room = "web-api").

Definition state_inv (s : State) : Prop :=
  NoDup (Map_keys (rooms s))
  ∧ ∀ p room, (p, room) ∈ rooms s → room_inv (adapter s) p room.

(** ** Concrete states used as test inputs *)

Definition one_transfer_record : Transfer :=
  {| from := "A";
     pin := "123456";
     fileName := "a.txt";
     fileSize := 3;
     fileType := "text/plain";
     chunks := [];
     totalChunks := 0;
     recipients := ["B"];
     startTime := 20 |}.

Definition two_member_room : Room :=
  {| creator := "A";
     creatorUserId := Some "alice";
     participants := [{| socketId := "A"; userId := "alice" |};
                      {| socketId := "B"; userId := "bob" |}];
     uniqueUsers := {["alice"; "bob"]};
     createdAt := 10 |}.

(** Connections "A" and "B" in room "123456", one transfer registered by
    "A". *)
Definition one_transfer : State :=
  {| rooms := [("123456", two_member_room)];
     activeTransfers := [("A_20", one_transfer_record)];
     adapter := <["A" := {["A"]}]> (<["B" := {["B"]}]>
                  (<["123456" := {["A"; "B"]}]> ∅)) |}.

(** The state a list of events leads to from the start of the process. *)
Definition after (es : list event) : State :=
  match run es initial with
  | Returned s _ => s
  | _ => initial
  end.

(** Connection "A" creates room "123456" as user "alice", "B" joins as
    "bob", and "A" registers a transfer at time 20. *)
Definition transfer_started : list event :=
  [Connection "A"; Connection "B";
   CreateRoom "A" "alice" [123456%N] 10;
   JoinRoom "B" "123456" "bob";
   InitiateFileTransfer "A" "123456" "a.txt" 3 "text/plain" 20 20].

(** ... and then a third connection joins the room. *)
Definition late_join : list event :=
  transfer_started ++ [Connection "C"; JoinRoom "C" "123456" "carol"].

(** Two connections of one user in a room, the first of which has left. *)
Definition shared_user : list event :=
  [Connection "A"; Connection "B";
   CreateRoom "A" "alice" [123456%N] 10;
   JoinRoom "B" "123456" "alice";
   LeaveRoom "A" "123456"].

(** The [file_chunk] events that submit the chunks of [payloads] at the
    indices of [order], in that order, none flagged [isLast]. *)
Definition unflagged_chunks (sid transferId : string)
    (payloads : list (list byte)) (order : list nat) : list event :=
  (λ i, FileChunk sid transferId i (nth i payloads []) false) <$> order.

(** The array after writing those chunks into [cs]. *)
Definition store_all (payloads : list (list byte)) (order : list nat)
    (cs : list (option (list byte))) : list (option (list byte)) :=
  foldl (λ a i, Array_set a i (nth i payloads [])) cs order.

(** ** The read-only HTTP endpoints

    [GET /api/room/:pin] and [GET /api/health] read the maps and change
    nothing, so they are functions of the state to a response.  Both sites
    that create a room give it a [uniqueUsers] set, so the fallback
    [room.participants.length] of the lookup is never taken.  The health
    timestamp is the clock reading, not its ISO rendering. *)

Inductive http_response :=
| HttpNotFound (error : string)
| HttpRoom (pin : string) (participants : nat) (createdAt : Z)
    (isActive : bool)
| HttpHealth (status : string) (timestamp : Z)
    (activeRooms activeTransfers : nat).

Definition get_api_room (p : string) (s : State) : http_response :=
  match Map_get p (rooms s) with
  | None => HttpNotFound "Room not found"
  | Some room => HttpRoom p (size (uniqueUsers room)) (createdAt room) true
  end.


(** ** More of what the properties are stated with *)

Fixpoint String_forall (P : Ascii.ascii → bool) (s : string) : bool :=
  match s with
  | EmptyString => true
  | String c s' => P c && String_forall P s'
  end.

Definition is_digit (c : Ascii.ascii) : bool :=
  Nat.leb 48 (Ascii.nat_of_ascii c) && Nat.leb (Ascii.nat_of_ascii c) 57.

(** The connection whose handler an event runs, if it is a socket event. *)
Definition actor (e : event) : option string :=
  match e with
  | Connection sid
  | CreateRoom sid _ _ _
  | JoinRoom sid _ _
  | LeaveRoom sid _
  | InitiateFileTransfer sid _ _ _ _ _ _
  | FileChunk sid _ _ _ _
  | RespondToFile sid _ _
  | GetRoomInfo sid _
  | Disconnect sid => Some sid
  | CleanupExpiredRooms _
  | PostApiRoom _ _ _ => None
  end.

(** What holds of the transfer map of a running server: no id is held
    twice, and every id is the one [initiate_file_transfer] makes for the
    record's sender. *)
Definition transfers_inv (s : State) : Prop :=
  NoDup (Map_keys (activeTransfers s))
  ∧ ∀ transferId transfer,
      (transferId, transfer) ∈ activeTransfers s →
      ∃ now, transferId = make_transferId (from transfer) now.

Definition not_underscore (c : Ascii.ascii) : bool :=
  negb (Ascii.eqb c "_"%char).

(** What a reaction sent, however it ended. *)
Definition sent (o : outcome) : list emission :=
  match o with
  | Returned _ out | Threw _ out => out
  | Diverged => []
  end.

(** [a[i] !== undefined] *)
Definition Array_populated {A} (a : list (option A)) (i : nat) : bool :=
  match a !! i with
  | Some (Some _) => true
  | _ => false
  end.

(** ** Cross-origin check

    The [origin] callback given to [cors] and to the socket.io server: a
    request without an origin is let through, any other is checked against
    [allowedOrigins].  An origin is a header value, a string of 8-bit code
    units, so the line terminators [.] does not match are line feed and
    carriage return. *)

Inductive allowed_origin :=
| ExactOrigin (s : string)
| VercelSubdomain.

Definition allowedOrigins : list allowed_origin :=
  [ExactOrigin "http://localhost:5173";
   ExactOrigin "https://file-transfer-frontend-eight.vercel.app";
   VercelSubdomain].

Definition is_line_terminator (c : ascii) : bool :=
  Ascii.eqb c "010"%char || Ascii.eqb c "013"%char.

(** [/^https:\/\/.*\.vercel\.app$/.test(origin)] *)
Definition vercel_regex_test (origin : string) : bool :=
  let l := String.list_ascii_of_string origin in
  let rest := drop 8 l in
  bool_decide (String.list_ascii_of_string "https://" `prefix_of` l)
  && bool_decide (String.list_ascii_of_string ".vercel.app" `suffix_of` rest)
  && forallb (λ c, negb (is_line_terminator c))
       (take (length rest - 11) rest).

Definition origin_allowed (origin : option string) : bool :=
  match origin with
  | None | Some "" => true
  | Some o =>
      existsb
        (λ allowedOrigin,
           match allowedOrigin with
           | ExactOrigin a => String.eqb a o
           | VercelSubdomain => vercel_regex_test o
           end)
        allowedOrigins
  end.

(** ** The poll bundled with the relay

    The second server of the source keeps one tally in memory.  [newVote]
    takes a type and an optional e-mail; an e-mail that is absent or empty
    is falsy.  The counts are JavaScript numbers, exact for every tally a
    process can count up to. *)

Module Votes.

Record votes := { yes : nat; no : nat; email : list string }.

Definition initial : votes := {| yes := 0; no := 0; email := [] |}.

Inductive message :=
| voteUpdate (v : votes)
| emailExists (text : string).

(** [socket.emit] and [io.emit]. *)
Inductive emission :=
| ToSocket (sid : string) (m : message)
| ToAll (m : message).

(** [io.on("connection")]: the client is sent the tally. *)
Definition connection (sid : string) (v : votes) : votes * list emission :=
  (v, [ToSocket sid (voteUpdate v)]).

Definition increment (type : string) (v : votes) : votes :=
  if decide (type = "yes")
  then {| yes := yes v + 1; no := no v; email := email v |}
  else {| yes := yes v; no := no v + 1; email := email v |}.

Definition newVote (sid type : string) (mail : option string) (v : votes)
  : votes * list emission :=
  if bool_decide (type = "yes") || bool_decide (type = "no")
  then
    let v1 := increment type v in
    match mail with
    | None | Some "" => (v1, [])
    | Some e =>
        match find (String.eqb e) (email v1) with
        | Some _ =>
            (v1, [ToSocket sid (emailExists "This email has already voted.")])
        | None =>
            let v2 := {| yes := yes v1; no := no v1;
                         email := email v1 ++ [e] |} in
            (v2, [ToAll (voteUpdate v2)])
        end
    end
  else (v, []).

(** A sequence of [newVote] events, each with its connection, type and
    e-mail. *)
Fixpoint run (es : list (string * string * option string)) (v : votes)
  : votes * list emission :=
  match es with
  | [] => (v, [])
  | (sid, type, mail) :: es' =>
      let '(v1, out1) := newVote sid type mail v in
      let '(v2, out2) := run es' v1 in
      (v2, out1 ++ out2)
  end.

Definition valid_type (e : string * string * option string) : bool :=
  bool_decide (e.1.2 = "yes") || bool_decide (e.1.2 = "no").

Definition is_broadcast (e : emission) : bool :=
  match e with ToAll _ => true | ToSocket _ _ => false end.

End Votes.


(** ... and then "B" leaves the room before the file is complete. *)
Definition left_before_completion : list event :=
  late_join ++ [LeaveRoom "B" "123456"].

(** ** The room registry as the specification words it

    The specification describes a room by its "active (connection-id,
    user-id) pairs": a join adds the pair of the joining connection (a
    connection already in the room is turned away), a leave and a
    disconnect take the connection's pair out, a room left with no pair is
    deleted on the spot, and the distinct-user count is the number of user
    ids that still have a pair.  The definitions below follow these words,
    not the code; nothing in them looks at a [Room] record. *)

Inductive room_event :=
| Joins (c u : string)
| Leaves (c : string)
| Disconnects (c : string).

(** The server event by which a room event on room [p] arrives. *)
Definition to_event (p : string) (e : room_event) : event :=
  match e with
  | Joins c u => JoinRoom c p u
  | Leaves c => LeaveRoom c p
  | Disconnects c => Disconnect c
  end.

(** The active pairs of one room. *)
Definition spec_room : Type := gset (string * string).

Definition spec_connections (A : spec_room) : gset string := set_map fst A.

Definition spec_distinct_users (A : spec_room) : nat :=
  size (set_map snd A : gset string).

(** Taking a connection out; [None] is the deleted room. *)
Definition spec_remove (c : string) (A : spec_room) : option spec_room :=
  if decide (c ∈ spec_connections A)
  then
    let A' := filter (λ x, x.1 ≠ c) A in
    if decide (A' = ∅) then None else Some A'
  else Some A.

Definition spec_step (e : room_event) (A : spec_room) : option spec_room :=
  match e with
  | Joins c u =>
      if decide (c ∈ spec_connections A) then Some A else Some (A ∪ {[(c, u)]})
  | Leaves c => spec_remove c A
  | Disconnects c => spec_remove c A
  end.

(** The active pairs after a sequence of room events; nothing happens to a
    deleted room. *)
Fixpoint spec_active (es : list room_event) (oA : option spec_room)
  : option spec_room :=
  match es with
  | [] => oA
  | e :: es' => spec_active es' (oA ≫= spec_step e)
  end.

(** What [get_room_info] is specified to answer for a room created by
    [cr] at [t0] whose active pairs are [oA]. *)
Definition spec_room_info (cr sid : string) (t0 : Z) (oA : option spec_room)
  : ack :=
  match oA with
  | Some A => room_info (spec_distinct_users A) (bool_decide (cr = sid)) t0
  | None => failure "Room not found"
  end.

(** The pairs the code lists in a room record, and the relation between a
    server state and the specification's view of room [p]. *)
Definition listed (room : Room) : spec_room :=
  list_to_set ((λ q, (socketId q, userId q)) <$> participants room).

Definition room_matches (p cr : string) (t0 : Z) (s : State)
    (oA : option spec_room) : Prop :=
  match oA with
  | None => Map_get p (rooms s) = None
  | Some A =>
      ∃ room, Map_get p (rooms s) = Some room
              ∧ listed room = A ∧ creator room = cr ∧ createdAt room = t0
  end.

(** In a room created by connection "A" of user "alice": connections of
    "bob", of "carol" and a second one of "alice" join; then the one of
    "bob" leaves, the one of "carol" disconnects and the first one of
    "alice" leaves. *)
Definition two_connections_one_user : list room_event :=
  [Joins "B" "bob"; Joins "C" "carol"; Joins "D" "alice";
   Leaves "B"; Disconnects "C"; Leaves "A"].

(** * Properties *)

(** ** The map operations *)

Section Map_facts.
Context {V : Type}.
Implicit Types (m : list (string * V)) (k : string) (v : V).

Lemma Map_get_set_eq k v m : Map_get k (Map_set k v m) = Some v.
Proof.
  induction m as [|[k' v'] m IH]; simpl.
  - by rewrite decide_True.
  - destruct (decide (k' = k)) as [->|Hne]; simpl.
    + by rewrite decide_True.
    + by rewrite decide_False.
Qed.

Lemma Map_get_set_ne k k' v m :
  k ≠ k' → Map_get k' (Map_set k v m) = Map_get k' m.
Proof.
  intros Hne. induction m as [|[k0 v0] m IH]; simpl.
  - by rewrite decide_False.
  - destruct (decide (k0 = k)) as [->|Hk0]; simpl.
    + by rewrite !decide_False.
    + destruct (decide (k0 = k')); [done | apply IH].
Qed.

Lemma Map_get_delete_eq k m : Map_get k (Map_delete k m) = None.
Proof.
  unfold Map_delete. induction m as [|[k' v'] m IH]; [done|].
  rewrite filter_cons. simpl. destruct (decide (k' ≠ k)) as [Hne|Heq].
  - simpl. by rewrite decide_False.
  - apply IH.
Qed.

Lemma Map_get_delete_ne k k' m :
  k ≠ k' → Map_get k' (Map_delete k m) = Map_get k' m.
Proof.
  intros Hne. unfold Map_delete. induction m as [|[k0 v0] m IH]; [done|].
  rewrite filter_cons. simpl. destruct (decide (k0 ≠ k)) as [Hk0|Hk0].
  - simpl. destruct (decide (k0 = k')); [done | apply IH].
  - apply dec_stable in Hk0. subst k0. by rewrite decide_False.
Qed.

Lemma Map_get_elem_of k v m : Map_get k m = Some v → (k, v) ∈ m.
Proof.
  induction m as [|[k' v'] m IH]; simpl; [done|].
  destruct (decide (k' = k)) as [->|Hne].
  - intros [= ->]. apply list_elem_of_here.
  - intros H. apply list_elem_of_further. by apply IH.
Qed.

Lemma Map_get_None k m : Map_get k m = None ↔ k ∉ Map_keys m.
Proof.
  unfold Map_keys. induction m as [|[k' v'] m IH]; simpl.
  - split; [intros _; apply not_elem_of_nil | done].
  - rewrite not_elem_of_cons. destruct (decide (k' = k)) as [->|Hne].
    + split; [done | by intros [? _]].
    + rewrite IH. split; [by intros ? | by intros [_ ?]].
Qed.

Lemma Map_get_app_r k m1 m2 :
  k ∉ Map_keys m1 → Map_get k (m1 ++ m2) = Map_get k m2.
Proof.
  unfold Map_keys. induction m1 as [|[k' v'] m1 IH]; simpl; [done|].
  rewrite not_elem_of_cons. intros [Hne Hnot].
  rewrite decide_False by done. by apply IH.
Qed.

Lemma Map_set_app_r k v m1 m2 :
  k ∉ Map_keys m1 → Map_set k v (m1 ++ m2) = m1 ++ Map_set k v m2.
Proof.
  unfold Map_keys. induction m1 as [|[k' v'] m1 IH]; simpl; [done|].
  rewrite not_elem_of_cons. intros [Hne Hnot].
  rewrite decide_False by done. f_equal. by apply IH.
Qed.

Lemma Map_delete_absent k m : k ∉ Map_keys m → Map_delete k m = m.
Proof.
  unfold Map_keys, Map_delete. induction m as [|[k' v'] m IH]; [done|].
  simpl. rewrite not_elem_of_cons. intros [Hne Hnot].
  rewrite filter_cons_True by (simpl; congruence). f_equal. by apply IH.
Qed.

Lemma Map_keys_set k v m :
  Map_keys (Map_set k v m)
  = if Map_has k m then Map_keys m else Map_keys m ++ [k].
Proof.
  unfold Map_keys, Map_has. induction m as [|[k' v'] m IH]; [done|].
  cbn [Map_set Map_get].
  destruct (decide (k' = k)) as [->|Hne]; [done|].
  rewrite !fmap_cons, IH. by destruct (Map_get k m).
Qed.

Lemma Map_keys_NoDup_set k v m :
  NoDup (Map_keys m) → NoDup (Map_keys (Map_set k v m)).
Proof.
  intros Hnd. rewrite Map_keys_set. unfold Map_has.
  destruct (Map_get k m) eqn:Hget; [done|].
  apply Map_get_None in Hget.
  apply NoDup_app. split_and!; [done | | apply NoDup_singleton].
  intros x Hx ->%list_elem_of_singleton. done.
Qed.

Lemma Map_keys_filter_sublist (P : string * V → Prop)
    `{∀ e, Decision (P e)} m :
  sublist (Map_keys (filter P m)) (Map_keys m).
Proof. unfold Map_keys. apply fmap_sublist, sublist_filter. Qed.

Lemma Map_get_filter_Some (P : string * V → Prop)
    `{∀ e, Decision (P e)} k v m :
  NoDup (Map_keys m) →
  Map_get k (filter P m) = Some v → Map_get k m = Some v.
Proof.
  unfold Map_keys. induction m as [|[k' v'] m IH]; [done|].
  rewrite fmap_cons, NoDup_cons. simpl. intros [Hk' Hnd].
  rewrite filter_cons. destruct (decide (P (k', v'))); simpl.
  - destruct (decide (k' = k)); [done | by apply IH].
  - intros Hget. destruct (decide (k' = k)) as [->|Hne]; [|by apply IH].
    apply Map_get_elem_of, list_elem_of_filter in Hget as [_ Hin].
    exfalso. apply Hk'. apply list_elem_of_fmap. by exists (k, v).
Qed.
End Map_facts.

(** ** Chunks from anyone but the sender *)

(** C4.  A [file_chunk] for a transfer id that is unknown, or whose
    registered sender is another connection, changes nothing in the state
    (so the transfer, its chunks and its total are as before) and sends one
    message, [transfer_error] "Invalid transfer", to the caller; there is no
    callback. *)
Theorem file_chunk_invalid_transfer (s : State) (sid transferId : string)
    (chunkIndex : nat) (chunkData : list byte) (isLast : bool) :
  (∀ transfer, Map_get transferId (activeTransfers s) = Some transfer →
               from transfer ≠ sid) →
  file_chunk sid transferId chunkIndex chunkData isLast s
  = Returned s
      [Emit (Socket sid) {[sid]}
         (transfer_error transferId "Invalid transfer")].
Proof.
  intros Hsender. unfold file_chunk.
  destruct (Map_get transferId (activeTransfers s)) as [transfer|]; [|done].
  specialize (Hsender transfer eq_refl).
  by rewrite bool_decide_eq_false_2.
Qed.

Lemma file_chunk_invalid_transfer_witness :
  file_chunk "B" "A_20" 0 [x01] true one_transfer
  = Returned one_transfer
      [Emit (Socket "B") {["B"]} (transfer_error "A_20" "Invalid transfer")].
Proof.
  apply file_chunk_invalid_transfer.
  intros transfer H. vm_compute in H. injection H as <-. simpl. discriminate.
Defined.

(** ** Responding to a transfer *)

(** C7.  Rejecting an existing transfer sends [transfer_rejected] with the
    transfer id and the responder's connection id to the group named by the
    sender's connection id, acknowledges with success, and leaves the state,
    the transfer record included, as it was.  For an unknown id the
    acknowledgement is the error "Transfer not found". *)
Theorem respond_to_file_reject (s : State) (sid transferId : string) :
  match Map_get transferId (activeTransfers s) with
  | Some transfer =>
      respond_to_file sid transferId false s
      = Returned s
          [Emit (IoTo (from transfer)) (sockets_in (adapter s) (from transfer))
             (transfer_rejected transferId sid);
           Callback sid success]
  | None =>
      ∀ accept,
        respond_to_file sid transferId accept s
        = Returned s [Callback sid (failure "Transfer not found")]
  end.
Proof.
  unfold respond_to_file.
  destruct (Map_get transferId (activeTransfers s)); [done | by intros []].
Qed.

(** C10.  [respond_to_file] does not look at who responds.  For an existing
    transfer and any connection - one outside the recipient snapshot, one
    that is not in the transfer's room, the sender itself - the call is
    acknowledged with success; accepting sends [download_ready] to the
    responder, rejecting sends [transfer_rejected] naming the responder to
    the sender. *)
Theorem respond_to_file_unchecked (s : State) (sid transferId : string)
    (accept : bool) (transfer : Transfer) :
  Map_get transferId (activeTransfers s) = Some transfer →
  respond_to_file sid transferId accept s
  = Returned s
      [if accept
       then Emit (Socket sid) {[sid]} (download_ready transferId)
       else Emit (IoTo (from transfer))
              (sockets_in (adapter s) (from transfer))
              (transfer_rejected transferId sid);
       Callback sid success].
Proof.
  intros Hget. unfold respond_to_file. rewrite Hget. by destruct accept.
Qed.

Lemma respond_to_file_unchecked_witness :
  ("Z" ∉ recipients one_transfer_record) ∧
  (respond_to_file "Z" "A_20" true one_transfer
   = Returned one_transfer
       [Emit (Socket "Z") {["Z"]} (download_ready "A_20");
        Callback "Z" success]) ∧
  (respond_to_file "A" "A_20" false one_transfer
   = Returned one_transfer
       [Emit (IoTo "A") {["A"]} (transfer_rejected "A_20" "A");
        Callback "A" success]).
Proof.
  split; [by intros ?%list_elem_of_singleton|].
  split.
  - by apply (respond_to_file_unchecked one_transfer "Z" "A_20" true
                one_transfer_record).
  - by apply (respond_to_file_unchecked one_transfer "A" "A_20" false
                one_transfer_record).
Defined.

(** ** Leaving a room *)

Lemma find_is_socket_filter (sid : string) (ps : list Participant) :
  find (is_socket sid) (filter (λ q, socketId q ≠ sid) ps) = None.
Proof.
  induction ps as [|q ps IH]; [done|].
  rewrite filter_cons. destruct (decide (socketId q ≠ sid)); [|done].
  simpl. unfold is_socket at 1. by rewrite bool_decide_eq_false_2.
Qed.

(** C9.  [leave_room] twice in a row is [leave_room] once: the same final
    state and the same messages, the second call finding nothing to do. *)
Theorem leave_room_idempotent (s : State) (sid p : string) :
  run [LeaveRoom sid p; LeaveRoom sid p] s = run [LeaveRoom sid p] s.
Proof.
  simpl. unfold leave_room at 1 3.
  destruct (Map_get p (rooms s)) as [room|] eqn:Hroom.
  - destruct (find (is_socket sid) (participants room)) as [q|] eqn:Hfind.
    + unfold leave_room. simpl.
      destruct (decide (length _ = 0)) as [Hempty|Hsome].
      * by rewrite Map_get_delete_eq.
      * rewrite Map_get_set_eq. simpl. by rewrite find_is_socket_filter.
    + unfold leave_room. by rewrite Hroom, Hfind.
  - unfold leave_room. by rewrite Hroom.
Qed.

(** ** The transport groups *)

Lemma sockets_in_join (sid r r' : string) (ad : gmap string (gset string)) :
  sockets_in (socket_join sid r ad) r'
  = if decide (r = r') then {[sid]} ∪ sockets_in ad r' else sockets_in ad r'.
Proof.
  unfold socket_join, sockets_in at 1. rewrite lookup_insert.
  destruct (decide (r = r')) as [->|]; done.
Qed.

Lemma sockets_in_leave (sid r r' : string) (ad : gmap string (gset string)) :
  sockets_in (socket_leave sid r ad) r'
  = if decide (r = r') then sockets_in ad r' ∖ {[sid]} else sockets_in ad r'.
Proof.
  unfold socket_leave, sockets_in at 1. rewrite lookup_insert.
  destruct (decide (r = r')) as [->|]; done.
Qed.

Lemma sockets_in_leave_all (sid r : string) (ad : gmap string (gset string)) :
  sockets_in (socket_leave_all sid ad) r = sockets_in ad r ∖ {[sid]}.
Proof.
  unfold socket_leave_all, sockets_in. rewrite lookup_fmap.
  destruct (ad !! r); simpl; [done|].
  apply set_eq. intros x. rewrite elem_of_difference, elem_of_empty. tauto.
Qed.

(** ** Participants of one room *)

Lemma find_is_socket_Some (sid : string) (ps : list Participant) q :
  find (is_socket sid) ps = Some q → q ∈ ps ∧ socketId q = sid.
Proof.
  intros [Hin Hq]%find_some. split; [by apply list_elem_of_In|].
  unfold is_socket in Hq. by apply bool_decide_eq_true in Hq.
Qed.

Lemma find_is_socket_None (sid : string) (ps : list Participant) :
  find (is_socket sid) ps = None ↔ sid ∉ socketId <$> ps.
Proof.
  induction ps as [|q ps IH]; simpl.
  - split; [intros _; apply not_elem_of_nil | done].
  - rewrite not_elem_of_cons. unfold is_socket at 1.
    destruct (bool_decide_reflect (socketId q = sid)) as [Heq|Hne].
    + split; [done | intros [Hne _]; by destruct Hne].
    + rewrite IH. split; [by intros ? | by intros [_ ?]].
Qed.

Lemma NoDup_fmap_eq {A B} (f : A → B) (l : list A) x y :
  NoDup (f <$> l) → x ∈ l → y ∈ l → f x = f y → x = y.
Proof.
  induction l as [|a l IH]; [by intros _ ?%not_elem_of_nil|].
  rewrite fmap_cons, NoDup_cons.
  intros [Ha Hnd] [->|Hx]%elem_of_cons [->|Hy]%elem_of_cons Hf.
  - done.
  - exfalso. apply Ha. rewrite Hf. by apply list_elem_of_fmap_2.
  - exfalso. apply Ha. rewrite <- Hf. by apply list_elem_of_fmap_2.
  - by apply IH.
Qed.

Lemma existsb_userId (u : string) (ps : list Participant) :
  existsb (λ q, bool_decide (userId q = u)) ps = true
  ↔ u ∈ userId <$> ps.
Proof.
  rewrite existsb_exists, list_elem_of_fmap. split.
  - intros (q & Hin & Hq). exists q. apply bool_decide_eq_true in Hq.
    split; [done | by apply list_elem_of_In].
  - intros (q & -> & Hin). exists q.
    split; [by apply list_elem_of_In | by apply bool_decide_eq_true].
Qed.

(** Removing a listed connection keeps the room well formed, and the users
    that remain are those of the connections that remain. *)
Lemma without_socket_users (sid : string) (q : Participant) (room : Room) :
  NoDup (socketId <$> participants room) →
  uniqueUsers room = list_to_set (userId <$> participants room) →
  find (is_socket sid) (participants room) = Some q →
  uniqueUsers (without_socket sid q room)
  = list_to_set (userId <$> participants (without_socket sid q room)).
Proof.
  intros Hnd Huu [Hq Hsid]%find_is_socket_Some. unfold without_socket. simpl.
  set (ps' := filter (λ x, socketId x ≠ sid) (participants room)).
  assert (Hsplit : ∀ x, x ∈ participants room → x = q ∨ x ∈ ps').
  { intros x Hx. destruct (decide (socketId x = sid)) as [Heq|Hne].
    - left. eapply NoDup_fmap_eq; eauto. congruence.
    - right. by apply list_elem_of_filter. }
  assert (Hsub : ∀ x, x ∈ ps' → x ∈ participants room).
  { intros x Hx. by apply list_elem_of_filter in Hx as [_ ?]. }
  destruct (existsb _ ps') eqn:Hstill.
  - apply existsb_userId in Hstill. rewrite Huu. apply set_eq. intros u.
    rewrite !elem_of_list_to_set, !list_elem_of_fmap. split.
    + intros (x & -> & [->|Hx]%Hsplit); [|by exists x].
      by apply list_elem_of_fmap in Hstill.
    + intros (x & -> & Hx%Hsub). by exists x.
  - assert (Hgone : userId q ∉ userId <$> ps').
    { intros Hin%existsb_userId. congruence. }
    rewrite Huu. apply set_eq. intros u.
    rewrite elem_of_difference, !elem_of_list_to_set, elem_of_singleton,
      !list_elem_of_fmap.
    split.
    + intros [(x & -> & [->|Hx]%Hsplit) Hne]; [done | by exists x].
    + intros (x & -> & Hx). split; [exists x; by auto|].
      intros Heq. apply Hgone. rewrite <- Heq. by apply list_elem_of_fmap_2.
Qed.

Lemma without_socket_NoDup (sid : string) (q : Participant) (room : Room) :
  NoDup (socketId <$> participants room) →
  NoDup (socketId <$> participants (without_socket sid q room)).
Proof.
  intros Hnd. simpl. eapply sublist_NoDup; [exact Hnd|].
  apply fmap_sublist, sublist_filter.
Qed.

Lemma without_socket_inv (sid p : string) (q : Participant) (room : Room)
    (ad ad' : gmap string (gset string)) :
  (∀ x, x ∈ sockets_in ad p → x ≠ sid → x ∈ sockets_in ad' p) →
  room_inv ad p room →
  find (is_socket sid) (participants room) = Some q →
  length (participants (without_socket sid q room)) ≠ 0 →
  room_inv ad' p (without_socket sid q room).
Proof.
  intros Had (Hnd & Huu & Hgrp & _) Hfind Hsome. split_and!.
  - by apply without_socket_NoDup.
  - by apply without_socket_users.
  - simpl. intros x [Hne Hx]%list_elem_of_filter.
    apply Had; [by apply Hgrp | done].
  - intros Hnil. by rewrite Hnil in Hsome.
Qed.

(** ** The invariant of the room registry *)

Lemma elem_of_Map_set {V} (k : string) (v : V) (m : list (string * V)) e :
  NoDup (Map_keys m) →
  e ∈ Map_set k v m → e = (k, v) ∨ (e ∈ m ∧ e.1 ≠ k).
Proof.
  unfold Map_keys. induction m as [|[k' v'] m IH]; simpl.
  - intros _ ->%list_elem_of_singleton. by left.
  - rewrite NoDup_cons. intros [Hk' Hnd].
    destruct (decide (k' = k)) as [->|Hne].
    + intros [->|He]%elem_of_cons; [by left|]. right.
      split; [by apply list_elem_of_further|].
      intros <-. apply Hk'. by apply list_elem_of_fmap_2.
    + intros [->|He]%elem_of_cons.
      * right. split; [apply list_elem_of_here | done].
      * destruct (IH Hnd He) as [->|[Hin Hk]]; [by left|].
        right. split; [by apply list_elem_of_further | done].
Qed.

Lemma Map_keys_NoDup_filter {V} (P : string * V → Prop)
    `{∀ e, Decision (P e)} (m : list (string * V)) :
  NoDup (Map_keys m) → NoDup (Map_keys (filter P m)).
Proof.
  intros Hnd. eapply sublist_NoDup; [exact Hnd|].
  apply Map_keys_filter_sublist.
Qed.

Lemma unique_pin_fresh (draws : list N) (rs : list (string * Room)) p :
  unique_pin draws rs = Some p → Map_get p rs = None.
Proof.
  induction draws as [|d draws IH]; simpl; [done|].
  unfold Map_has. destruct (Map_get (generatePIN d) rs) eqn:Hget; [done|].
  by intros [= <-].
Qed.

Lemma room_inv_mono (ad ad' : gmap string (gset string)) (p : string)
    (room : Room) :
  (∀ q, q ∈ participants room →
        socketId q ∈ sockets_in ad p → socketId q ∈ sockets_in ad' p) →
  room_inv ad p room → room_inv ad' p room.
Proof.
  intros Had (Hnd & Huu & Hgrp & Hweb). split_and!; [done..| |done].
  intros q Hq. apply Had; [done | by apply Hgrp].
Qed.

Lemma state_inv_same_rooms (s s' : State) :
  rooms s' = rooms s → adapter s' = adapter s → state_inv s → state_inv s'.
Proof. unfold state_inv. by intros -> ->. Qed.

Lemma state_inv_initial : state_inv initial.
Proof.
  split; [apply NoDup_nil_2|]. simpl. by intros p room ?%elem_of_nil.
Qed.

Lemma connection_inv (sid : string) (s s' : State) out :
  state_inv s → connection sid s = Returned s' out → state_inv s'.
Proof.
  intros [Hkeys Hrooms] [= <- <-]. split; [done|]. simpl.
  intros p room Hin. eapply room_inv_mono; [|by apply Hrooms].
  intros q _. rewrite sockets_in_join. case_decide; set_solver.
Qed.

Lemma create_room_inv (sid uid : string) (draws : list N) (now : Z)
    (s s' : State) out :
  state_inv s → create_room sid uid draws now s = Returned s' out →
  state_inv s'.
Proof.
  intros [Hkeys Hrooms]. unfold create_room.
  destruct (unique_pin draws (rooms s)) as [p|] eqn:Hpin; [|done].
  intros [= <- <-]. split; simpl.
  - by apply Map_keys_NoDup_set.
  - intros p' room Hin.
    apply elem_of_Map_set in Hin as [[= -> ->]|[Hin Hne]]; [| |done].
    + split_and!; simpl.
      * apply NoDup_singleton.
      * set_solver.
      * intros q ->%list_elem_of_singleton. simpl.
        rewrite sockets_in_join, decide_True by done. set_solver.
      * done.
    + eapply room_inv_mono; [|by apply Hrooms].
      intros q _. rewrite sockets_in_join. case_decide; set_solver.
Qed.

Lemma post_api_room_inv (draws : list N) (now now' : Z) (s s' : State) out :
  state_inv s → post_api_room draws now now' s = Returned s' out →
  state_inv s'.
Proof.
  intros [Hkeys Hrooms]. unfold post_api_room.
  destruct (unique_pin draws (rooms s)) as [p|] eqn:Hpin; [|done].
  intros [= <- <-]. split; simpl.
  - by apply Map_keys_NoDup_set.
  - intros p' room Hin.
    apply elem_of_Map_set in Hin as [[= -> ->]|[Hin Hne]]; [| |done].
    + split_and!; simpl; [apply NoDup_nil_2 | done | | done].
      by intros q ?%elem_of_nil.
    + by apply Hrooms.
Qed.

Lemma join_room_inv (sid p uid : string) (s s' : State) out :
  state_inv s → join_room sid p uid s = Returned s' out → state_inv s'.
Proof.
  intros [Hkeys Hrooms]. unfold join_room.
  destruct (Map_get p (rooms s)) as [room|] eqn:Hroom;
    [|by intros [= <- <-]].
  destruct (find (is_socket sid) (participants room)) eqn:Hfind;
    [by intros [= <- <-]|].
  intros [= <- <-]. split; simpl.
  - by apply Map_keys_NoDup_set.
  - apply Map_get_elem_of, Hrooms in Hroom as (Hnd & Huu & Hgrp & _).
    apply find_is_socket_None in Hfind.
    intros p' room' Hin.
    apply elem_of_Map_set in Hin as [[= -> ->]|[Hin Hne]]; [| |done].
    + split_and!; simpl.
      * rewrite fmap_app. apply NoDup_app. split_and!; [done| |].
        -- by intros x Hx ->%list_elem_of_singleton.
        -- apply NoDup_singleton.
      * rewrite fmap_app, list_to_set_app_L, Huu. set_solver.
      * intros q [Hq|Hq%list_elem_of_singleton]%elem_of_app;
          rewrite sockets_in_join, decide_True by done.
        -- apply elem_of_union_r. by apply Hgrp.
        -- subst q. simpl. set_solver.
      * by intros [_ ?]%app_nil.
    + eapply room_inv_mono; [|by apply Hrooms].
      intros q _. rewrite sockets_in_join. case_decide; set_solver.
Qed.

Lemma leave_room_inv (sid p : string) (s s' : State) out :
  state_inv s → leave_room sid p s = Returned s' out → state_inv s'.
Proof.
  intros [Hkeys Hrooms]. unfold leave_room.
  destruct (Map_get p (rooms s)) as [room|] eqn:Hroom;
    [|by intros [= <- <-]].
  destruct (find (is_socket sid) (participants room)) as [q|] eqn:Hfind;
    [|by intros [= <- <-]].
  apply Map_get_elem_of, Hrooms in Hroom.
  assert (Hothers : ∀ p' room', (p', room') ∈ rooms s → p' ≠ p →
            room_inv (socket_leave sid p (adapter s)) p' room').
  { intros p' room' Hin Hne. eapply room_inv_mono; [|by apply Hrooms].
    intros x _. rewrite sockets_in_leave. by rewrite decide_False. }
  intros [= <- <-].
  destruct (decide (length _ = 0)) as [Hempty|Hsome]; split; simpl.
  - by apply Map_keys_NoDup_filter, Map_keys_NoDup_set.
  - intros p' room' [Hne Hin]%list_elem_of_filter. simpl in Hne.
    apply elem_of_Map_set in Hin as [[= -> ->]|[Hin _]]; [done| |done].
    by apply Hothers.
  - by apply Map_keys_NoDup_set.
  - intros p' room' Hin.
    apply elem_of_Map_set in Hin as [[= -> ->]|[Hin Hne]]; [| |done].
    + eapply without_socket_inv; [|done..].
      intros x Hx Hne. rewrite sockets_in_leave, decide_True by done.
      set_solver.
    + by apply Hothers.
Qed.

Lemma cleanupExpiredRooms_inv (now : Z) (s s' : State) out :
  state_inv s → cleanupExpiredRooms now s = Returned s' out → state_inv s'.
Proof.
  intros [Hkeys Hrooms] [= <- <-]. split; simpl.
  - by apply Map_keys_NoDup_filter.
  - intros p room [_ Hin]%list_elem_of_filter. by apply Hrooms.
Qed.

Lemma disconnect_rooms_keys (sid : string) (ad : gmap string (gset string))
    (entries : list (string * Room)) :
  sublist (Map_keys (disconnect_rooms sid ad entries).1) (Map_keys entries).
Proof.
  unfold Map_keys. induction entries as [|[p room] rest IH]; [done|].
  simpl. destruct (disconnect_rooms sid ad rest) as [rs out].
  destruct (find (is_socket sid) (participants room)) as [q|].
  - destruct (decide (length _ = 0)); simpl.
    + by apply sublist_cons.
    + by apply sublist_skip.
  - simpl. by apply sublist_skip.
Qed.

(** An entry that survives the room loop of [disconnect] is an entry the
    connection was not listed in, or one it was removed from that still has
    someone listed. *)
Lemma disconnect_rooms_elem (sid : string) (ad : gmap string (gset string))
    (entries : list (string * Room)) (p : string) (room' : Room) :
  (p, room') ∈ (disconnect_rooms sid ad entries).1 →
  ∃ room, (p, room) ∈ entries
    ∧ ((find (is_socket sid) (participants room) = None ∧ room' = room)
       ∨ (∃ q, find (is_socket sid) (participants room) = Some q
               ∧ room' = without_socket sid q room
               ∧ length (participants room') ≠ 0)).
Proof.
  induction entries as [|[p0 room0] rest IH]; simpl.
  - by intros ?%elem_of_nil.
  - destruct (disconnect_rooms sid ad rest) as [rs out]. simpl in IH.
    assert (Hrest : (p, room') ∈ rs →
              ∃ room, (p, room) ∈ (p0, room0) :: rest
                ∧ ((find (is_socket sid) (participants room) = None
                    ∧ room' = room)
                   ∨ (∃ q, find (is_socket sid) (participants room) = Some q
                           ∧ room' = without_socket sid q room
                           ∧ length (participants room') ≠ 0))).
    { intros (room & Hin & Hcase)%IH. exists room.
      split; [by apply list_elem_of_further | done]. }
    destruct (find (is_socket sid) (participants room0)) as [q|] eqn:Hfind.
    + destruct (decide (length _ = 0)) as [Hempty|Hsome]; simpl; [done|].
      intros [[= -> ->]|Hin]%elem_of_cons; [|by apply Hrest].
      exists room0. split; [apply list_elem_of_here|].
      right. by exists q.
    + simpl. intros [[= -> ->]|Hin]%elem_of_cons; [|by apply Hrest].
      exists room0. split; [apply list_elem_of_here|]. by left.
Qed.

Lemma disconnect_inv (sid : string) (s s' : State) out :
  state_inv s → disconnect sid s = Returned s' out → state_inv s'.
Proof.
  intros [Hkeys Hrooms]. unfold disconnect.
  pose proof (disconnect_rooms_keys sid (socket_leave_all sid (adapter s))
                (rooms s)) as Hsub.
  pose proof (disconnect_rooms_elem sid (socket_leave_all sid (adapter s))
                (rooms s)) as Helem.
  destruct (disconnect_rooms _ _ (rooms s)) as [rs out1].
  destruct (disconnect_transfers _ _ _) as [ts out2].
  intros [= <- <-]. split; simpl in *.
  - by eapply sublist_NoDup.
  - intros p room' (room & Hin & Hcase)%Helem. apply Hrooms in Hin.
    destruct Hcase as [[Hfind ->]|(q & Hfind & -> & Hsome)].
    + eapply room_inv_mono; [|done].
      apply find_is_socket_None in Hfind.
      intros x Hx Hgrp. rewrite sockets_in_leave_all.
      apply elem_of_difference. split; [done|].
      intros Heq%elem_of_singleton. apply Hfind. rewrite <- Heq.
      by apply list_elem_of_fmap_2.
    + eapply without_socket_inv; [|done..].
      intros x Hx Hne. rewrite sockets_in_leave_all. set_solver.
Qed.

Lemma react_inv (e : event) (s s' : State) out :
  state_inv s → react e s = Returned s' out → state_inv s'.
Proof.
  intros Hinv. destruct e; simpl.
  - by apply connection_inv.
  - by apply create_room_inv.
  - by apply join_room_inv.
  - by apply leave_room_inv.
  - unfold initiate_file_transfer.
    destruct (Map_get p (rooms s)); [|by intros [= <- <-]].
    case_decide; intros [= <- <-]; by try eapply state_inv_same_rooms.
  - unfold file_chunk, invalid_transfer.
    destruct (Map_get transferId (activeTransfers s));
      [|by intros [= <- <-]].
    destruct (negb _); [by intros [= <- <-]|].
    destruct (isLast && _); [destruct (Buffer_concat _)|];
      intros [= <- <-]; by eapply state_inv_same_rooms.
  - unfold respond_to_file.
    destruct (Map_get transferId (activeTransfers s));
      [destruct accept|]; by intros [= <- <-].
  - unfold get_room_info.
    destruct (Map_get p (rooms s)); by intros [= <- <-].
  - by apply disconnect_inv.
  - by apply cleanupExpiredRooms_inv.
  - by apply post_api_room_inv.
Qed.

Lemma reachable_inv (s : State) : reachable s → state_inv s.
Proof.
  induction 1 as [|e s s' out _ IH Hstep];
    [apply state_inv_initial | by eapply react_inv].
Qed.

Lemma reachable_room_inv (s : State) (p : string) (room : Room) :
  reachable s → Map_get p (rooms s) = Some room →
  room_inv (adapter s) p room.
Proof.
  intros [_ Hrooms]%reachable_inv Hget%Map_get_elem_of. by apply Hrooms.
Qed.

Lemma reachable_run (es : list event) (s s' : State) out :
  reachable s → run es s = Returned s' out → reachable s'.
Proof.
  revert s out. induction es as [|e es IH]; simpl; intros s out Hs.
  - by intros [= <- _].
  - destruct (react e s) as [s1 out1| |] eqn:Hstep; [|done..].
    destruct (run es s1) as [s2 out2| |] eqn:Hrun; [|done..].
    intros [= <- _]. eapply IH; [|done]. by eapply reachable_react.
Qed.

Lemma reachable_after (es : list event) : reachable (after es).
Proof.
  unfold after. destruct (run es initial) as [s out| |] eqn:Hrun;
    try apply reachable_initial.
  eapply reachable_run; [apply reachable_initial | done].
Qed.

(** ** Counting users *)

Lemma size_list_to_set_remove_dups (l : list string) :
  size (list_to_set l : gset string) = length (remove_dups l).
Proof.
  rewrite <- (size_list_to_set (C:=gset string) (remove_dups l))
    by apply NoDup_remove_dups.
  f_equal. apply set_eq. intros x.
  by rewrite !elem_of_list_to_set, elem_of_remove_dups.
Qed.

Lemma room_inv_size (ad : gmap string (gset string)) (p : string)
    (room : Room) :
  room_inv ad p room → size (uniqueUsers room) = active_distinct_users room.
Proof.
  intros (_ & -> & _). apply size_list_to_set_remove_dups.
Qed.

(** On a live room of a state the server can reach, [get_room_info]
    answers with the number of distinct user ids among the connections the
    room record lists. *)
Theorem get_room_info_distinct_users (s : State) (sid p : string)
    (room : Room) :
  reachable s →
  Map_get p (rooms s) = Some room →
  get_room_info sid p s
  = Returned s
      [Callback sid
         (room_info (active_distinct_users room)
            (bool_decide (creator room = sid)) (createdAt room))].
Proof.
  intros Hs Hroom. unfold get_room_info. rewrite Hroom.
  by erewrite room_inv_size by by eapply reachable_room_inv.
Qed.

Lemma get_room_info_distinct_users_witness :
  get_room_info "B" "123456" (after shared_user)
  = Returned (after shared_user) [Callback "B" (room_info 1 false 10)].
Proof.
  exact (get_room_info_distinct_users (after shared_user) "B" "123456"
           {| creator := "A";
              creatorUserId := Some "alice";
              participants := [{| socketId := "B"; userId := "alice" |}];
              uniqueUsers := {["alice"]};
              createdAt := 10 |}
           (reachable_after shared_user) eq_refl).
Defined.

(** ** Joining a room *)

Lemma join_room_new_member_count (sid uid : string)
    (ad : gmap string (gset string)) (p : string) (room : Room) :
  room_inv ad p room →
  size (uniqueUsers
          (with_members room
             (participants room ++ [{| socketId := sid; userId := uid |}])
             ({[uid]} ∪ uniqueUsers room)))
  = active_distinct_users
      (with_members room
         (participants room ++ [{| socketId := sid; userId := uid |}])
         ({[uid]} ∪ uniqueUsers room)).
Proof.
  intros (_ & Huu & _). unfold active_distinct_users. simpl.
  rewrite <- size_list_to_set_remove_dups. f_equal.
  rewrite fmap_app, list_to_set_app_L, Huu. simpl. set_solver.
Qed.

(** C8.  [join_room] answers "Invalid PIN" exactly when no room has the
    code, and "Already in room" exactly when the room lists the calling
    connection; in both cases the state is as before.  Otherwise - also when
    the user id is already in the room under another connection - the pair
    is appended to the participants, the other members are told, and the
    answer carries the number of distinct users now in the room and whether
    the caller's connection is the room's creator. *)
Theorem join_room_cases (s : State) (sid p uid : string) :
  reachable s →
  (Map_get p (rooms s) = None
   ↔ join_room sid p uid s
     = Returned s [Callback sid (failure "Invalid PIN")])
  ∧ ((∃ room, Map_get p (rooms s) = Some room
              ∧ sid ∈ socketId <$> participants room)
     ↔ join_room sid p uid s
       = Returned s [Callback sid (failure "Already in room")])
  ∧ (∀ room,
       Map_get p (rooms s) = Some room →
       sid ∉ socketId <$> participants room →
       let room' :=
         with_members room
           (participants room ++ [{| socketId := sid; userId := uid |}])
           ({[uid]} ∪ uniqueUsers room) in
       join_room sid p uid s
       = Returned
           (set_adapter (socket_join sid p (adapter s))
              (set_rooms (Map_set p room' (rooms s)) s))
           [Emit (SocketTo sid p) (sockets_in (adapter s) p ∖ {[sid]})
              (user_joined sid uid);
            Callback sid
              (joined (active_distinct_users room')
                 (bool_decide (creator room = sid)))]).
Proof.
  intros Hs. unfold join_room.
  destruct (Map_get p (rooms s)) as [room|] eqn:Hroom.
  - pose proof (reachable_room_inv s p room Hs Hroom) as Hinv.
    destruct (find (is_socket sid) (participants room)) as [q|] eqn:Hfind.
    + apply find_is_socket_Some in Hfind as [Hq Hsid]. split_and!.
      * split; [done | by intros [=]].
      * split; [done|]. intros _. exists room. split; [done|].
        rewrite <- Hsid. by apply list_elem_of_fmap_2.
      * intros ? [= <-] Hnot. exfalso. apply Hnot.
        rewrite <- Hsid. by apply list_elem_of_fmap_2.
    + apply find_is_socket_None in Hfind. split_and!.
      * split; [done | by intros [=]].
      * split; [by intros (? & [= <-] & ?) | by intros [=]].
      * intros ? [= <-] _. cbv zeta.
        rewrite (join_room_new_member_count sid uid (adapter s) p room Hinv).
        unfold emit, receivers_of.
        rewrite sockets_in_join, decide_True by done.
        do 3 f_equal. set_solver.
  - split_and!.
    + done.
    + split; [by intros (? & [=] & _) | by intros [=]].
    + by intros ? [=].
Qed.

Lemma join_room_cases_witness :
  join_room "C" "123456" "alice" (after shared_user)
  = Returned
      (set_adapter (socket_join "C" "123456" (adapter (after shared_user)))
         (set_rooms
            (Map_set "123456"
               {| creator := "A";
                  creatorUserId := Some "alice";
                  participants := [{| socketId := "B"; userId := "alice" |};
                                   {| socketId := "C"; userId := "alice" |}];
                  uniqueUsers := {["alice"]};
                  createdAt := 10 |}
               (rooms (after shared_user)))
            (after shared_user)))
      [Emit (SocketTo "C" "123456") {["B"]} (user_joined "C" "alice");
       Callback "C" (joined 1 false)].
Proof.
  destruct (join_room_cases (after shared_user) "C" "123456" "alice"
              (reachable_after shared_user)) as (_ & _ & Hjoin).
  refine (Hjoin {| creator := "A";
                   creatorUserId := Some "alice";
                   participants := [{| socketId := "B"; userId := "alice" |}];
                   uniqueUsers := {["alice"]};
                   createdAt := 10 |} eq_refl _).
  intros Hin. apply list_elem_of_singleton in Hin. discriminate Hin.
Defined.

(** ** Rooms without participants *)

Lemma Map_get_of_elem {V} (k : string) (v : V) (m : list (string * V)) :
  NoDup (Map_keys m) → (k, v) ∈ m → Map_get k m = Some v.
Proof.
  unfold Map_keys. induction m as [|[k' v'] m IH]; [by intros _ ?%elem_of_nil|].
  rewrite fmap_cons, NoDup_cons. simpl.
  intros [Hk' Hnd] [[= -> ->]|Hin]%elem_of_cons.
  - by rewrite decide_True.
  - rewrite decide_False; [by apply IH|].
    intros ->. apply Hk'. by apply (list_elem_of_fmap_2 fst _ (k, v)).
Qed.

Lemma Map_get_set_fresh {V} (k k' : string) (v v' : V)
    (m : list (string * V)) :
  Map_get k m = None → Map_get k' m = Some v' →
  Map_get k' (Map_set k v m) = Some v'.
Proof.
  intros Hk Hk'. rewrite Map_get_set_ne; [done|]. intros ->. congruence.
Qed.

(** No reaction leaves a room in the registry that had participants before
    it and has none after it. *)
Lemma react_keeps_rooms_nonempty (e : event) (s s' : State) out
    (p : string) (room room' : Room) :
  state_inv s →
  react e s = Returned s' out →
  Map_get p (rooms s) = Some room → participants room ≠ [] →
  Map_get p (rooms s') = Some room' → participants room' ≠ [].
Proof.
  intros [Hkeys Hrooms] Hstep Hroom Hsome.
  assert (Hsame : rooms s' = rooms s →
            Map_get p (rooms s') = Some room' → participants room' ≠ []).
  { intros ->. congruence. }
  destruct e; simpl in Hstep.
  - injection Hstep as <- <-. by apply Hsame.
  - unfold create_room in Hstep.
    destruct (unique_pin draws (rooms s)) as [p0|] eqn:Hpin; [|done].
    apply unique_pin_fresh in Hpin. injection Hstep as <- <-. simpl.
    rewrite (Map_get_set_fresh p0 p _ room) by done. congruence.
  - unfold join_room in Hstep.
    destruct (Map_get p0 (rooms s)) as [room0|] eqn:Hroom0;
      [|injection Hstep as <- <-; by apply Hsame].
    destruct (find (is_socket sid) (participants room0));
      [injection Hstep as <- <-; by apply Hsame|].
    injection Hstep as <- <-. simpl.
    destruct (decide (p0 = p)) as [->|Hne].
    + rewrite Map_get_set_eq. intros [= <-]. simpl. by intros [_ ?]%app_nil.
    + rewrite Map_get_set_ne by done. congruence.
  - unfold leave_room in Hstep.
    destruct (Map_get p0 (rooms s)) as [room0|] eqn:Hroom0;
      [|injection Hstep as <- <-; by apply Hsame].
    destruct (find (is_socket sid) (participants room0)) as [q|];
      [|injection Hstep as <- <-; by apply Hsame].
    injection Hstep as <- <-. simpl.
    destruct (decide (p0 = p)) as [->|Hne];
      destruct (decide (length _ = 0)) as [Hempty|Hleft].
    + by rewrite Map_get_delete_eq.
    + rewrite Map_get_set_eq. intros [= <-] Hnil. simpl in Hnil.
      by rewrite Hnil in Hleft.
    + rewrite Map_get_delete_ne, Map_get_set_ne by done. congruence.
    + rewrite Map_get_set_ne by done. congruence.
  - unfold initiate_file_transfer in Hstep.
    destruct (Map_get p0 (rooms s)); [case_decide|];
      injection Hstep as <- <-; by apply Hsame.
  - unfold file_chunk, invalid_transfer in Hstep.
    destruct (Map_get transferId (activeTransfers s));
      [|injection Hstep as <- <-; by apply Hsame].
    destruct (negb _); [injection Hstep as <- <-; by apply Hsame|].
    destruct (isLast && _); [destruct (Buffer_concat _)|]; try done;
      injection Hstep as <- <-; by apply Hsame.
  - unfold respond_to_file in Hstep.
    destruct (Map_get transferId (activeTransfers s)); [destruct accept|];
      injection Hstep as <- <-; by apply Hsame.
  - unfold get_room_info in Hstep.
    destruct (Map_get p0 (rooms s));
      injection Hstep as <- <-; by apply Hsame.
  - unfold disconnect in Hstep.
    pose proof (disconnect_rooms_elem sid (socket_leave_all sid (adapter s))
                  (rooms s) p room') as Helem.
    destruct (disconnect_rooms _ _ (rooms s)) as [rs out1].
    destruct (disconnect_transfers _ _ _) as [ts out2].
    injection Hstep as <- <-. simpl in *.
    intros (room1 & Hin & Hcase)%Map_get_elem_of%Helem.
    destruct Hcase as [[_ ->]|(q & _ & -> & Hleft)].
    + apply Map_get_of_elem in Hin; [congruence | done].
    + intros Hnil. by rewrite Hnil in Hleft.
  - injection Hstep as <- <-. simpl.
    intros Hget%Map_get_filter_Some; [congruence | done].
  - unfold post_api_room in Hstep.
    destruct (unique_pin draws (rooms s)) as [p0|] eqn:Hpin; [|done].
    apply unique_pin_fresh in Hpin. injection Hstep as <- <-. simpl.
    rewrite (Map_get_set_fresh p0 p _ room) by done. congruence.
Qed.

(** C2, as the code has it.  [POST /api/room] registers a room with no
    participants, so empty rooms exist; they are the only ones.  In every
    reachable state a room without participants is one made by
    [POST /api/room] (creator "web-api", no creating user); no reaction
    turns a room that had participants into a registered room without any,
    so [leave_room] and [disconnect] delete the room they empty in the same
    reaction; and [create_room] registers its room with one participant,
    the creator. *)
Theorem empty_rooms_are_web_api_rooms (s : State) :
  reachable s →
  (∀ p room,
     Map_get p (rooms s) = Some room → participants room = [] →
     creatorUserId room = None ∧ creator room = "web-api")
  ∧ (∀ e s' out p room room',
       react e s = Returned s' out →
       Map_get p (rooms s) = Some room → participants room ≠ [] →
       Map_get p (rooms s') = Some room' → participants room' ≠ [])
  ∧ (∀ sid uid draws now s' out,
       create_room sid uid draws now s = Returned s' out →
       ∃ p, Map_get p (rooms s) = None
            ∧ out = [Callback sid (created p)]
            ∧ participants <$> Map_get p (rooms s')
              = Some [{| socketId := sid; userId := uid |}])
  ∧ (∀ draws now now' s' out,
       post_api_room draws now now' s = Returned s' out →
       ∃ p, Map_get p (rooms s) = None
            ∧ participants <$> Map_get p (rooms s') = Some []).
Proof.
  intros Hs. split_and!.
  - intros p room Hroom Hnil.
    by destruct (reachable_room_inv s p room Hs Hroom) as (_ & _ & _ & Hweb);
      apply Hweb.
  - intros e s' out p room room' Hstep. eapply react_keeps_rooms_nonempty;
      [by apply reachable_inv | done].
  - intros sid uid draws now s' out. unfold create_room.
    destruct (unique_pin draws (rooms s)) as [p|] eqn:Hpin; [|done].
    intros [= <- <-]. exists p. split; [by eapply unique_pin_fresh|].
    split; [done|]. simpl. by rewrite Map_get_set_eq.
  - intros draws now now' s' out. unfold post_api_room.
    destruct (unique_pin draws (rooms s)) as [p|] eqn:Hpin; [|done].
    intros [= <- <-]. exists p. split; [by eapply unique_pin_fresh|].
    simpl. by rewrite Map_get_set_eq.
Qed.

(** C2 as stated fails: after one [POST /api/room] the registry holds a
    room with no participants. *)
Lemma empty_room_counterexample :
  reachable (after [PostApiRoom [123456%N] 10 10])
  ∧ react (PostApiRoom [123456%N] 10 10) initial
    = Returned (after [PostApiRoom [123456%N] 10 10]) [HttpJson "123456" 10]
  ∧ participants
      <$> Map_get "123456" (rooms (after [PostApiRoom [123456%N] 10 10]))
    = Some [].
Proof. split; [apply reachable_after | done]. Qed.

Lemma empty_rooms_are_web_api_rooms_witness :
  ∃ s' out room',
    react (LeaveRoom "B" "123456") (after transfer_started) = Returned s' out
    ∧ Map_get "123456" (rooms s') = Some room'
    ∧ participants room' ≠ [].
Proof.
  destruct (empty_rooms_are_web_api_rooms (after transfer_started)
              (reachable_after transfer_started)) as (_ & Hkeep & _).
  eexists _, _, _. split; [reflexivity|]. split; [reflexivity|].
  eapply (Hkeep (LeaveRoom "B" "123456") _ _ "123456");
    [reflexivity | reflexivity | discriminate | reflexivity].
Defined.

(** ** Who receives a completed file *)

(** A connection enters a transport group only through an event of its
    own: what other connections, the sweep and the HTTP surface do never
    puts it in one. *)
Lemma react_group_of_others (e : event) (s s' : State) out (c r : string) :
  react e s = Returned s' out →
  actor e ≠ Some c →
  c ∈ sockets_in (adapter s') r → c ∈ sockets_in (adapter s) r.
Proof.
  intros Hstep Hactor.
  assert (Hsame : adapter s' = adapter s →
            c ∈ sockets_in (adapter s') r → c ∈ sockets_in (adapter s) r).
  { by intros ->. }
  assert (Hjoin : ∀ sid p, Some sid ≠ Some c →
            c ∈ sockets_in (socket_join sid p (adapter s)) r →
            c ∈ sockets_in (adapter s) r).
  { intros sid p Hne. rewrite sockets_in_join.
    case_decide; [|done]. rewrite elem_of_union, elem_of_singleton.
    intros [->|]; [by destruct Hne | done]. }
  destruct e; simpl in Hstep, Hactor.
  - injection Hstep as <- <-. simpl. by apply Hjoin.
  - unfold create_room in Hstep.
    destruct (unique_pin _ _); [|done]. injection Hstep as <- <-. simpl.
    by apply Hjoin.
  - unfold join_room in Hstep.
    destruct (Map_get _ _); [destruct (find _ _)|];
      injection Hstep as <- <-; try by apply Hsame.
    simpl. by apply Hjoin.
  - unfold leave_room in Hstep.
    destruct (Map_get _ _); [destruct (find _ _)|];
      injection Hstep as <- <-; try by apply Hsame.
    simpl. rewrite sockets_in_leave. destruct (decide (_ = r)); [|done].
    by intros [? _]%elem_of_difference.
  - unfold initiate_file_transfer in Hstep.
    destruct (Map_get _ _); [case_decide|];
      injection Hstep as <- <-; by apply Hsame.
  - unfold file_chunk, invalid_transfer in Hstep.
    destruct (Map_get _ _); [|injection Hstep as <- <-; by apply Hsame].
    destruct (negb _); [injection Hstep as <- <-; by apply Hsame|].
    destruct (isLast && _); [destruct (Buffer_concat _)|]; try done;
      injection Hstep as <- <-; by apply Hsame.
  - unfold respond_to_file in Hstep.
    destruct (Map_get _ _); [destruct accept|];
      injection Hstep as <- <-; by apply Hsame.
  - unfold get_room_info in Hstep.
    destruct (Map_get _ _); injection Hstep as <- <-; by apply Hsame.
  - unfold disconnect in Hstep.
    destruct (disconnect_rooms _ _ _) as [rs out1].
    destruct (disconnect_transfers _ _ _) as [ts out2].
    injection Hstep as <- <-. simpl. rewrite sockets_in_leave_all.
    by intros [? _]%elem_of_difference.
  - injection Hstep as <- <-. by apply Hsame.
  - unfold post_api_room in Hstep.
    destruct (unique_pin _ _); [|done]. injection Hstep as <- <-.
    by apply Hsame.
Qed.

Lemma run_group_of_others (es : list event) (s s' : State) out
    (c r : string) :
  run es s = Returned s' out →
  Forall (λ e, actor e ≠ Some c) es →
  c ∈ sockets_in (adapter s') r → c ∈ sockets_in (adapter s) r.
Proof.
  revert s out. induction es as [|e es IH]; intros s out; simpl.
  - by intros [= <- _].
  - destruct (react e s) as [s1 out1| |] eqn:Hstep; [|done..].
    destruct (run es s1) as [s2 out2| |] eqn:Hrun; [|done..].
    intros [= <- _] [He Hes]%Forall_cons Hin.
    eapply react_group_of_others; [exact Hstep | done |].
    by eapply IH.
Qed.

(** A connection that leaves a room it is listed in, or disconnects, is
    out of the room's transport group. *)
Lemma left_room_left_group (c p : string) (s0 s1 : State) out0 :
  ((∃ room, Map_get p (rooms s0) = Some room
            ∧ c ∈ socketId <$> participants room)
   ∧ react (LeaveRoom c p) s0 = Returned s1 out0)
  ∨ react (Disconnect c) s0 = Returned s1 out0 →
  c ∉ sockets_in (adapter s1) p.
Proof.
  intros [[(room & Hroom & Hin) Hstep]|Hstep]; simpl in Hstep.
  - unfold leave_room in Hstep. rewrite Hroom in Hstep.
    destruct (find (is_socket c) (participants room)) eqn:Hfind.
    + injection Hstep as <- <-. simpl.
      rewrite sockets_in_leave, decide_True by done. set_solver.
    + by apply find_is_socket_None in Hfind.
  - unfold disconnect in Hstep.
    destruct (disconnect_rooms _ _ _) as [rs out1].
    destruct (disconnect_transfers _ _ _) as [ts out2].
    injection Hstep as <- <-. simpl. rewrite sockets_in_leave_all. set_solver.
Qed.

(** C3, as the code has it.  The completed file goes out with
    [socket.to(transfer.pin)]: its receivers are the connections that are in
    the transport group of the transfer's room when the last chunk is
    handled, the sender excepted, and among them is every connection then
    listed in that room other than the sender.  The [recipients] list stored
    at initiation plays no part: a connection that has left the room - by
    [leave_room] while listed, or by disconnecting - and has done nothing
    since is not among the receivers, whether or not it is in the list. *)
Theorem file_received_goes_to_current_group (s s' : State)
    (sid transferId : string) (chunkIndex : nat) (chunkData : list byte)
    (isLast : bool) out (t : target) (R : gset string)
    (transferId' name type sender : string) (fileData : list byte) :
  reachable s →
  file_chunk sid transferId chunkIndex chunkData isLast s = Returned s' out →
  Emit t R (file_received transferId' name type fileData sender) ∈ out →
  ∃ transfer,
    Map_get transferId (activeTransfers s) = Some transfer
    ∧ from transfer = sid
    ∧ t = SocketTo sid (pin transfer)
    ∧ R = sockets_in (adapter s) (pin transfer) ∖ {[sid]}
    ∧ (∀ room q,
         Map_get (pin transfer) (rooms s) = Some room →
         q ∈ participants room → socketId q ≠ sid → socketId q ∈ R)
    ∧ ∀ c s0 s1 out0 es out1,
        ((∃ room, Map_get (pin transfer) (rooms s0) = Some room
                  ∧ c ∈ socketId <$> participants room)
         ∧ react (LeaveRoom c (pin transfer)) s0 = Returned s1 out0)
        ∨ react (Disconnect c) s0 = Returned s1 out0 →
        run es s1 = Returned s out1 →
        Forall (λ e, actor e ≠ Some c) es →
        c ∉ R.
Proof.
  intros Hs. unfold file_chunk, invalid_transfer.
  destruct (Map_get transferId (activeTransfers s)) as [transfer|] eqn:Hget.
  2: { intros [= <- <-] Hin%list_elem_of_singleton. discriminate Hin. }
  destruct (bool_decide_reflect (from transfer = sid)) as [Hfrom|Hfrom]; simpl.
  2: { intros [= <- <-] Hin%list_elem_of_singleton. discriminate Hin. }
  destruct (isLast && _).
  2: { intros [= <- <-] Hin%list_elem_of_singleton. discriminate Hin. }
  destruct (Buffer_concat _) as [completeFile|]; [|done].
  intros [= <- <-] Hin. exists transfer.
  rewrite !elem_of_cons in Hin. unfold emit in Hin.
  destruct Hin as [Hin|[Hin|[Hin|Hin%elem_of_nil]]]; try done.
  injection Hin as -> -> _ _ _ _ _. simpl. split_and!; try done.
  - intros room q Hroom Hq Hne.
    destruct (reachable_room_inv s _ room Hs Hroom) as (_ & _ & Hgrp & _).
    apply elem_of_difference. split; [by apply Hgrp|].
    by intros ?%elem_of_singleton.
  - intros c s0 s1 out0 es out1 Hleft Hrun Hothers [Hin _]%elem_of_difference.
    apply (left_room_left_group c (pin transfer) s0 s1 out0 Hleft).
    by eapply run_group_of_others.
Qed.

(** C3 as stated fails: "C" joins after "A" has registered its transfer,
    the snapshot of recipients is ["B"], and the file reaches "B" and "C". *)
Lemma recipients_snapshot_counterexample :
  reachable (after late_join)
  ∧ recipients <$> Map_get "A_20" (activeTransfers (after late_join))
    = Some ["B"]
  ∧ ("C" ∉ (list_to_set ["B"] : gset string))
  ∧ ∃ s',
      file_chunk "A" "A_20" 0 [x01; x02; x03] true (after late_join)
      = Returned s'
          [Emit (Socket "A") {["A"]} (upload_progress "A_20" 1 1);
           Emit (SocketTo "A" "123456") {["B"; "C"]}
             (file_received "A_20" "a.txt" "text/plain" [x01; x02; x03] "A");
           Emit (Socket "A") {["A"]} (transfer_complete "A_20")].
Proof.
  split; [apply reachable_after|]. split; [reflexivity|].
  split; [by vm_compute|]. eexists. reflexivity.
Qed.

Lemma file_received_goes_to_current_group_witness :
  ∃ transfer,
    Map_get "A_20" (activeTransfers (after left_before_completion))
    = Some transfer
    ∧ recipients transfer = ["B"]
    ∧ ({["C"]} : gset string)
      = sockets_in (adapter (after left_before_completion)) (pin transfer)
        ∖ {["A"]}
    ∧ (∀ room q,
         Map_get (pin transfer) (rooms (after left_before_completion))
         = Some room →
         q ∈ participants room → socketId q ≠ "A" →
         socketId q ∈ ({["C"]} : gset string))
    ∧ "B" ∉ ({["C"]} : gset string).
Proof.
  destruct (file_received_goes_to_current_group
              (after left_before_completion) _ "A" "A_20" 0 [x01; x02; x03]
              true _ (SocketTo "A" "123456") {["C"]}
              "A_20" "a.txt" "text/plain" "A" [x01; x02; x03]
              (reachable_after left_before_completion) eq_refl)
    as (transfer & Hget & _ & Hpin & HR & Hlisted & Hleft).
  { apply list_elem_of_further, list_elem_of_here. }
  injection Hpin as Hpin. exists transfer.
  split; [exact Hget|]. split.
  { vm_compute in Hget. by injection Hget as <-. }
  split; [exact HR|]. split; [exact Hlisted|].
  apply (Hleft "B" (after late_join) (after left_before_completion)
           [Emit (SocketTo "B" "123456") {["A"; "C"]} (user_left "B" "bob")]
           [] []).
  - left. rewrite <- Hpin. split; [|reflexivity].
    eexists. split; [reflexivity|].
    apply list_elem_of_further, list_elem_of_here.
  - reflexivity.
  - apply Forall_nil_2.
Defined.

(** ** Disconnect *)

Lemma run_cons_Returned (e : event) (es : list event) (s s1 s2 : State)
    out1 out2 :
  run es s1 = Returned s2 out2 → react e s = Returned s1 out1 →
  run (e :: es) s = Returned s2 (out1 ++ out2).
Proof. intros H2 H1. simpl. by rewrite H1, H2. Qed.

Lemma Map_delete_middle {V} (k : string) (v : V)
    (m1 m2 : list (string * V)) :
  k ∉ Map_keys m1 → k ∉ Map_keys m2 →
  Map_delete k (m1 ++ (k, v) :: m2) = m1 ++ m2.
Proof.
  intros H1 H2. unfold Map_delete.
  rewrite filter_app, filter_cons_False by (simpl; auto).
  fold (Map_delete k m1). fold (Map_delete k m2).
  by rewrite !Map_delete_absent.
Qed.

Lemma Map_keys_middle {V} (k : string) (v : V) (m1 m2 : list (string * V)) :
  NoDup (Map_keys (m1 ++ (k, v) :: m2)) →
  (k ∉ Map_keys m1) ∧ (k ∉ Map_keys m2) ∧ NoDup (Map_keys (m1 ++ m2)).
Proof.
  unfold Map_keys. rewrite !fmap_app, fmap_cons. simpl.
  intros (Hnd1 & Hdisj & [Hk Hnd2]%NoDup_cons)%NoDup_app. split_and!.
  - intros Hin. apply (Hdisj k Hin). apply list_elem_of_here.
  - done.
  - apply NoDup_app. split_and!; [done| |done].
    intros x Hx Hx2. apply (Hdisj x Hx). by apply list_elem_of_further.
Qed.

(** The room loop of [disconnect] does to the registry, and sends, what
    [leave_room] called for each room code in turn does and sends.  [done]
    holds the entries the loop is past. *)
Lemma disconnect_rooms_as_leaves (sid : string)
    (ad0 : gmap string (gset string)) (ts : list (string * Transfer))
    (todo : list (string * Room)) :
  ∀ (done : list (string * Room)) (ad : gmap string (gset string)),
    NoDup (Map_keys (done ++ todo)) →
    (∀ r, sockets_in ad r ∖ {[sid]} = sockets_in ad0 r ∖ {[sid]}) →
    ∃ ad',
      run (LeaveRoom sid <$> Map_keys todo)
        {| rooms := done ++ todo; activeTransfers := ts; adapter := ad |}
      = Returned
          {| rooms :=
               done ++ (disconnect_rooms sid (socket_leave_all sid ad0) todo).1;
             activeTransfers := ts;
             adapter := ad' |}
          (disconnect_rooms sid (socket_leave_all sid ad0) todo).2.
Proof.
  induction todo as [|[p room] rest IH]; intros done ad Hkeys Had.
  - by exists ad.
  - pose proof (Map_keys_middle _ _ _ _ Hkeys) as (Hp1 & Hp2 & Hkeys').
    assert (Hget : Map_get p (done ++ (p, room) :: rest) = Some room).
    { rewrite Map_get_app_r by done. simpl. by rewrite decide_True. }
    assert (Hpast : ∀ r, NoDup (Map_keys ((done ++ [(p, r)]) ++ rest))).
    { intros r. revert Hkeys. unfold Map_keys.
      by rewrite <- app_assoc, !fmap_app, !fmap_cons. }
    unfold Map_keys. rewrite fmap_cons. fold (Map_keys rest).
    cbn [disconnect_rooms fst].
    destruct (disconnect_rooms sid (socket_leave_all sid ad0) rest)
      as [rs out] eqn:Hloop.
    destruct (find (is_socket sid) (participants room)) as [q|] eqn:Hfind.
    + set (room' := without_socket sid q room).
      set (notice := Emit (SocketTo sid p)
                       (sockets_in (socket_leave_all sid ad0) p ∖ {[sid]})
                       (user_left sid (userId q))).
      assert (Hnotice :
        emit (socket_leave sid p ad) (SocketTo sid p)
          (user_left sid (userId q)) = notice).
      { unfold emit, notice, receivers_of. f_equal.
        rewrite sockets_in_leave, decide_True, sockets_in_leave_all by done.
        by rewrite Had. }
      assert (Had' : ∀ r, sockets_in (socket_leave sid p ad) r ∖ {[sid]}
                          = sockets_in ad0 r ∖ {[sid]}).
      { intros r. rewrite sockets_in_leave, <- Had.
        case_decide; [set_solver | done]. }
      assert (Hset : Map_set p room' (done ++ (p, room) :: rest)
                     = done ++ (p, room') :: rest).
      { rewrite Map_set_app_r by done. simpl. by rewrite decide_True. }
      unfold emit, receivers_of. fold notice.
      destruct (decide (length (participants room') = 0)) as [Hempty|Hleft].
      * destruct (IH done (socket_leave sid p ad) Hkeys' Had') as [ad' Hrun].
        cbn [fst snd] in Hrun. exists ad'.
        eapply (run_cons_Returned (LeaveRoom sid p)) with (out1 := [notice])
          in Hrun; [exact Hrun|].
        cbn [react]. unfold leave_room. cbn [rooms adapter].
        rewrite Hget, Hfind. cbv zeta. fold room'.
        rewrite (decide_True (P := length (participants room') = 0)) by done.
        rewrite Hnotice, Hset.
        rewrite Map_delete_middle; [reflexivity | assumption..].
      * destruct (IH (done ++ [(p, room')]) (socket_leave sid p ad))
          as [ad' Hrun]; [done | done |].
        cbn [fst snd] in Hrun. rewrite <- !app_assoc in Hrun. exists ad'.
        eapply (run_cons_Returned (LeaveRoom sid p)) with (out1 := [notice])
          in Hrun; [exact Hrun|].
        cbn [react]. unfold leave_room. cbn [rooms adapter].
        rewrite Hget, Hfind. cbv zeta. fold room'.
        rewrite (decide_False (P := length (participants room') = 0)) by done.
        by rewrite Hnotice, Hset.
    + destruct (IH (done ++ [(p, room)]) ad) as [ad' Hrun];
        [done | done |].
      cbn [fst snd] in Hrun. rewrite <- !app_assoc in Hrun. exists ad'.
      eapply (run_cons_Returned (LeaveRoom sid p)) with (out1 := [])
        in Hrun; [exact Hrun|].
      cbn [react]. unfold leave_room. cbn [rooms adapter].
      by rewrite Hget, Hfind.
Qed.

Lemma disconnect_transfers_filter (sid : string)
    (ad : gmap string (gset string)) (ts : list (string * Transfer)) :
  disconnect_transfers sid ad ts
  = (filter (λ e, from e.2 ≠ sid) ts,
     (λ e, emit ad (IoTo (pin e.2)) (transfer_cancelled e.1))
       <$> filter (λ e, from e.2 = sid) ts).
Proof.
  induction ts as [|[transferId transfer] ts IH]; [done|].
  simpl. rewrite IH, !filter_cons. simpl.
  destruct (decide (from transfer = sid)) as [Heq|Hne].
  - by rewrite decide_False by auto.
  - by rewrite decide_True by auto.
Qed.

Lemma disconnect_rooms_unlisted (sid : string)
    (ad : gmap string (gset string)) (entries : list (string * Room))
    (p : string) (room : Room) :
  (p, room) ∈ (disconnect_rooms sid ad entries).1 →
  sid ∉ socketId <$> participants room.
Proof.
  intros (room0 & _ & [[Hfind ->]|(q & _ & -> & _)])%disconnect_rooms_elem.
  - by apply find_is_socket_None.
  - apply find_is_socket_None, find_is_socket_filter.
Qed.

Lemma disconnect_rooms_out (sid : string) (ad : gmap string (gset string))
    (entries : list (string * Room)) :
  Forall (λ e, ∃ p R uid, e = Emit (SocketTo sid p) R (user_left sid uid))
    (disconnect_rooms sid ad entries).2.
Proof.
  induction entries as [|[p room] rest IH]; simpl; [done|].
  destruct (disconnect_rooms sid ad rest) as [rs out].
  destruct (find (is_socket sid) (participants room)) as [q|]; [|done].
  destruct (decide (length _ = 0)); simpl; apply Forall_cons;
    (split; [by eexists _, _, _ | done]).
Qed.

(** C6.  [disconnect] of a connection does, in this order:
    - to the room registry what [leave_room] by that connection does when
      called for every room code in turn, sending the same [user_left]
      messages, after which no room lists the connection;
    - then deletes every transfer whose sender is the connection and sends
      [transfer_cancelled] for each to the group of that transfer's room.
    All [user_left] messages precede all [transfer_cancelled] ones. *)
Theorem disconnect_rooms_then_transfers (s : State) (sid : string) :
  reachable s →
  ∃ s_left out_left,
    run (LeaveRoom sid <$> Map_keys (rooms s)) s = Returned s_left out_left
    ∧ disconnect sid s
      = Returned
          {| rooms := rooms s_left;
             activeTransfers :=
               filter (λ e, from e.2 ≠ sid) (activeTransfers s);
             adapter := socket_leave_all sid (adapter s) |}
          (out_left
           ++ ((λ e, Emit (IoTo (pin e.2))
                       (sockets_in (adapter s) (pin e.2) ∖ {[sid]})
                       (transfer_cancelled e.1))
                 <$> filter (λ e, from e.2 = sid) (activeTransfers s)))
    ∧ Forall (λ e, ∃ p R uid, e = Emit (SocketTo sid p) R (user_left sid uid))
        out_left
    ∧ ∀ p room, Map_get p (rooms s_left) = Some room →
                sid ∉ socketId <$> participants room.
Proof.
  intros [Hkeys _]%reachable_inv. destruct s as [rs ts ad]. simpl in *.
  destruct (disconnect_rooms_as_leaves sid ad ts rs [] ad Hkeys)
    as [ad' Hrun]; [done|].
  simpl in Hrun. eexists _, _. split; [exact Hrun|].
  unfold disconnect. simpl.
  pose proof (disconnect_rooms_out sid (socket_leave_all sid ad) rs) as Hout.
  pose proof (disconnect_rooms_unlisted sid (socket_leave_all sid ad) rs)
    as Hgone.
  destruct (disconnect_rooms sid (socket_leave_all sid ad) rs) as [rs' out].
  rewrite disconnect_transfers_filter. simpl in *. split_and!.
  - do 2 f_equal. apply list_fmap_ext. intros _ [transferId transfer] _.
    unfold emit. simpl. by rewrite sockets_in_leave_all.
  - done.
  - intros p room Hin%Map_get_elem_of. by eapply Hgone.
Qed.

Lemma disconnect_rooms_then_transfers_witness :
  ∃ s_left,
    run [LeaveRoom "A" "123456"] (after transfer_started)
    = Returned s_left
        [Emit (SocketTo "A" "123456") {["B"]} (user_left "A" "alice")]
    ∧ disconnect "A" (after transfer_started)
      = Returned
          {| rooms := rooms s_left;
             activeTransfers := [];
             adapter :=
               socket_leave_all "A" (adapter (after transfer_started)) |}
          [Emit (SocketTo "A" "123456") {["B"]} (user_left "A" "alice");
           Emit (IoTo "123456") {["B"]} (transfer_cancelled "A_20")].
Proof.
  destruct (disconnect_rooms_then_transfers (after transfer_started) "A"
              (reachable_after transfer_started))
    as (s_left & out_left & Hrun & Hdisconnect & _).
  exists s_left.
  assert (Hout : out_left
                 = [Emit (SocketTo "A" "123456") {["B"]}
                      (user_left "A" "alice")]).
  { vm_compute in Hrun. by injection Hrun as _ <-. }
  subst out_left. split; [exact Hrun | exact Hdisconnect].
Defined.

(** ** Reassembly of a file from its chunks *)

Section Array_facts.
Context {A : Type}.
Implicit Types (a : list (option A)) (i j : nat) (v : A).

Lemma Array_set_length a i v :
  length (Array_set a i v) = length a `max` S i.
Proof.
  unfold Array_set. case_decide.
  - rewrite length_insert. lia.
  - rewrite !length_app, length_replicate. simpl. lia.
Qed.

Lemma Array_set_lookup_eq a i v : Array_set a i v !! i = Some (Some v).
Proof.
  unfold Array_set. case_decide.
  - by apply list_lookup_insert_eq.
  - rewrite lookup_app_r by lia.
    rewrite lookup_app_r by (rewrite length_replicate; lia).
    rewrite length_replicate.
    by replace (i - length a - (i - length a)) with 0 by lia.
Qed.

(** Reading another index gives what was there, a hole read as absent. *)
Lemma Array_set_lookup_ne a i j v :
  i ≠ j → mjoin (Array_set a i v !! j) = mjoin (a !! j).
Proof.
  intros Hne. unfold Array_set. case_decide.
  - by rewrite list_lookup_insert_ne.
  - destruct (decide (j < length a)) as [Hlt|Hge].
    + by rewrite lookup_app_l.
    + rewrite lookup_app_r, (lookup_ge_None_2 a j) by lia. simpl.
      destruct (decide (j - length a < i - length a)) as [Hin|Hout].
      * rewrite lookup_app_l by (rewrite length_replicate; lia).
        by rewrite lookup_replicate_2.
      * rewrite lookup_app_r by (rewrite length_replicate; lia).
        rewrite length_replicate.
        by rewrite lookup_ge_None_2 by (simpl; lia).
Qed.
End Array_facts.

Lemma store_all_length (payloads : list (list byte)) (order : list nat)
    (cs : list (option (list byte))) (M : nat) :
  Forall (λ i, i < M) order →
  (length (store_all payloads order cs) ≤ length cs `max` M)%nat.
Proof.
  unfold store_all. revert cs.
  induction order as [|i order IH]; intros cs Hlt; simpl; [lia|].
  apply Forall_cons in Hlt as [Hi Hlt].
  etrans; [by apply IH|]. rewrite Array_set_length. lia.
Qed.

Lemma store_all_lookup (payloads : list (list byte)) (order : list nat)
    (cs : list (option (list byte))) (j : nat) :
  mjoin (store_all payloads order cs !! j)
  = if decide (j ∈ order) then Some (nth j payloads [])
    else mjoin (cs !! j).
Proof.
  unfold store_all. revert cs.
  induction order as [|i order IH]; intros cs; cbn [foldl].
  - case_decide as Hin; [by apply elem_of_nil in Hin | done].
  - rewrite IH.
    destruct (decide (j ∈ order)) as [Hin|Hnot];
      destruct (decide (j ∈ i :: order)) as [Hin'|Hnot'].
    + done.
    + exfalso. by apply Hnot', list_elem_of_further.
    + apply elem_of_cons in Hin' as [->|?]; [|done].
      by rewrite Array_set_lookup_eq.
    + apply Array_set_lookup_ne. intros ->. apply Hnot', list_elem_of_here.
Qed.

(** Chunks [0..M-1] written into an empty array in any order leave the
    array without holes, the chunks in index order. *)
Lemma store_all_permutation (payloads : list (list byte)) (order : list nat)
    (M : nat) :
  order ≡ₚ seq 0 M → (M ≤ length payloads)%nat →
  store_all payloads order [] = Some <$> take M payloads.
Proof.
  intros Hperm HM.
  assert (Hin : ∀ j, j ∈ order ↔ j < M).
  { intros j. rewrite Hperm, elem_of_seq. lia. }
  assert (Hlen : (length (store_all payloads order []) ≤ M)%nat).
  { etrans; [apply (store_all_length _ _ _ M)|simpl; lia].
    apply Forall_forall. intros j. by rewrite Hin. }
  apply list_eq. intros j.
  pose proof (store_all_lookup payloads order [] j) as Hj.
  rewrite list_lookup_fmap. destruct (decide (j < M)) as [Hlt|Hge].
  - rewrite decide_True in Hj by by apply Hin.
    rewrite lookup_take_lt by done.
    destruct (nth_lookup_or_length payloads j []) as [->|?]; [|lia]. simpl.
    by destruct (store_all payloads order [] !! j) as [[c|]|];
      simplify_eq/=.
  - rewrite lookup_ge_None_2 by lia.
    by rewrite lookup_ge_None_2 by (rewrite length_take; lia).
Qed.

Lemma Array_defined_count_Some {A} (l : list A) :
  Array_defined_count (Some <$> l) = length l.
Proof.
  unfold Array_defined_count. induction l as [|x l IH]; [done|].
  rewrite fmap_cons. simpl. by f_equal.
Qed.

Lemma Buffer_concat_Some (payloads : list (list byte)) :
  Buffer_concat (Some <$> payloads) = Some (concat payloads).
Proof.
  induction payloads as [|c payloads IH]; [done|].
  rewrite fmap_cons. cbn [Buffer_concat concat]. by rewrite IH.
Qed.

Lemma Map_delete_set {V} (k : string) (v : V) (m : list (string * V)) :
  Map_delete k (Map_set k v m) = Map_delete k m.
Proof.
  unfold Map_delete. induction m as [|[k' v'] m IH]; simpl.
  - by rewrite filter_cons_False by (simpl; auto).
  - destruct (decide (k' = k)) as [->|Hne].
    + by rewrite !filter_cons_False by (simpl; auto).
    + rewrite !filter_cons_True by done. by f_equal.
Qed.

Lemma Array_set_append_last (payloads : list (list byte)) :
  payloads ≠ [] →
  Array_set (Some <$> take (length payloads - 1) payloads)
    (length payloads - 1) (nth (length payloads - 1) payloads [])
  = Some <$> payloads.
Proof.
  intros Hne. assert (length payloads ≠ 0) as Hlen by by destruct payloads.
  unfold Array_set. rewrite length_fmap, length_take.
  rewrite decide_False by lia.
  replace (length payloads - 1 - _) with 0 by lia. simpl.
  destruct (nth_lookup_or_length payloads (length payloads - 1) [])
    as [Hlast|?]; [|lia].
  assert (Hsplit : take (length payloads - 1) payloads
                   ++ [nth (length payloads - 1) payloads []] = payloads).
  { rewrite <- (take_S_r _ _ _ Hlast). apply take_ge. lia. }
  transitivity (Some <$> (take (length payloads - 1) payloads
                          ++ [nth (length payloads - 1) payloads []])).
  - by rewrite fmap_app.
  - by rewrite Hsplit.
Qed.

Lemma run_app_Returned (es es' : list event) (s s1 s2 : State) out1 out2 :
  run es s = Returned s1 out1 → run es' s1 = Returned s2 out2 →
  run (es ++ es') s = Returned s2 (out1 ++ out2).
Proof.
  revert s out1. induction es as [|e es IH]; intros s out1; simpl.
  - by intros [= <- <-].
  - destruct (react e s) as [s3 out3| |]; [|done..].
    destruct (run es s3) as [s4 out4| |] eqn:Hrest; [|done..].
    intros [= <- <-] Hrun'. rewrite (IH s3 out4 Hrest Hrun').
    by rewrite app_assoc.
Qed.

(** Chunks that are not flagged [isLast] are stored, reported as progress
    to the sender, and never complete the transfer. *)
Lemma unflagged_chunks_run (sid transferId : string)
    (payloads : list (list byte)) (order : list nat) :
  ∀ (s : State) (transfer : Transfer),
    Map_get transferId (activeTransfers s) = Some transfer →
    from transfer = sid →
    ∃ s' out,
      run (unflagged_chunks sid transferId payloads order) s = Returned s' out
      ∧ rooms s' = rooms s
      ∧ adapter s' = adapter s
      ∧ Map_get transferId (activeTransfers s')
        = Some (with_chunks transfer
                  (store_all payloads order (chunks transfer))
                  (totalChunks transfer))
      ∧ Map_delete transferId (activeTransfers s')
        = Map_delete transferId (activeTransfers s)
      ∧ Forall (λ e, ∃ r d, e = Emit (Socket sid) {[sid]}
                                  (upload_progress transferId r d)) out.
Proof.
  induction order as [|i order IH]; intros s transfer Hget Hfrom.
  - exists s, []. split_and!; try done. by destruct transfer.
  - set (transfer' :=
           with_chunks transfer
             (Array_set (chunks transfer) i (nth i payloads []))
             (totalChunks transfer)).
    set (s1 := set_activeTransfers
                 (Map_set transferId transfer' (activeTransfers s)) s).
    destruct (IH s1 transfer') as (s' & out & Hrun & Hr & Had & Ht & Hd & Ho);
      [apply Map_get_set_eq | done |].
    eexists s', (_ :: out). split_and!.
    + unfold unflagged_chunks. rewrite fmap_cons.
      eapply (run_cons_Returned _ _ s s1 s' [_] out); [exact Hrun|].
      cbn [react]. unfold file_chunk. rewrite Hget.
      by rewrite bool_decide_eq_true_2.
    + done.
    + done.
    + by rewrite Ht.
    + rewrite Hd. apply Map_delete_set.
    + apply Forall_cons. split; [by eexists _, _ | done].
Qed.

(** Once chunks [0..N-2] are in, the flagged chunk [N-1] completes the
    transfer. *)
Lemma flagged_chunk_after_unflagged (s : State) (sid transferId : string)
    (transfer : Transfer) (payloads : list (list byte)) (order : list nat) :
  Map_get transferId (activeTransfers s) = Some transfer →
  from transfer = sid →
  chunks transfer = [] →
  payloads ≠ [] →
  order ≡ₚ seq 0 (length payloads - 1) →
  ∃ s1 out,
    run (unflagged_chunks sid transferId payloads order) s = Returned s1 out
    ∧ Forall (λ e, ∃ r d, e = Emit (Socket sid) {[sid]}
                                (upload_progress transferId r d)) out
    ∧ file_chunk sid transferId (length payloads - 1)
        (nth (length payloads - 1) payloads []) true s1
      = Returned
          (set_activeTransfers (Map_delete transferId (activeTransfers s)) s)
          [Emit (Socket sid) {[sid]}
             (upload_progress transferId (length payloads) (length payloads));
           Emit (SocketTo sid (pin transfer))
             (sockets_in (adapter s) (pin transfer) ∖ {[sid]})
             (file_received transferId (fileName transfer)
                (fileType transfer) (concat payloads) sid);
           Emit (Socket sid) {[sid]} (transfer_complete transferId)].
Proof.
  intros Hget Hfrom Hfresh Hne Hperm.
  destruct (unflagged_chunks_run sid transferId payloads order s transfer)
    as (s1 & out & Hrun & Hr & Had & Ht & Hd & Ho); [done..|].
  exists s1, out. split; [done|]. split; [done|].
  rewrite Hfresh in Ht.
  rewrite (store_all_permutation _ _ (length payloads - 1)) in Ht;
    [|done|lia].
  assert (length payloads ≠ 0) as Hlen by by destruct payloads.
  unfold file_chunk. rewrite Ht. cbn [from chunks with_chunks pin
    fileName fileType totalChunks].
  rewrite bool_decide_eq_true_2 by done. cbn [negb].
  rewrite Array_set_append_last by done.
  rewrite Array_defined_count_Some, Buffer_concat_Some.
  replace (length payloads - 1 + 1) with (length payloads) by lia.
  rewrite bool_decide_eq_true_2 by done. cbn [andb].
  rewrite decide_False by done.
  rewrite Map_delete_set, Hd. unfold emit, receivers_of. rewrite Had.
  destruct s, s1. simpl in *. by subst.
Qed.

(** The part of C1 the code delivers.  A fresh transfer whose sender submits
    chunks [0..N-2] unflagged, each once and in any order, and then chunk
    [N-1] flagged [isLast], completes: the room's group, the sender
    excepted, is sent [file_received] with the payloads concatenated in
    index order, the sender is sent [transfer_complete], and the record is
    deleted. *)
Theorem file_chunk_flagged_last_completes (s : State)
    (sid transferId : string) (transfer : Transfer)
    (payloads : list (list byte)) (order : list nat) :
  Map_get transferId (activeTransfers s) = Some transfer →
  from transfer = sid →
  chunks transfer = [] →
  payloads ≠ [] →
  order ≡ₚ seq 0 (length payloads - 1) →
  ∃ progress,
    run (unflagged_chunks sid transferId payloads order
         ++ [FileChunk sid transferId (length payloads - 1)
               (nth (length payloads - 1) payloads []) true]) s
    = Returned
        (set_activeTransfers (Map_delete transferId (activeTransfers s)) s)
        (progress
         ++ [Emit (SocketTo sid (pin transfer))
               (sockets_in (adapter s) (pin transfer) ∖ {[sid]})
               (file_received transferId (fileName transfer)
                  (fileType transfer) (concat payloads) sid);
             Emit (Socket sid) {[sid]} (transfer_complete transferId)])
    ∧ Forall (λ e, ∃ r d, e = Emit (Socket sid) {[sid]}
                                (upload_progress transferId r d)) progress.
Proof.
  intros Hget Hfrom Hfresh Hne Hperm.
  destruct (flagged_chunk_after_unflagged s sid transferId transfer payloads
              order) as (s1 & out & Hrun & Ho & Hlast); [done..|].
  exists (out ++ [Emit (Socket sid) {[sid]}
                    (upload_progress transferId (length payloads)
                       (length payloads))]).
  split.
  - rewrite <- app_assoc. eapply run_app_Returned; [exact Hrun|].
    simpl. by rewrite Hlast.
  - apply Forall_app. split; [done|].
    apply Forall_singleton. by eexists _, _.
Qed.

Lemma file_chunk_flagged_last_completes_witness :
  ∃ progress,
    run [FileChunk "A" "A_20" 1 [x03] false;
         FileChunk "A" "A_20" 0 [x01; x02] false;
         FileChunk "A" "A_20" 2 [x04] true] one_transfer
    = Returned
        (set_activeTransfers
           (Map_delete "A_20" (activeTransfers one_transfer)) one_transfer)
        (progress
         ++ [Emit (SocketTo "A" "123456") {["B"]}
               (file_received "A_20" "a.txt" "text/plain"
                  [x01; x02; x03; x04] "A");
             Emit (Socket "A") {["A"]} (transfer_complete "A_20")])
    ∧ Forall (λ e, ∃ r d, e = Emit (Socket "A") {["A"]}
                                (upload_progress "A_20" r d)) progress.
Proof.
  apply (file_chunk_flagged_last_completes one_transfer "A" "A_20"
           one_transfer_record [[x01; x02]; [x03]; [x04]] [1; 0]).
  - reflexivity.
  - reflexivity.
  - reflexivity.
  - discriminate.
  - apply perm_swap.
Defined.

Lemma Array_defined_count_holes {A} (n : nat) (v : A) :
  Array_defined_count (replicate n None ++ [Some v]) = 1.
Proof.
  unfold Array_defined_count. induction n as [|n IH]; [done | exact IH].
Qed.

(** Chunk [N-1] written first and chunks [0..N-2] after it, in any order,
    fill the array just the same. *)
Lemma store_all_after_last (payloads : list (list byte)) (order : list nat) :
  payloads ≠ [] →
  order ≡ₚ seq 0 (length payloads - 1) →
  store_all payloads order
    (Array_set [] (length payloads - 1)
       (nth (length payloads - 1) payloads []))
  = Some <$> payloads.
Proof.
  intros Hne Hperm.
  assert (length payloads ≠ 0) as Hlen0 by by destruct payloads.
  set (cs0 := Array_set [] (length payloads - 1)
                (nth (length payloads - 1) payloads [])).
  assert (Hin : ∀ j, j ∈ order ↔ j < length payloads - 1).
  { intros j. rewrite Hperm, elem_of_seq. lia. }
  assert (Hlen : (length (store_all payloads order cs0) ≤ length payloads)%nat).
  { etrans; [apply (store_all_length _ _ _ (length payloads - 1))|].
    - apply Forall_forall. intros j. by rewrite Hin.
    - unfold cs0. rewrite Array_set_length. simpl. lia. }
  apply list_eq. intros j.
  pose proof (store_all_lookup payloads order cs0 j) as Hj.
  rewrite list_lookup_fmap.
  destruct (decide (j < length payloads)) as [Hlt|Hge].
  - destruct (nth_lookup_or_length payloads j []) as [->|?]; [|lia]. simpl.
    assert (mjoin (store_all payloads order cs0 !! j)
            = Some (nth j payloads [])) as Hstored.
    { rewrite Hj. case_decide as Hjo; [done|].
      rewrite Hin in Hjo. replace j with (length payloads - 1) by lia.
      unfold cs0. by rewrite Array_set_lookup_eq. }
    by destruct (store_all payloads order cs0 !! j) as [[c|]|];
      simplify_eq/=.
  - rewrite lookup_ge_None_2 by lia. by rewrite lookup_ge_None_2 by lia.
Qed.

(** C1 on the code, where the claim fails.  The sender of a fresh transfer
    of N >= 2 chunks submits chunk [N-1], flagged [isLast], first and then
    chunks [0..N-2], each once, in any order.  Every chunk is stored - the
    record ends up holding all N payloads in index order, with total N -
    but the run sends nothing except [upload_progress] to the sender: no
    [file_received], no [transfer_complete], and the record stays
    registered when the last of the chunks has been handled. *)
Theorem file_chunk_flagged_first_does_not_complete (s : State)
    (sid transferId : string) (transfer : Transfer)
    (payloads : list (list byte)) (order : list nat) :
  Map_get transferId (activeTransfers s) = Some transfer →
  from transfer = sid →
  chunks transfer = [] →
  (2 ≤ length payloads)%nat →
  order ≡ₚ seq 0 (length payloads - 1) →
  ∃ s' out,
    run (FileChunk sid transferId (length payloads - 1)
           (nth (length payloads - 1) payloads []) true
         :: unflagged_chunks sid transferId payloads order) s
    = Returned s' out
    ∧ Map_get transferId (activeTransfers s')
      = Some (with_chunks transfer (Some <$> payloads) (length payloads))
    ∧ Forall (λ e, ∃ r d, e = Emit (Socket sid) {[sid]}
                                (upload_progress transferId r d)) out.
Proof.
  intros Hget Hfrom Hfresh Hlen Hperm.
  assert (payloads ≠ []) as Hne.
  { destruct payloads; [simpl in Hlen; lia | done]. }
  set (cs0 := Array_set [] (length payloads - 1)
                (nth (length payloads - 1) payloads [])).
  set (transfer1 := with_chunks transfer cs0 (length payloads)).
  set (s1 := set_activeTransfers
               (Map_set transferId transfer1 (activeTransfers s)) s).
  assert (Hfirst :
    file_chunk sid transferId (length payloads - 1)
      (nth (length payloads - 1) payloads []) true s
    = Returned s1
        [Emit (Socket sid) {[sid]}
           (upload_progress transferId 1 (length payloads))]).
  { unfold file_chunk. rewrite Hget, Hfresh.
    rewrite bool_decide_eq_true_2 by done. cbn [negb]. fold cs0.
    replace (length payloads - 1 + 1) with (length payloads) by lia.
    assert (Array_defined_count cs0 = 1) as ->.
    { unfold cs0, Array_set. simpl. apply Array_defined_count_holes. }
    rewrite bool_decide_eq_false_2 by lia. cbn [andb].
    by rewrite decide_False by lia. }
  destruct (unflagged_chunks_run sid transferId payloads order s1 transfer1)
    as (s' & out & Hrun & _ & _ & Ht & _ & Ho);
    [apply Map_get_set_eq | done |].
  exists s', (Emit (Socket sid) {[sid]}
                (upload_progress transferId 1 (length payloads)) :: out).
  split_and!.
  - by apply (run_cons_Returned _ _ s s1 s' [_] out).
  - rewrite Ht. cbn [chunks totalChunks transfer1 with_chunks].
    by rewrite store_all_after_last.
  - apply Forall_cons. split; [by eexists _, _ | done].
Qed.

Lemma file_chunk_flagged_first_does_not_complete_witness :
  ∃ s',
    run [FileChunk "A" "A_20" 1 [x03] true;
         FileChunk "A" "A_20" 0 [x01; x02] false] (after transfer_started)
    = Returned s'
        [Emit (Socket "A") {["A"]} (upload_progress "A_20" 1 2);
         Emit (Socket "A") {["A"]} (upload_progress "A_20" 2 2)]
    ∧ Map_get "A_20" (activeTransfers s')
      = Some (with_chunks one_transfer_record
                [Some [x01; x02]; Some [x03]] 2).
Proof.
  destruct (file_chunk_flagged_first_does_not_complete (after transfer_started)
              "A" "A_20" one_transfer_record [[x01; x02]; [x03]] [0])
    as (s' & out & Hrun & Hrecord & _).
  - reflexivity.
  - reflexivity.
  - reflexivity.
  - simpl. lia.
  - reflexivity.
  - exists s'. split; [|exact Hrecord].
    assert (out = [Emit (Socket "A") {["A"]} (upload_progress "A_20" 1 2);
                   Emit (Socket "A") {["A"]} (upload_progress "A_20" 2 2)])
      as <-; [|exact Hrun].
    vm_compute in Hrun. by injection Hrun as _ <-.
Defined.

(** ** The concrete states *)

(** The hand-written state is the one the events lead to. *)
Example one_transfer_reachable : after transfer_started = one_transfer.
Proof. by vm_compute. Qed.

(** A flagged chunk that makes the count match the total while the array
    still has a hole ends the reaction in the [TypeError] of
    [Buffer.concat]: chunk 5 unflagged, then chunk 1 flagged. *)
Example file_chunk_hole_throws :
  ∃ s' s'' out,
    file_chunk "A" "A_20" 5 [x06] false one_transfer
    = Returned s' [Emit (Socket "A") {["A"]} (upload_progress "A_20" 1 1)]
    ∧ file_chunk "A" "A_20" 1 [x02] true s' = Threw s'' out.
Proof. eexists _, _, _. split; reflexivity. Qed.

(** * Further properties of the room registry *)

(** ** Generating a code *)

(** The retry loop of [create_room] and [POST /api/room] returns the first
    draw whose code no live room holds; it goes on for ever only if every
    draw is taken. *)
Theorem unique_pin_first_free (draws : list N) (rs : list (string * Room)) :
  match unique_pin draws rs with
  | Some p =>
      ∃ taken d rest,
        draws = taken ++ d :: rest
        ∧ Forall (λ x, Map_has (generatePIN x) rs = true) taken
        ∧ Map_has (generatePIN d) rs = false
        ∧ p = generatePIN d
  | None => Forall (λ x, Map_has (generatePIN x) rs = true) draws
  end.
Proof.
  induction draws as [|d draws IH]; simpl; [done|].
  destruct (Map_has (generatePIN d) rs) eqn:Hhas.
  - destruct (unique_pin draws rs) as [p|].
    + destruct IH as (taken & d' & rest & -> & Htaken & Hfree & ->).
      exists (d :: taken), d', rest. split_and!; try done.
      by apply Forall_cons.
    + by apply Forall_cons.
  - by exists [], d, draws.
Qed.

Lemma pretty_N_char_digit (x : N) : is_digit (pretty_N_char x) = true.
Proof. unfold pretty_N_char. by repeat case_match. Qed.

(** A draw in the range of [Math.floor(100000 + Math.random() * 900000)]
    gives a code of six decimal digits, and different draws give different
    codes. *)
Theorem generatePIN_six_digits (d d' : N) :
  (100000 ≤ d ≤ 999999)%N →
  String.length (generatePIN d) = 6
  ∧ String_forall is_digit (generatePIN d) = true
  ∧ (generatePIN d = generatePIN d' → d = d').
Proof.
  intros Hd. unfold generatePIN.
  split_and!; [| |by intros ?%(inj pretty)].
  all: unfold pretty at 1, pretty_N; rewrite decide_False by lia.
  all: rewrite pretty_N_go_step by lia.
  all: rewrite pretty_N_go_step by (apply N.div_str_pos; lia).
  all: rewrite !N.Div0.div_div.
  all: rewrite 4!pretty_N_go_step
         by (rewrite ?N.Div0.div_div; apply N.div_str_pos; lia).
  all: rewrite !N.Div0.div_div.
  all: replace (d `div` _)%N with 0%N
         by (symmetry; apply N.div_small; lia).
  all: rewrite pretty_N_go_0; simpl; by rewrite ?pretty_N_char_digit.
Qed.

Lemma generatePIN_six_digits_witness :
  String.length (generatePIN 483920) = 6
  ∧ String_forall is_digit (generatePIN 483920) = true
  ∧ (generatePIN 483920 = generatePIN 483921 → 483920%N = 483921%N).
Proof. apply generatePIN_six_digits. lia. Defined.

(** ** Creating a room *)


Lemma Map_set_set {V} (k : string) (v v' : V) (m : list (string * V)) :
  Map_set k v (Map_set k v' m) = Map_set k v m.
Proof.
  induction m as [|[k0 v0] m IH]; simpl.
  - by rewrite decide_True.
  - destruct (decide (k0 = k)) as [->|Hne]; simpl.
    + by rewrite decide_True.
    + rewrite decide_False by done. by f_equal.
Qed.

Lemma Map_set_id {V} (k : string) (v : V) (m : list (string * V)) :
  Map_get k m = Some v → Map_set k v m = m.
Proof.
  induction m as [|[k' v'] m IH]; simpl; [done|].
  destruct (decide (k' = k)) as [->|Hne].
  - by intros [= ->].
  - intros Hget. by rewrite IH.
Qed.



(** ** The sweep *)

Lemma Map_get_filter {V} (P : string * V → Prop) `{∀ e, Decision (P e)}
    (k : string) (m : list (string * V)) :
  NoDup (Map_keys m) →
  Map_get k (filter P m)
  = match Map_get k m with
    | Some v => if decide (P (k, v)) then Some v else None
    | None => None
    end.
Proof.
  intros Hnd. destruct (Map_get k (filter P m)) as [v|] eqn:Hf.
  - pose proof (Map_get_elem_of _ _ _ Hf) as [HP _]%list_elem_of_filter.
    apply Map_get_filter_Some in Hf; [|done]. rewrite Hf.
    by rewrite decide_True.
  - destruct (Map_get k m) as [v|] eqn:Hm; [|done].
    case_decide as HP; [|done].
    apply Map_get_None in Hf. exfalso. apply Hf.
    apply (list_elem_of_fmap_2 fst _ (k, v)), list_elem_of_filter.
    split; [done | by apply Map_get_elem_of].
Qed.

Lemma cleanupExpiredRooms_get (now : Z) (s : State) (p : string) :
  NoDup (Map_keys (rooms s)) →
  Map_get p
    (filter (λ e, ¬ (createdAt e.2 < now - 60 * 60 * 1000)%Z) (rooms s))
  = match Map_get p (rooms s) with
    | Some room =>
        if decide (createdAt room < now - 3600000)%Z then None
        else Some room
    | None => None
    end.
Proof.
  intros Hkeys. rewrite Map_get_filter by done.
  destruct (Map_get p (rooms s)) as [room|]; [|done]. simpl.
  change (60 * 60 * 1000)%Z with 3600000%Z.
  destruct (decide (createdAt room < now - 3600000)%Z).
  - by rewrite decide_False by auto.
  - by rewrite decide_True.
Qed.

(** [cleanupExpiredRooms] deletes exactly the rooms created more than an
    hour before the clock reading, whoever is in them; it keeps every other
    room as it is, leaves the transfers and the transport groups alone and
    sends nothing. *)
Theorem cleanupExpiredRooms_lookup (now : Z) (s : State) :
  reachable s →
  ∃ s',
    cleanupExpiredRooms now s = Returned s' []
    ∧ activeTransfers s' = activeTransfers s
    ∧ adapter s' = adapter s
    ∧ ∀ p,
        Map_get p (rooms s')
        = match Map_get p (rooms s) with
          | Some room =>
              if decide (createdAt room < now - 3600000)%Z then None
              else Some room
          | None => None
          end.
Proof.
  intros [Hkeys _]%reachable_inv. eexists. split; [reflexivity|].
  split_and!; try done. intros p. by apply cleanupExpiredRooms_get.
Qed.

Lemma cleanupExpiredRooms_lookup_witness :
  ∃ s',
    cleanupExpiredRooms 3600011 (after transfer_started) = Returned s' []
    ∧ activeTransfers s' = activeTransfers (after transfer_started)
    ∧ adapter s' = adapter (after transfer_started)
    ∧ Map_get "123456" (rooms s') = None.
Proof.
  destruct (cleanupExpiredRooms_lookup 3600011 (after transfer_started)
              (reachable_after transfer_started))
    as (s' & Hsweep & Hts & Had & Hget).
  exists s'. split_and!; [done..|]. by rewrite Hget.
Defined.

(** The sweep takes a room's members out of the registry, not out of the
    room's transport group: a connection listed in a room the sweep deletes
    is still in the group of that code afterwards, so it keeps receiving
    what is broadcast to the code. *)
Theorem cleanupExpiredRooms_keeps_group (now : Z) (s : State) (p : string)
    (room : Room) (q : Participant) :
  reachable s →
  Map_get p (rooms s) = Some room →
  (createdAt room < now - 3600000)%Z →
  q ∈ participants room →
  ∃ s',
    cleanupExpiredRooms now s = Returned s' []
    ∧ Map_get p (rooms s') = None
    ∧ socketId q ∈ sockets_in (adapter s') p.
Proof.
  intros Hs Hroom Hold Hq. destruct (reachable_inv s Hs) as [Hkeys _].
  eexists. split; [reflexivity|]. split.
  - simpl. by rewrite cleanupExpiredRooms_get, Hroom, decide_True.
  - destruct (reachable_room_inv s p room Hs Hroom) as (_ & _ & Hgrp & _).
    by apply Hgrp.
Qed.

Lemma cleanupExpiredRooms_keeps_group_witness :
  ∃ s',
    cleanupExpiredRooms 3600011 (after transfer_started) = Returned s' []
    ∧ Map_get "123456" (rooms s') = None
    ∧ "B" ∈ sockets_in (adapter s') "123456".
Proof.
  apply (cleanupExpiredRooms_keeps_group 3600011 (after transfer_started)
           "123456" two_member_room {| socketId := "B"; userId := "bob" |}
           (reachable_after transfer_started)).
  - reflexivity.
  - reflexivity.
  - apply list_elem_of_further, list_elem_of_here.
Defined.

(** ** Joining and leaving again *)

Lemma find_is_socket_new (sid uid : string) (ps : list Participant) :
  sid ∉ socketId <$> ps →
  find (is_socket sid) (ps ++ [{| socketId := sid; userId := uid |}])
  = Some {| socketId := sid; userId := uid |}.
Proof.
  induction ps as [|q ps IH]; simpl.
  - intros _. unfold is_socket. simpl. by rewrite bool_decide_eq_true_2.
  - rewrite not_elem_of_cons. intros [Hne Hnot]. unfold is_socket at 1.
    rewrite bool_decide_eq_false_2 by done. by apply IH.
Qed.

Lemma filter_out_new (sid uid : string) (ps : list Participant) :
  sid ∉ socketId <$> ps →
  filter (λ q, socketId q ≠ sid)
    (ps ++ [{| socketId := sid; userId := uid |}]) = ps.
Proof.
  intros Hnot. rewrite filter_app, filter_cons_False by (simpl; auto).
  rewrite filter_nil, app_nil_r.
  induction ps as [|q ps IH]; [done|].
  rewrite fmap_cons, not_elem_of_cons in Hnot. destruct Hnot as [Hne Hnot].
  rewrite filter_cons_True by done. f_equal. by apply IH.
Qed.

(** What [leave_room] makes of the room [join_room] made: the participants
    and the users the room had before. *)
Lemma without_socket_new (sid uid : string)
    (ad : gmap string (gset string)) (p : string) (room : Room) :
  room_inv ad p room →
  sid ∉ socketId <$> participants room →
  without_socket sid {| socketId := sid; userId := uid |}
    (with_members room
       (participants room ++ [{| socketId := sid; userId := uid |}])
       ({[uid]} ∪ uniqueUsers room))
  = room.
Proof.
  intros (_ & Huu & _) Hnot. unfold without_socket. simpl.
  rewrite filter_out_new by done.
  destruct room as [c cu ps us t]. unfold with_members. simpl in *. f_equal.
  destruct (existsb _ ps) eqn:Hstill.
  - apply existsb_userId in Hstill. subst us.
    apply set_eq. intros x. rewrite elem_of_union, elem_of_singleton.
    rewrite elem_of_list_to_set. naive_solver.
  - assert (uid ∉ us) as Hfresh.
    { subst us. rewrite elem_of_list_to_set. intros Hin%existsb_userId.
      congruence. }
    set_solver.
Qed.

(** A connection that joins a room which has participants and leaves it
    again leaves the room registry, and the transfers, exactly as they
    were. *)
Theorem join_then_leave_restores (s : State) (sid p uid : string)
    (room : Room) :
  reachable s →
  Map_get p (rooms s) = Some room →
  participants room ≠ [] →
  sid ∉ socketId <$> participants room →
  ∃ s' out,
    run [JoinRoom sid p uid; LeaveRoom sid p] s = Returned s' out
    ∧ rooms s' = rooms s
    ∧ activeTransfers s' = activeTransfers s.
Proof.
  intros Hs Hroom Hsome Hnot.
  pose proof (reachable_room_inv s p room Hs Hroom) as Hinv.
  pose proof Hnot as Hfind%find_is_socket_None.
  simpl. unfold join_room. rewrite Hroom, Hfind.
  unfold leave_room. cbn [rooms adapter set_adapter set_rooms].
  rewrite Map_get_set_eq. cbn [participants with_members].
  rewrite find_is_socket_new by done. cbv zeta.
  rewrite (without_socket_new sid uid (adapter s) p room Hinv Hnot).
  rewrite decide_False by by destruct (participants room).
  eexists _, _. split; [reflexivity|]. simpl.
  by rewrite Map_set_set, Map_set_id.
Qed.

Lemma join_then_leave_restores_witness :
  ∃ s' out,
    run [JoinRoom "C" "123456" "alice"; LeaveRoom "C" "123456"]
      (after transfer_started) = Returned s' out
    ∧ rooms s' = rooms (after transfer_started)
    ∧ activeTransfers s' = activeTransfers (after transfer_started).
Proof.
  apply (join_then_leave_restores (after transfer_started) "C" "123456"
           "alice" two_member_room (reachable_after transfer_started)).
  - reflexivity.
  - discriminate.
  - intros Hin. by repeat (apply elem_of_cons in Hin as [Hin|Hin]; [done|]);
      apply elem_of_nil in Hin.
Defined.

(** A room made by [POST /api/room] lives until its first member leaves:
    when a connection joins a room that has no participants and leaves it
    again, the room is deleted. *)
Theorem join_then_leave_deletes_empty_room (s : State) (sid p uid : string)
    (room : Room) :
  Map_get p (rooms s) = Some room →
  participants room = [] →
  ∃ s' out,
    run [JoinRoom sid p uid; LeaveRoom sid p] s = Returned s' out
    ∧ Map_get p (rooms s') = None
    ∧ get_api_room p s' = HttpNotFound "Room not found".
Proof.
  intros Hroom Hnil. simpl. unfold join_room. rewrite Hroom, Hnil. simpl.
  unfold leave_room. cbn [rooms adapter set_adapter set_rooms].
  rewrite Map_get_set_eq. cbn [participants with_members find].
  unfold is_socket at 1. simpl. rewrite bool_decide_eq_true_2 by done.
  cbv zeta. unfold without_socket at 1 2. cbn [participants with_members].
  rewrite filter_cons_False by (simpl; auto). rewrite filter_nil. simpl.
  eexists _, _. split; [reflexivity|]. unfold get_api_room. simpl.
  by rewrite Map_get_delete_eq.
Qed.

Lemma join_then_leave_deletes_empty_room_witness :
  ∃ s' out,
    run [JoinRoom "A" "123456" "alice"; LeaveRoom "A" "123456"]
      (after [PostApiRoom [123456%N] 10 10; Connection "A"])
    = Returned s' out
    ∧ Map_get "123456" (rooms s') = None
    ∧ get_api_room "123456" s' = HttpNotFound "Room not found".
Proof.
  apply (join_then_leave_deletes_empty_room _ "A" "123456" "alice"
           {| creator := "web-api";
              creatorUserId := None;
              participants := [];
              uniqueUsers := ∅;
              createdAt := 10 |}).
  - reflexivity.
  - reflexivity.
Defined.

(** ** Looking a room up over HTTP *)

(** [GET /api/room/:pin] answers 404 when no live room has the code;
    otherwise it reports, like [get_room_info], the number of distinct user
    ids among the connections listed in the room, and the room's creation
    time. *)
Theorem get_api_room_distinct_users (s : State) (p : string) :
  reachable s →
  get_api_room p s
  = match Map_get p (rooms s) with
    | None => HttpNotFound "Room not found"
    | Some room =>
        HttpRoom p (active_distinct_users room) (createdAt room) true
    end.
Proof.
  intros Hs. unfold get_api_room.
  destruct (Map_get p (rooms s)) as [room|] eqn:Hroom; [|done].
  by erewrite room_inv_size by by eapply reachable_room_inv.
Qed.

Lemma get_api_room_distinct_users_witness :
  get_api_room "123456" (after shared_user) = HttpRoom "123456" 1 10 true.
Proof.
  exact (get_api_room_distinct_users (after shared_user) "123456"
           (reachable_after shared_user)).
Defined.

(** * Further properties of the transfer coordinator *)

(** ** Transfer ids *)

Lemma String_forall_app (P : Ascii.ascii → bool) (a b : string) :
  String_forall P (a +:+ b) = String_forall P a && String_forall P b.
Proof.
  induction a as [|c a IH]; simpl; [done|]. by rewrite IH, andb_assoc.
Qed.

Lemma pretty_N_go_no_underscore (x : N) (s : string) :
  String_forall not_underscore s = true →
  String_forall not_underscore (pretty_N_go x s) = true.
Proof.
  revert s. induction (N.lt_wf_0 x) as [x _ IH]; intros s Hs.
  assert (x = 0 ∨ 0 < x)%N as [->|Hpos] by lia.
  - by rewrite pretty_N_go_0.
  - rewrite pretty_N_go_step by done. apply IH; [by apply N.div_lt|].
    simpl. rewrite Hs. unfold pretty_N_char. by repeat case_match.
Qed.

Lemma pretty_Z_no_underscore (z : Z) :
  String_forall not_underscore (pretty z) = true.
Proof.
  assert (∀ n : N, String_forall not_underscore (pretty n) = true) as HN.
  { intros n. unfold pretty, pretty_N. case_decide; [done|].
    by apply pretty_N_go_no_underscore. }
  destruct z as [|x|x]; [done | apply HN |].
  unfold pretty, pretty_Z. rewrite String_forall_app. simpl. apply HN.
Qed.

Lemma append_underscore_inj (a a' d d' : string) :
  String_forall not_underscore d = true →
  String_forall not_underscore d' = true →
  a +:+ "_" +:+ d = a' +:+ "_" +:+ d' →
  a = a' ∧ d = d'.
Proof.
  intros Hd Hd'. revert a'.
  assert (Hnil : ∀ x, "" +:+ "_" +:+ x = String "_" x) by done.
  assert (Hcons : ∀ c x y, String c x +:+ y = String c (x +:+ y)) by done.
  induction a as [|c a IH]; intros [|c' a']; rewrite ?Hnil, ?Hcons.
  - by intros [= ->].
  - intros [= <- ->]. rewrite String_forall_app in Hd. simpl in Hd.
    by rewrite andb_false_r in Hd.
  - intros [= -> <-]. rewrite String_forall_app in Hd'. simpl in Hd'.
    by rewrite andb_false_r in Hd'.
  - intros [= -> Heq]. by destruct (IH a' Heq) as [-> ->].
Qed.

Lemma make_transferId_eq (sid sid' : string) (now now' : Z) :
  make_transferId sid now = make_transferId sid' now' →
  sid = sid' ∧ now = now'.
Proof.
  unfold make_transferId. intros Heq.
  apply append_underscore_inj in Heq as [-> Hnow];
    [|apply pretty_Z_no_underscore..].
  split; [done|]. by apply (inj pretty).
Qed.

(** The id [`${socket.id}_${Date.now()}`] determines the connection and the
    clock reading it was made from, whatever characters the connection id is
    made of: two initiations get the same id only when the same connection
    makes them at the same millisecond. *)
Theorem make_transferId_inj (sid sid' : string) (now now' : Z) :
  make_transferId sid now = make_transferId sid' now' ↔
  sid = sid' ∧ now = now'.
Proof.
  split; [apply make_transferId_eq | by intros [-> ->]].
Qed.

(** ** The invariant of the transfer map *)

Lemma state_transfers_inv_same (s s' : State) :
  activeTransfers s' = activeTransfers s → transfers_inv s → transfers_inv s'.
Proof. unfold transfers_inv. by intros ->. Qed.

Lemma react_transfers_inv (e : event) (s s' : State) out :
  transfers_inv s → react e s = Returned s' out → transfers_inv s'.
Proof.
  intros [Hkeys Hids] Hstep.
  assert (Hsame : activeTransfers s' = activeTransfers s → transfers_inv s').
  { intros Heq. by apply (state_transfers_inv_same s). }
  destruct e; simpl in Hstep.
  - injection Hstep as <- <-. by apply Hsame.
  - unfold create_room in Hstep.
    destruct (unique_pin _ _); [|done]. injection Hstep as <- <-.
    by apply Hsame.
  - unfold join_room in Hstep.
    destruct (Map_get _ _); [destruct (find _ _)|];
      injection Hstep as <- <-; by apply Hsame.
  - unfold leave_room in Hstep.
    destruct (Map_get _ _); [destruct (find _ _)|];
      injection Hstep as <- <-; by apply Hsame.
  - unfold initiate_file_transfer in Hstep.
    destruct (Map_get p (rooms s)) as [room|];
      [|injection Hstep as <- <-; by apply Hsame].
    case_decide; injection Hstep as <- <-; [by apply Hsame|].
    split; simpl.
    + by apply Map_keys_NoDup_set.
    + intros transferId transfer Hin.
      apply elem_of_Map_set in Hin as [[= -> ->]|[Hin _]]; [| |done].
      * by exists now.
      * by apply Hids.
  - unfold file_chunk, invalid_transfer in Hstep.
    destruct (Map_get transferId (activeTransfers s)) as [transfer|] eqn:Hget;
      [|injection Hstep as <- <-; by apply Hsame].
    destruct (negb _); [injection Hstep as <- <-; by apply Hsame|].
    assert (Hset : transfers_inv
              (set_activeTransfers
                 (Map_set transferId
                    (with_chunks transfer
                       (Array_set (chunks transfer) chunkIndex chunkData)
                       (if isLast then chunkIndex + 1
                        else totalChunks transfer))
                    (activeTransfers s)) s)).
    { split; simpl.
      - by apply Map_keys_NoDup_set.
      - intros tid t Hin.
        apply elem_of_Map_set in Hin as [[= -> ->]|[Hin _]]; [| |done].
        + simpl. by apply Hids, Map_get_elem_of.
        + by apply Hids. }
    destruct (isLast && _); [destruct (Buffer_concat _)|]; try done;
      injection Hstep as <- <-; [|done].
    destruct Hset as [Hkeys' Hids']. split; simpl in *.
    + by apply Map_keys_NoDup_filter.
    + intros tid t [_ Hin]%list_elem_of_filter. by apply Hids'.
  - unfold respond_to_file in Hstep.
    destruct (Map_get _ _); [destruct accept|];
      injection Hstep as <- <-; by apply Hsame.
  - unfold get_room_info in Hstep.
    destruct (Map_get _ _); injection Hstep as <- <-; by apply Hsame.
  - unfold disconnect in Hstep.
    destruct (disconnect_rooms _ _ _) as [rs out1].
    rewrite disconnect_transfers_filter in Hstep.
    injection Hstep as <- <-. split; simpl.
    + by apply Map_keys_NoDup_filter.
    + intros tid t [_ Hin]%list_elem_of_filter. by apply Hids.
  - injection Hstep as <- <-. by apply Hsame.
  - unfold post_api_room in Hstep.
    destruct (unique_pin _ _); [|done]. injection Hstep as <- <-.
    by apply Hsame.
Qed.

Lemma reachable_transfers_inv (s : State) : reachable s → transfers_inv s.
Proof.
  induction 1 as [|e s s' out _ IH Hstep];
    [|by eapply react_transfers_inv].
  split; [apply NoDup_nil_2|]. by intros ? ? ?%elem_of_nil.
Qed.

Lemma Map_get_filter_keep {V} (P : string * V → Prop)
    `{∀ e, Decision (P e)} (k : string) (v : V) (m : list (string * V)) :
  Map_get k m = Some v → P (k, v) → Map_get k (filter P m) = Some v.
Proof.
  intros Hget HP. induction m as [|[k' v'] m IH]; [done|].
  simpl in Hget. rewrite filter_cons.
  destruct (decide (k' = k)) as [->|Hne].
  - injection Hget as ->. rewrite decide_True by done. simpl.
    by rewrite decide_True.
  - destruct (decide (P (k', v'))); [simpl; rewrite decide_False by done|];
      by apply IH.
Qed.

(** Only its sender changes a transfer.  Whatever another connection does -
    submit chunks under the id, respond, start transfers of its own, join,
    leave, disconnect - and whatever the sweep or the HTTP surface does,
    the record registered under the id stays the same record. *)
Theorem transfer_changed_only_by_sender (e : event) (s s' : State) out
    (transferId : string) (transfer : Transfer) :
  reachable s →
  react e s = Returned s' out →
  Map_get transferId (activeTransfers s) = Some transfer →
  actor e ≠ Some (from transfer) →
  Map_get transferId (activeTransfers s') = Some transfer.
Proof.
  intros Hs Hstep Hget Hactor.
  destruct (reachable_transfers_inv s Hs) as [_ Hids].
  assert (Hsame : activeTransfers s' = activeTransfers s →
            Map_get transferId (activeTransfers s') = Some transfer).
  { by intros ->. }
  destruct e; simpl in Hstep, Hactor.
  - injection Hstep as <- <-. by apply Hsame.
  - unfold create_room in Hstep.
    destruct (unique_pin _ _); [|done]. injection Hstep as <- <-.
    by apply Hsame.
  - unfold join_room in Hstep.
    destruct (Map_get _ _); [destruct (find _ _)|];
      injection Hstep as <- <-; by apply Hsame.
  - unfold leave_room in Hstep.
    destruct (Map_get _ _); [destruct (find _ _)|];
      injection Hstep as <- <-; by apply Hsame.
  - unfold initiate_file_transfer in Hstep.
    destruct (Map_get p (rooms s)) as [room|];
      [|injection Hstep as <- <-; by apply Hsame].
    case_decide; injection Hstep as <- <-; [by apply Hsame|]. simpl.
    rewrite Map_get_set_ne; [done|]. intros Heq.
    destruct (Hids transferId transfer) as [now0 Hid];
      [by apply Map_get_elem_of|].
    rewrite Hid in Heq. apply make_transferId_eq in Heq as [-> _].
    by apply Hactor.
  - unfold file_chunk, invalid_transfer in Hstep.
    destruct (decide (transferId0 = transferId)) as [->|Hne].
    + rewrite Hget in Hstep.
      rewrite bool_decide_eq_false_2 in Hstep by congruence.
      injection Hstep as <- <-. by apply Hsame.
    + destruct (Map_get transferId0 (activeTransfers s));
        [|injection Hstep as <- <-; by apply Hsame].
      destruct (negb _); [injection Hstep as <- <-; by apply Hsame|].
      destruct (isLast && _); [destruct (Buffer_concat _)|]; try done;
        injection Hstep as <- <-; simpl.
      * by rewrite Map_get_delete_ne, Map_get_set_ne.
      * by rewrite Map_get_set_ne.
  - unfold respond_to_file in Hstep.
    destruct (Map_get _ _); [destruct accept|];
      injection Hstep as <- <-; by apply Hsame.
  - unfold get_room_info in Hstep.
    destruct (Map_get _ _); injection Hstep as <- <-; by apply Hsame.
  - unfold disconnect in Hstep.
    destruct (disconnect_rooms _ _ _) as [rs out1].
    rewrite disconnect_transfers_filter in Hstep.
    injection Hstep as <- <-. simpl.
    apply Map_get_filter_keep; [done|]. simpl. congruence.
  - injection Hstep as <- <-. by apply Hsame.
  - unfold post_api_room in Hstep.
    destruct (unique_pin _ _); [|done]. injection Hstep as <- <-.
    by apply Hsame.
Qed.

Lemma transfer_changed_only_by_sender_witness :
  Map_get "A_20"
    (activeTransfers
       (after (transfer_started ++ [FileChunk "B" "A_20" 0 [x01] true])))
  = Some one_transfer_record.
Proof.
  apply (transfer_changed_only_by_sender (FileChunk "B" "A_20" 0 [x01] true)
           (after transfer_started) _
           [Emit (Socket "B") {["B"]}
              (transfer_error "A_20" "Invalid transfer")]
           "A_20" one_transfer_record (reachable_after transfer_started)).
  - reflexivity.
  - reflexivity.
  - discriminate.
Defined.

(** ** Starting a transfer *)

Lemma no_recipients_iff (sid : string) (ps : list Participant) :
  length (socketId <$> filter (λ q, socketId q ≠ sid) ps) = 0
  ↔ ∀ q, q ∈ ps → socketId q = sid.
Proof.
  rewrite length_fmap, length_zero_iff_nil. split.
  - intros Hnil q Hq. destruct (decide (socketId q = sid)) as [|Hne]; [done|].
    assert (q ∈ filter (λ q, socketId q ≠ sid) ps) as Hin
      by by apply list_elem_of_filter.
    rewrite Hnil in Hin. by apply elem_of_nil in Hin.
  - intros Hall. apply elem_of_nil_inv. intros q [Hne Hq]%list_elem_of_filter.
    by apply Hne, Hall.
Qed.

Lemma initiate_file_transfer_ok (s : State) (sid p name : string)
    (size : Z) (type : string) (now now' : Z) (room : Room)
    (q : Participant) :
  Map_get p (rooms s) = Some room →
  q ∈ participants room → socketId q ≠ sid →
  initiate_file_transfer sid p name size type now now' s
  = Returned
      (set_activeTransfers
         (Map_set (make_transferId sid now)
            {| from := sid;
               pin := p;
               fileName := name;
               fileSize := size;
               fileType := type;
               chunks := [];
               totalChunks := 0;
               recipients :=
                 socketId
                   <$> filter (λ q, socketId q ≠ sid) (participants room);
               startTime := now' |}
            (activeTransfers s)) s)
      [Emit (SocketTo sid p) (sockets_in (adapter s) p ∖ {[sid]})
         (incoming_file (make_transferId sid now) name size type sid);
       Callback sid (initiated (make_transferId sid now))].
Proof.
  intros Hroom Hq Hne. unfold initiate_file_transfer. rewrite Hroom.
  rewrite decide_False; [done|]. intros Hnone.
  by apply Hne, (proj1 (no_recipients_iff sid (participants room)) Hnone).
Qed.

(** [initiate_file_transfer] answers "Room not found" exactly when no room
    has the code and "No recipients in room" exactly when the room lists no
    connection but the caller's; both leave the state as it was.  Otherwise
    it registers, under the id made of the caller's connection id and the
    clock reading, a record with no chunks and a total of 0 whose recipients
    are the other listed connections, announces the file to the room's
    group and acknowledges with the id. *)
Theorem initiate_file_transfer_cases (s : State) (sid p name : string)
    (size : Z) (type : string) (now now' : Z) :
  (Map_get p (rooms s) = None
   ↔ initiate_file_transfer sid p name size type now now' s
     = Returned s [Callback sid (failure "Room not found")])
  ∧ ((∃ room, Map_get p (rooms s) = Some room
              ∧ ∀ q, q ∈ participants room → socketId q = sid)
     ↔ initiate_file_transfer sid p name size type now now' s
       = Returned s [Callback sid (failure "No recipients in room")])
  ∧ (∀ room q,
       Map_get p (rooms s) = Some room →
       q ∈ participants room → socketId q ≠ sid →
       initiate_file_transfer sid p name size type now now' s
       = Returned
           (set_activeTransfers
              (Map_set (make_transferId sid now)
                 {| from := sid;
                    pin := p;
                    fileName := name;
                    fileSize := size;
                    fileType := type;
                    chunks := [];
                    totalChunks := 0;
                    recipients :=
                      socketId
                        <$> filter (λ q, socketId q ≠ sid) (participants room);
                    startTime := now' |}
                 (activeTransfers s)) s)
           [Emit (SocketTo sid p) (sockets_in (adapter s) p ∖ {[sid]})
              (incoming_file (make_transferId sid now) name size type sid);
            Callback sid (initiated (make_transferId sid now))]).
Proof.
  unfold initiate_file_transfer.
  destruct (Map_get p (rooms s)) as [room|] eqn:Hroom.
  - destruct (decide (length _ = 0)) as [Hnone|Hsome].
    + pose proof (proj1 (no_recipients_iff sid (participants room)) Hnone)
        as Hall.
      split_and!.
      * split; [done | by intros [=]].
      * split; [done|]. intros _. by exists room.
      * intros ? q [= <-] Hq Hne. by destruct Hne; apply Hall.
    + split_and!.
      * split; [done | by intros [=]].
      * split; [|by intros [=]].
        intros (? & [= <-] & Hall).
        by apply (no_recipients_iff sid (participants room)) in Hall.
      * by intros ? q [= <-] _ _.
  - split_and!.
    + done.
    + split; [by intros (? & [=] & _) | by intros [=]].
    + by intros ? ? [=].
Qed.

(** Nothing ties the sender of a transfer to the room: a connection that
    is not listed in a room can start a transfer into it as soon as the
    room lists anyone, and then every listed connection is a recipient and
    receives the announcement. *)
Theorem initiate_file_transfer_by_outsider (s : State) (sid p name : string)
    (size : Z) (type : string) (now now' : Z) (room : Room) :
  reachable s →
  Map_get p (rooms s) = Some room →
  participants room ≠ [] →
  sid ∉ socketId <$> participants room →
  ∃ s' R,
    initiate_file_transfer sid p name size type now now' s
    = Returned s'
        [Emit (SocketTo sid p) R
           (incoming_file (make_transferId sid now) name size type sid);
         Callback sid (initiated (make_transferId sid now))]
    ∧ recipients <$> Map_get (make_transferId sid now) (activeTransfers s')
      = Some (socketId <$> participants room)
    ∧ ∀ q, q ∈ participants room → socketId q ∈ R.
Proof.
  intros Hs Hroom Hsome Hnot.
  assert (∃ q0, q0 ∈ participants room) as [q0 Hq0].
  { destruct (participants room) as [|q0 ?]; [done|].
    exists q0. apply list_elem_of_here. }
  assert (Hne : ∀ q, q ∈ participants room → socketId q ≠ sid).
  { intros q Hq Heq. apply Hnot. rewrite <- Heq.
    by apply list_elem_of_fmap_2. }
  rewrite (initiate_file_transfer_ok s sid p name size type now now' room q0
             Hroom Hq0) by by apply Hne.
  eexists _, _. split; [reflexivity|]. split.
  - simpl. rewrite Map_get_set_eq. simpl. do 2 f_equal.
    clear Hnot Hq0 Hsome Hroom.
    induction (participants room) as [|x l IH]; [done|].
    rewrite filter_cons_True by (apply Hne, list_elem_of_here).
    f_equal. apply IH. intros y Hy. by apply Hne, list_elem_of_further.
  - intros q Hq.
    destruct (reachable_room_inv s p room Hs Hroom) as (_ & _ & Hgrp & _).
    apply elem_of_difference. split; [by apply Hgrp|].
    intros ?%elem_of_singleton. by apply (Hne q).
Qed.

Lemma initiate_file_transfer_by_outsider_witness :
  ∃ s' R,
    initiate_file_transfer "Z" "123456" "z.bin" 9 "application/x" 40 40
      (after transfer_started)
    = Returned s'
        [Emit (SocketTo "Z" "123456") R
           (incoming_file "Z_40" "z.bin" 9 "application/x" "Z");
         Callback "Z" (initiated "Z_40")]
    ∧ recipients <$> Map_get "Z_40" (activeTransfers s') = Some ["A"; "B"]
    ∧ ∀ q, q ∈ participants two_member_room → socketId q ∈ R.
Proof.
  apply (initiate_file_transfer_by_outsider (after transfer_started) "Z"
           "123456" "z.bin" 9 "application/x" 40 40 two_member_room
           (reachable_after transfer_started)).
  - reflexivity.
  - discriminate.
  - intros Hin. by repeat (apply elem_of_cons in Hin as [Hin|Hin]; [done|]);
      apply elem_of_nil in Hin.
Defined.



(** ** Receiving chunks *)

Lemma Array_defined_count_app {A} (a b : list (option A)) :
  Array_defined_count (a ++ b) = Array_defined_count a + Array_defined_count b.
Proof. unfold Array_defined_count. by rewrite omap_app, length_app. Qed.

Lemma Array_defined_count_replicate {A} (n : nat) :
  Array_defined_count (replicate n (@None A)) = 0.
Proof.
  unfold Array_defined_count. induction n as [|n IH]; [done | exact IH].
Qed.

Lemma Array_defined_count_cons {A} (x : option A) (a : list (option A)) :
  Array_defined_count (x :: a)
  = (if x is Some _ then 1 else 0) + Array_defined_count a.
Proof. by destruct x. Qed.

Lemma Array_defined_count_insert {A} (a : list (option A)) (i : nat) (v : A) :
  i < length a →
  Array_defined_count (<[i := Some v]> a)
  = if Array_populated a i then Array_defined_count a
    else S (Array_defined_count a).
Proof.
  revert i. induction a as [|x a IH]; intros [|i] Hi; simpl in Hi; try lia.
  - change (<[0 := Some v]> (x :: a)) with (Some v :: a).
    unfold Array_populated. change ((x :: a) !! 0) with (Some x).
    rewrite !Array_defined_count_cons. by destruct x.
  - change (<[S i := Some v]> (x :: a)) with (x :: <[i := Some v]> a).
    unfold Array_populated. change ((x :: a) !! S i) with (a !! i).
    fold (Array_populated a i).
    rewrite !Array_defined_count_cons, IH by lia.
    destruct (Array_populated a i); lia.
Qed.

(** Writing a chunk raises the count of received chunks by one, unless the
    index already held one. *)
Lemma Array_defined_count_set {A} (a : list (option A)) (i : nat) (v : A) :
  Array_defined_count (Array_set a i v)
  = if Array_populated a i then Array_defined_count a
    else S (Array_defined_count a).
Proof.
  unfold Array_set. case_decide as Hi.
  - by apply Array_defined_count_insert.
  - unfold Array_populated. rewrite lookup_ge_None_2 by lia.
    rewrite !Array_defined_count_app, Array_defined_count_replicate.
    unfold Array_defined_count at 2. simpl. lia.
Qed.

Lemma Buffer_concat_Some_inv (cs : list (option (list byte))) fileData :
  Buffer_concat cs = Some fileData →
  ∃ payloads, cs = Some <$> payloads ∧ fileData = concat payloads.
Proof.
  revert fileData. induction cs as [|[c|] cs IH]; intros fileData; simpl.
  - intros [= <-]. by exists [].
  - destruct (Buffer_concat cs) as [rest|]; [|done]. intros [= <-].
    destruct (IH rest eq_refl) as (payloads & -> & ->).
    by exists (c :: payloads).
  - done.
Qed.

Lemma Array_defined_count_le {A} (a : list (option A)) :
  (Array_defined_count a ≤ length a)%nat.
Proof.
  induction a as [|x a IH]; [done|].
  rewrite Array_defined_count_cons. destruct x; simpl; lia.
Qed.

Lemma Buffer_concat_None (cs : list (option (list byte))) :
  Buffer_concat cs = None ↔ Array_defined_count cs < length cs.
Proof.
  induction cs as [|[c|] cs IH].
  - split; [done | unfold Array_defined_count; simpl; lia].
  - rewrite Array_defined_count_cons. cbn [Buffer_concat length].
    destruct (Buffer_concat cs); split; intros H; try done.
    + assert (Array_defined_count cs < length cs) as H'%IH by lia. done.
    + assert (Array_defined_count cs < length cs) by by apply IH. lia.
  - rewrite Array_defined_count_cons. cbn [Buffer_concat length].
    split; [|done]. intros _. pose proof (Array_defined_count_le cs). lia.
Qed.

(** A [file_chunk] from the sender reports as received the number of
    indices that hold a chunk: a chunk sent again under an index that
    already holds one replaces it and is not counted twice. *)
Theorem file_chunk_counts_indices (s : State) (sid transferId : string)
    (chunkIndex : nat) (chunkData : list byte) (isLast : bool)
    (transfer : Transfer) :
  Map_get transferId (activeTransfers s) = Some transfer →
  from transfer = sid →
  ∃ rest,
    sent (file_chunk sid transferId chunkIndex chunkData isLast s)
    = Emit (Socket sid) {[sid]}
        (upload_progress transferId
           (if Array_populated (chunks transfer) chunkIndex
            then Array_defined_count (chunks transfer)
            else S (Array_defined_count (chunks transfer)))
           (if isLast then chunkIndex + 1
            else if decide (totalChunks transfer = 0) then 1
                 else totalChunks transfer))
        :: rest.
Proof.
  intros Hget Hfrom. unfold file_chunk. rewrite Hget.
  rewrite bool_decide_eq_true_2 by done. cbn [negb].
  rewrite Array_defined_count_set.
  assert (Hdiv : (if decide ((if isLast then chunkIndex + 1
                              else totalChunks transfer) = 0)
                  then 1
                  else if isLast then chunkIndex + 1
                       else totalChunks transfer)
                 = if isLast then chunkIndex + 1
                   else if decide (totalChunks transfer = 0) then 1
                        else totalChunks transfer).
  { destruct isLast; [by rewrite decide_False by lia | done]. }
  rewrite Hdiv.
  destruct (isLast && _); [destruct (Buffer_concat _)|]; by eexists.
Qed.

Lemma file_chunk_counts_indices_witness :
  ∃ rest,
    sent (file_chunk "A" "A_20" 0 [x09] false
            (after (transfer_started
                    ++ [FileChunk "A" "A_20" 0 [x01] false])))
    = Emit (Socket "A") {["A"]} (upload_progress "A_20" 1 1) :: rest.
Proof.
  apply (file_chunk_counts_indices _ "A" "A_20" 0 [x09] false
           (with_chunks one_transfer_record [Some [x01]] 0)).
  - reflexivity.
  - reflexivity.
Defined.

(** A [file_chunk] ends in the uncaught [TypeError] of [Buffer.concat]
    exactly when the sender flags as last a chunk whose index lies before
    the end of the array and the number of indices that hold a chunk is the
    total the flag sets: a chunk beyond the flagged index was stored
    earlier and an index below is still a hole. *)
Theorem file_chunk_throws_iff (s : State) (sid transferId : string)
    (chunkIndex : nat) (chunkData : list byte) (isLast : bool) :
  (∃ s' out,
     file_chunk sid transferId chunkIndex chunkData isLast s = Threw s' out)
  ↔ ∃ transfer,
      Map_get transferId (activeTransfers s) = Some transfer
      ∧ from transfer = sid
      ∧ isLast = true
      ∧ Array_defined_count (Array_set (chunks transfer) chunkIndex chunkData)
        = chunkIndex + 1
      ∧ chunkIndex + 1 < length (chunks transfer).
Proof.
  unfold file_chunk, invalid_transfer.
  destruct (Map_get transferId (activeTransfers s)) as [transfer|];
    [|split; [by intros (? & ? & [=]) | by intros (? & [=] & _)]].
  destruct (bool_decide_reflect (from transfer = sid)) as [Hfrom|Hfrom];
    cbn [negb];
    [|split; [by intros (? & ? & [=]) | by intros (? & [= <-] & ? & _)]].
  set (cs := Array_set (chunks transfer) chunkIndex chunkData).
  assert (Hlen : length cs = length (chunks transfer) `max` S chunkIndex)
    by apply Array_set_length.
  destruct isLast; cbn [andb];
    [|split; [by intros (? & ? & [=]) | by intros (? & _ & _ & [=] & _)]].
  destruct (bool_decide_reflect (Array_defined_count cs = chunkIndex + 1))
    as [Hcount|Hcount];
    [|split; [by intros (? & ? & [=])
             |by intros (? & [= <-] & _ & _ & ? & _)]].
  destruct (Buffer_concat cs) as [fileData|] eqn:Hconcat.
  - split; [by intros (? & ? & [=])|].
    intros (? & [= <-] & _ & _ & _ & Hbeyond).
    apply Buffer_concat_Some_inv in Hconcat as (payloads & Hcs & _).
    rewrite Hcs, Array_defined_count_Some in Hcount.
    rewrite Hcs, length_fmap in Hlen. lia.
  - split; [|by eexists _, _].
    intros _. exists transfer. split_and!; try done.
    apply Buffer_concat_None in Hconcat. lia.
Qed.

(** A file that is delivered has no gaps: when [file_chunk] sends
    [file_received], the flag is set, the array holds a chunk at each of the
    indices [0..chunkIndex] and nothing beyond, the data is these chunks in
    index order, and the record is gone from the transfer map. *)
Theorem file_received_is_gap_free (s s' : State) (sid transferId : string)
    (chunkIndex : nat) (chunkData : list byte) (isLast : bool) out
    (t : target) (R : gset string) (transferId' name type sender : string)
    (fileData : list byte) :
  file_chunk sid transferId chunkIndex chunkData isLast s = Returned s' out →
  Emit t R (file_received transferId' name type fileData sender) ∈ out →
  ∃ transfer payloads,
    Map_get transferId (activeTransfers s) = Some transfer
    ∧ isLast = true
    ∧ Array_set (chunks transfer) chunkIndex chunkData = Some <$> payloads
    ∧ length payloads = chunkIndex + 1
    ∧ payloads !! chunkIndex = Some chunkData
    ∧ fileData = concat payloads
    ∧ Map_get transferId (activeTransfers s') = None.
Proof.
  unfold file_chunk, invalid_transfer.
  destruct (Map_get transferId (activeTransfers s)) as [transfer|] eqn:Hget.
  2: { intros [= <- <-] Hin%list_elem_of_singleton. discriminate Hin. }
  destruct (negb _).
  { intros [= <- <-] Hin%list_elem_of_singleton. discriminate Hin. }
  destruct isLast; cbn [andb].
  2: { intros [= <- <-] Hin%list_elem_of_singleton. discriminate Hin. }
  destruct (bool_decide_reflect
              (Array_defined_count
                 (Array_set (chunks transfer) chunkIndex chunkData)
               = chunkIndex + 1)) as [Hcount|Hcount].
  2: { intros [= <- <-] Hin%list_elem_of_singleton. discriminate Hin. }
  destruct (Buffer_concat _) as [completeFile|] eqn:Hconcat; [|done].
  intros [= <- <-] Hin.
  apply Buffer_concat_Some_inv in Hconcat as (payloads & Hcs & ->).
  exists transfer, payloads.
  rewrite Hcs, Array_defined_count_Some in Hcount.
  rewrite !elem_of_cons in Hin. unfold emit in Hin.
  destruct Hin as [Hin|[Hin|[Hin|Hin%elem_of_nil]]]; try done.
  injection Hin as _ _ _ _ _ <- _. split_and!; try done.
  - pose proof (Array_set_lookup_eq (chunks transfer) chunkIndex chunkData)
      as Hlook.
    rewrite Hcs, list_lookup_fmap in Hlook.
    by destruct (payloads !! chunkIndex); simplify_eq/=.
  - simpl. apply Map_get_delete_eq.
Qed.

Lemma file_received_is_gap_free_witness :
  ∃ transfer payloads,
    Map_get "A_20" (activeTransfers (after late_join)) = Some transfer
    ∧ true = true
    ∧ Array_set (chunks transfer) 0 [x01; x02; x03] = Some <$> payloads
    ∧ length payloads = 0 + 1
    ∧ payloads !! 0 = Some [x01; x02; x03]
    ∧ [x01; x02; x03] = concat payloads
    ∧ Map_get "A_20"
        (activeTransfers
           (after (late_join ++ [FileChunk "A" "A_20" 0 [x01; x02; x03] true])))
      = None.
Proof.
  eapply (file_received_is_gap_free (after late_join) _ "A" "A_20" 0
            [x01; x02; x03] true _ (SocketTo "A" "123456") {["B"; "C"]}
            "A_20" "a.txt" "text/plain" "A" [x01; x02; x03]).
  - reflexivity.
  - apply list_elem_of_further, list_elem_of_here.
Defined.

(** * Further properties of disconnecting *)

Lemma disconnect_rooms_unchanged (sid : string)
    (ad : gmap string (gset string)) (entries : list (string * Room)) :
  (∀ p room, (p, room) ∈ entries → sid ∉ socketId <$> participants room) →
  disconnect_rooms sid ad entries = (entries, []).
Proof.
  induction entries as [|[p room] rest IH]; intros Hnot; [done|].
  cbn [disconnect_rooms]. rewrite IH.
  - assert (find (is_socket sid) (participants room) = None) as ->; [|done].
    apply find_is_socket_None, (Hnot p). apply list_elem_of_here.
  - intros p' room' Hin. apply (Hnot p'). by apply list_elem_of_further.
Qed.

Lemma socket_leave_all_idemp (sid : string) (ad : gmap string (gset string)) :
  socket_leave_all sid (socket_leave_all sid ad) = socket_leave_all sid ad.
Proof.
  apply map_eq. intros r. unfold socket_leave_all. rewrite !lookup_fmap.
  destruct (ad !! r) as [g|]; simpl; [|done]. f_equal. set_solver.
Qed.

Lemma filter_filter_same {A} (P : A → Prop) `{∀ x, Decision (P x)}
    (l : list A) :
  filter P (filter P l) = filter P l.
Proof.
  induction l as [|x l IH]; [done|]. rewrite filter_cons.
  destruct (decide (P x)); [|done].
  rewrite filter_cons_True by done. by f_equal.
Qed.

Lemma filter_filter_not {A} (P : A → Prop) `{∀ x, Decision (P x)}
    (l : list A) :
  filter P (filter (λ x, ¬ P x) l) = [].
Proof.
  induction l as [|x l IH]; [done|]. rewrite filter_cons.
  destruct (decide (¬ P x)); [|done].
  by rewrite filter_cons_False.
Qed.

(** After [disconnect] the connection is in no transport group, and a
    second [disconnect] of it finds nothing to do: the state stays as it is
    and nothing is sent. *)
Theorem disconnect_idempotent (s s1 : State) (sid : string) out :
  disconnect sid s = Returned s1 out →
  disconnect sid s1 = Returned s1 []
  ∧ ∀ r, sid ∉ sockets_in (adapter s1) r.
Proof.
  unfold disconnect at 1.
  pose proof (disconnect_rooms_unlisted sid (socket_leave_all sid (adapter s))
                (rooms s)) as Hgone.
  destruct (disconnect_rooms _ _ (rooms s)) as [rs out1].
  rewrite disconnect_transfers_filter. intros [= <- _]. split.
  - unfold disconnect. cbn [rooms activeTransfers adapter].
    rewrite disconnect_rooms_unchanged by done.
    rewrite disconnect_transfers_filter, socket_leave_all_idemp.
    rewrite filter_filter_same.
    by rewrite (filter_filter_not (λ e, from e.2 = sid)).
  - intros r. simpl. rewrite sockets_in_leave_all. set_solver.
Qed.

Lemma disconnect_idempotent_witness :
  disconnect "A" (after (transfer_started ++ [Disconnect "A"]))
  = Returned (after (transfer_started ++ [Disconnect "A"])) []
  ∧ ∀ r, "A" ∉ sockets_in
                 (adapter (after (transfer_started ++ [Disconnect "A"]))) r.
Proof.
  apply (disconnect_idempotent (after transfer_started) _ "A"
           [Emit (SocketTo "A" "123456") {["B"]} (user_left "A" "alice");
            Emit (IoTo "123456") {["B"]} (transfer_cancelled "A_20")]).
  reflexivity.
Defined.

(** When its sender disconnects, a transfer is cancelled for good: the
    group of its room is sent [transfer_cancelled], and from then on a
    [file_chunk] under its id is answered with [transfer_error] and a
    [respond_to_file] with "Transfer not found", whoever sends them. *)
Theorem disconnect_cancels_transfer (s s' : State) (sid transferId : string)
    (transfer : Transfer) out :
  reachable s →
  disconnect sid s = Returned s' out →
  Map_get transferId (activeTransfers s) = Some transfer →
  from transfer = sid →
  Emit (IoTo (pin transfer)) (sockets_in (adapter s) (pin transfer) ∖ {[sid]})
    (transfer_cancelled transferId) ∈ out
  ∧ (∀ c chunkIndex chunkData isLast,
       file_chunk c transferId chunkIndex chunkData isLast s'
       = Returned s'
           [Emit (Socket c) {[c]}
              (transfer_error transferId "Invalid transfer")])
  ∧ (∀ c accept,
       respond_to_file c transferId accept s'
       = Returned s' [Callback c (failure "Transfer not found")]).
Proof.
  intros [Hkeys _]%reachable_transfers_inv. unfold disconnect.
  destruct (disconnect_rooms _ _ (rooms s)) as [rs out1].
  rewrite disconnect_transfers_filter. intros [= <- <-] Hget Hfrom.
  assert (Hgone : Map_get transferId
                    (filter (λ e, from e.2 ≠ sid) (activeTransfers s)) = None).
  { rewrite Map_get_filter, Hget by done. by rewrite decide_False by auto. }
  split_and!.
  - apply elem_of_app. right. apply list_elem_of_fmap.
    exists (transferId, transfer). split.
    + unfold emit. simpl. by rewrite sockets_in_leave_all.
    + apply list_elem_of_filter. split; [done | by apply Map_get_elem_of].
  - intros c chunkIndex chunkData isLast.
    unfold file_chunk, invalid_transfer. simpl. by rewrite Hgone.
  - intros c accept. unfold respond_to_file. simpl. by rewrite Hgone.
Qed.

Lemma disconnect_cancels_transfer_witness :
  Emit (IoTo "123456") {["B"]} (transfer_cancelled "A_20")
    ∈ [Emit (SocketTo "A" "123456") {["B"]} (user_left "A" "alice");
       Emit (IoTo "123456") {["B"]} (transfer_cancelled "A_20")]
  ∧ (∀ c chunkIndex chunkData isLast,
       file_chunk c "A_20" chunkIndex chunkData isLast
         (after (transfer_started ++ [Disconnect "A"]))
       = Returned (after (transfer_started ++ [Disconnect "A"]))
           [Emit (Socket c) {[c]} (transfer_error "A_20" "Invalid transfer")])
  ∧ (∀ c accept,
       respond_to_file c "A_20" accept
         (after (transfer_started ++ [Disconnect "A"]))
       = Returned (after (transfer_started ++ [Disconnect "A"]))
           [Callback c (failure "Transfer not found")]).
Proof.
  apply (disconnect_cancels_transfer (after transfer_started) _ "A" "A_20"
           one_transfer_record _ (reachable_after transfer_started)).
  - reflexivity.
  - reflexivity.
  - reflexivity.
Defined.

(** * Who takes a connection out of a room *)

Lemma disconnect_rooms_get (sid : string) (ad : gmap string (gset string))
    (entries : list (string * Room)) (p : string) :
  NoDup (Map_keys entries) →
  Map_get p (disconnect_rooms sid ad entries).1
  = match Map_get p entries with
    | None => None
    | Some room =>
        match find (is_socket sid) (participants room) with
        | None => Some room
        | Some x =>
            if decide (length (participants (without_socket sid x room)) = 0)
            then None
            else Some (without_socket sid x room)
        end
    end.
Proof.
  induction entries as [|[p0 room0] rest IH]; [done|].
  unfold Map_keys. rewrite fmap_cons, NoDup_cons. fold (Map_keys rest).
  intros [Hp0 Hnd]. specialize (IH Hnd).
  pose proof (disconnect_rooms_keys sid ad rest) as Hsub.
  cbn [disconnect_rooms Map_get].
  destruct (disconnect_rooms sid ad rest) as [rs out]. cbn [fst] in *.
  assert (Hskip : p0 = p → Map_get p rs = None).
  { intros <-. apply Map_get_None. intros Hin. apply Hp0.
    eapply elem_of_sublist; [exact Hin | exact Hsub]. }
  destruct (decide (p0 = p)) as [->|Hne].
  - destruct (find (is_socket sid) (participants room0)) as [x|];
      [destruct (decide (length _ = 0))|]; cbn [fst Map_get];
      rewrite ?decide_True by done; auto.
  - destruct (find (is_socket sid) (participants room0)) as [x|];
      [destruct (decide (length _ = 0))|]; cbn [fst Map_get];
      rewrite ?decide_False by done; exact IH.
Qed.

(** A connection stays listed in a room until it leaves or disconnects
    itself or the sweep deletes the room: no other connection's event and
    no room creation takes it out. *)
Theorem membership_ended_only_by_member_or_sweep (e : event) (s s' : State)
    out (p : string) (room : Room) (q : Participant) :
  reachable s →
  react e s = Returned s' out →
  Map_get p (rooms s) = Some room →
  q ∈ participants room →
  actor e ≠ Some (socketId q) →
  (∀ now, e ≠ CleanupExpiredRooms now) →
  ∃ room', Map_get p (rooms s') = Some room' ∧ q ∈ participants room'.
Proof.
  intros [Hkeys _]%reachable_inv Hstep Hroom Hq Hactor Hsweep.
  assert (Hsame : rooms s' = rooms s →
            ∃ room', Map_get p (rooms s') = Some room'
                     ∧ q ∈ participants room').
  { intros ->. by exists room. }
  assert (Hkept : ∀ sid x, sid ≠ socketId q →
            q ∈ participants (without_socket sid x room)
            ∧ length (participants (without_socket sid x room)) ≠ 0).
  { intros sid x Hne.
    assert (q ∈ participants (without_socket sid x room)) as Hin.
    { simpl. apply list_elem_of_filter. split; [congruence | done]. }
    split; [done|]. intros Hlen%length_zero_iff_nil.
    rewrite Hlen in Hin. by apply elem_of_nil in Hin. }
  destruct e; simpl in Hstep, Hactor.
  - injection Hstep as <- <-. by apply Hsame.
  - unfold create_room in Hstep.
    destruct (unique_pin draws (rooms s)) as [p0|] eqn:Hpin; [|done].
    apply unique_pin_fresh in Hpin. injection Hstep as <- <-. simpl.
    exists room. by rewrite (Map_get_set_fresh p0 p _ room).
  - unfold join_room in Hstep.
    destruct (Map_get p0 (rooms s)) as [room0|] eqn:Hroom0;
      [|injection Hstep as <- <-; by apply Hsame].
    destruct (find (is_socket sid) (participants room0));
      [injection Hstep as <- <-; by apply Hsame|].
    injection Hstep as <- <-. simpl.
    destruct (decide (p0 = p)) as [->|Hne].
    + rewrite Map_get_set_eq. eexists. split; [done|]. simpl.
      apply elem_of_app. left. congruence.
    + rewrite Map_get_set_ne by done. by exists room.
  - unfold leave_room in Hstep.
    destruct (Map_get p0 (rooms s)) as [room0|] eqn:Hroom0;
      [|injection Hstep as <- <-; by apply Hsame].
    destruct (find (is_socket sid) (participants room0)) as [x|];
      [|injection Hstep as <- <-; by apply Hsame].
    injection Hstep as <- <-. simpl.
    destruct (decide (p0 = p)) as [->|Hne].
    + assert (room0 = room) as -> by congruence.
      destruct (Hkept sid x) as [Hin Hlen]; [congruence|].
      rewrite decide_False by done. rewrite Map_get_set_eq. by eexists.
    + exists room.
      destruct (decide (length _ = 0));
        by rewrite ?Map_get_delete_ne, Map_get_set_ne.
  - unfold initiate_file_transfer in Hstep.
    destruct (Map_get p0 (rooms s)); [case_decide|];
      injection Hstep as <- <-; by apply Hsame.
  - unfold file_chunk, invalid_transfer in Hstep.
    destruct (Map_get transferId (activeTransfers s));
      [|injection Hstep as <- <-; by apply Hsame].
    destruct (negb _); [injection Hstep as <- <-; by apply Hsame|].
    destruct (isLast && _); [destruct (Buffer_concat _)|]; try done;
      injection Hstep as <- <-; by apply Hsame.
  - unfold respond_to_file in Hstep.
    destruct (Map_get transferId (activeTransfers s)); [destruct accept|];
      injection Hstep as <- <-; by apply Hsame.
  - unfold get_room_info in Hstep.
    destruct (Map_get p0 (rooms s));
      injection Hstep as <- <-; by apply Hsame.
  - unfold disconnect in Hstep.
    pose proof (disconnect_rooms_get sid (socket_leave_all sid (adapter s))
                  (rooms s) p Hkeys) as Hget.
    destruct (disconnect_rooms _ _ (rooms s)) as [rs out1].
    destruct (disconnect_transfers _ _ _) as [ts out2].
    injection Hstep as <- <-. cbn [fst rooms] in *. rewrite Hget, Hroom.
    destruct (find (is_socket sid) (participants room)) as [x|];
      [|by exists room].
    destruct (Hkept sid x) as [Hin Hlen]; [congruence|].
    rewrite decide_False by done. by eexists.
  - by destruct (Hsweep now).
  - unfold post_api_room in Hstep.
    destruct (unique_pin draws (rooms s)) as [p0|] eqn:Hpin; [|done].
    apply unique_pin_fresh in Hpin. injection Hstep as <- <-. simpl.
    exists room. by rewrite (Map_get_set_fresh p0 p _ room).
Qed.

Lemma membership_ended_only_by_member_or_sweep_witness :
  ∃ room',
    Map_get "123456" (rooms (after (transfer_started ++ [Disconnect "A"])))
    = Some room'
    ∧ {| socketId := "B"; userId := "bob" |} ∈ participants room'.
Proof.
  apply (membership_ended_only_by_member_or_sweep (Disconnect "A")
           (after transfer_started) _
           [Emit (SocketTo "A" "123456") {["B"]} (user_left "A" "alice");
            Emit (IoTo "123456") {["B"]} (transfer_cancelled "A_20")]
           "123456" two_member_room {| socketId := "B"; userId := "bob" |}
           (reachable_after transfer_started)).
  - reflexivity.
  - reflexivity.
  - apply list_elem_of_further, list_elem_of_here.
  - discriminate.
  - discriminate.
Defined.

(** * The cross-origin check *)

Lemma list_ascii_of_string_app (a b : string) :
  String.list_ascii_of_string (a +:+ b)
  = String.list_ascii_of_string a ++ String.list_ascii_of_string b.
Proof. induction a as [|c a IH]; simpl; [done | by rewrite IH]. Qed.

Lemma list_ascii_of_string_inj (a b : string) :
  String.list_ascii_of_string a = String.list_ascii_of_string b → a = b.
Proof.
  intros Heq. rewrite <- (String.string_of_list_ascii_of_string a).
  rewrite <- (String.string_of_list_ascii_of_string b). by rewrite Heq.
Qed.

Lemma String_forall_forallb (P : ascii → bool) (s : string) :
  String_forall P s = forallb P (String.list_ascii_of_string s).
Proof. induction s as [|c s IH]; simpl; [done | by rewrite IH]. Qed.

(** The pattern accepts the origins made of "https://", any characters but
    line terminators, and ".vercel.app" at the very end. *)
Lemma vercel_regex_test_spec (origin : string) :
  vercel_regex_test origin = true
  ↔ ∃ mid,
      origin = "https://" +:+ mid +:+ ".vercel.app"
      ∧ String_forall (λ c, negb (is_line_terminator c)) mid = true.
Proof.
  unfold vercel_regex_test. rewrite !andb_true_iff, !bool_decide_eq_true.
  split.
  - intros [[[k Hk] [k' Hk']] Hdot]. rewrite Hk in Hk', Hdot.
    rewrite drop_app_length' in Hk', Hdot by done.
    rewrite Hk' in Hdot.
    rewrite take_app_length' in Hdot by (rewrite length_app; simpl; lia).
    exists (String.string_of_list_ascii k'). split.
    + apply list_ascii_of_string_inj.
      rewrite Hk, Hk', !list_ascii_of_string_app.
      by rewrite String.list_ascii_of_string_of_list_ascii.
    + by rewrite String_forall_forallb,
        String.list_ascii_of_string_of_list_ascii.
  - intros (mid & -> & Hdot). rewrite String_forall_forallb in Hdot.
    rewrite !list_ascii_of_string_app.
    rewrite drop_app_length' by done. split_and!.
    + by eexists.
    + by eexists.
    + by rewrite take_app_length' by (rewrite length_app; simpl; lia).
Qed.

(** Which origins pass: a request without an origin, the local development
    origin, and every [https] origin that ends in ".vercel.app" - the
    production frontend among them, and any other site deployed under that
    domain; nothing else. *)
Theorem origin_allowed_iff (origin : option string) :
  origin_allowed origin = true
  ↔ origin = None
    ∨ origin = Some ""
    ∨ origin = Some "http://localhost:5173"
    ∨ ∃ mid,
        origin = Some ("https://" +:+ mid +:+ ".vercel.app")
        ∧ String_forall (λ c, negb (is_line_terminator c)) mid = true.
Proof.
  destruct origin as [o|]; [|by split; [left|]].
  assert (Hprod : vercel_regex_test
                    "https://file-transfer-frontend-eight.vercel.app" = true)
    by done.
  destruct o as [|c o]; [by split; [right; left|]|].
  unfold origin_allowed, allowedOrigins. cbn [existsb].
  set (o' := String c o). assert (o' ≠ "") as Hne by done. clearbody o'.
  rewrite !orb_true_iff, !String.eqb_eq, vercel_regex_test_spec. split.
  - intros [<-|[<-|[(mid & Ho & Hmid)|[=]]]].
    + by right; right; left.
    + apply vercel_regex_test_spec in Hprod as (mid & Hmid & Hdot).
      right; right; right. exists mid. by rewrite <- Hmid.
    + right; right; right. exists mid. by rewrite <- Ho.
  - intros [[=]|[[= ->]|[[= <-]|(mid & [= ->] & Hmid)]]];
      [done | by left |].
    right; right; left. by exists mid.
Qed.

(** * The poll *)

Lemma votes_find_None (e : string) (l : list string) :
  find (String.eqb e) l = None ↔ e ∉ l.
Proof.
  induction l as [|x l IH]; simpl.
  - split; [intros _; apply not_elem_of_nil | done].
  - rewrite not_elem_of_cons. destruct (String.eqb_spec e x) as [->|Hne].
    + split; [done | by intros [? _]].
    + rewrite IH. split; [by intros ? | by intros [_ ?]].
Qed.

(** What one [newVote] does to the tally, the list and the broadcasts. *)
Lemma votes_newVote_step (sid type : string) (mail : option string)
    (v v' : Votes.votes) out :
  Votes.newVote sid type mail v = (v', out) →
  NoDup (Votes.email v) →
  NoDup (Votes.email v')
  ∧ Votes.yes v' + Votes.no v'
    = Votes.yes v + Votes.no v
      + (if Votes.valid_type (sid, type, mail) then 1 else 0)
  ∧ length (Votes.email v')
    = length (Votes.email v) + length (List.filter Votes.is_broadcast out)
  ∧ (length (List.filter Votes.is_broadcast out)
     ≤ (if Votes.valid_type (sid, type, mail) then 1 else 0))%nat.
Proof.
  unfold Votes.newVote, Votes.valid_type. simpl.
  destruct (bool_decide (type = "yes") || bool_decide (type = "no"));
    [|intros [= <- <-] Hnd; simpl; split_and!; [done|lia..]].
  assert (Hinc : Votes.yes (Votes.increment type v)
                 + Votes.no (Votes.increment type v)
                 = Votes.yes v + Votes.no v + 1
                 ∧ Votes.email (Votes.increment type v) = Votes.email v).
  { unfold Votes.increment. case_decide; simpl; split; (lia || done). }
  destruct Hinc as [Hsum Hmail].
  destruct mail as [[|c e]|].
  - intros [= <- <-] Hnd. rewrite Hmail. simpl. split_and!; [done|lia..].
  - destruct (find _ _) eqn:Hfind.
    + intros [= <- <-] Hnd. rewrite Hmail. simpl. split_and!; [done|lia..].
    + apply votes_find_None in Hfind. intros [= <- <-] Hnd. simpl.
      rewrite Hmail in *. rewrite length_app. simpl. split_and!; [|lia..].
      apply NoDup_app. split_and!; [done| |apply NoDup_singleton].
      by intros x Hx ->%list_elem_of_singleton.
  - intros [= <- <-] Hnd. rewrite Hmail. simpl. split_and!; [done|lia..].
Qed.

(** Whatever votes arrive: every [newVote] of type "yes" or "no" is counted,
    with or without an e-mail and also when its e-mail has voted before; no
    e-mail is listed twice; and the tally is broadcast once for each listed
    e-mail, so a vote that adds no e-mail changes the tally without anyone
    being told. *)
Theorem votes_tally_counts_every_vote
    (es : list (string * string * option string)) :
  NoDup (Votes.email (Votes.run es Votes.initial).1)
  ∧ Votes.yes (Votes.run es Votes.initial).1
    + Votes.no (Votes.run es Votes.initial).1
    = length (List.filter Votes.valid_type es)
  ∧ length (Votes.email (Votes.run es Votes.initial).1)
    = length (List.filter Votes.is_broadcast (Votes.run es Votes.initial).2)
  ∧ (length (Votes.email (Votes.run es Votes.initial).1)
     ≤ length (List.filter Votes.valid_type es))%nat.
Proof.
  assert (Hgen : ∀ v,
    NoDup (Votes.email v) →
    NoDup (Votes.email (Votes.run es v).1)
    ∧ Votes.yes (Votes.run es v).1 + Votes.no (Votes.run es v).1
      = Votes.yes v + Votes.no v + length (List.filter Votes.valid_type es)
    ∧ length (Votes.email (Votes.run es v).1)
      = length (Votes.email v)
        + length (List.filter Votes.is_broadcast (Votes.run es v).2)
    ∧ (length (List.filter Votes.is_broadcast (Votes.run es v).2)
       ≤ length (List.filter Votes.valid_type es))%nat).
  { induction es as [|[[sid type] mail] es IH]; intros v Hnd.
    - simpl. split_and!; [done|lia..].
    - cbn [Votes.run List.filter].
      destruct (Votes.newVote sid type mail v) as [v1 out1] eqn:Hstep.
      destruct (votes_newVote_step _ _ _ _ _ _ Hstep Hnd)
        as (Hnd1 & Hsum1 & Hlen1 & Hle1).
      destruct (IH v1 Hnd1) as (Hnd2 & Hsum2 & Hlen2 & Hle2).
      destruct (Votes.run es v1) as [v2 out2]. cbn [fst snd] in *.
      rewrite List.filter_app, length_app.
      destruct (Votes.valid_type (sid, type, mail)); simpl;
        (split_and!; [done|lia..]). }
  destruct (Hgen Votes.initial) as (Hnd & Hsum & Hlen & Hle);
    [apply NoDup_nil_2|].
  simpl in Hsum, Hlen. split_and!; [done..|lia].
Qed.

(** A repeated e-mail is turned away and counted all the same: [n + 1]
    votes of one type under one e-mail that is new raise the count by
    [n + 1]; the e-mail is listed once, the first vote is broadcast and each
    later one is answered with [emailExists]. *)
Theorem votes_repeated_email_counted (n : nat) (sid e : string)
    (v : Votes.votes) :
  e ≠ "" →
  e ∉ Votes.email v →
  Votes.run (replicate (S n) (sid, "yes", Some e)) v
  = ({| Votes.yes := Votes.yes v + S n;
        Votes.no := Votes.no v;
        Votes.email := Votes.email v ++ [e] |},
     Votes.ToAll
       (Votes.voteUpdate
          {| Votes.yes := Votes.yes v + 1;
             Votes.no := Votes.no v;
             Votes.email := Votes.email v ++ [e] |})
     :: replicate n
          (Votes.ToSocket sid
             (Votes.emailExists "This email has already voted."))).
Proof.
  intros Hne Hnew.
  assert (Hvote : ∀ w,
    Votes.newVote sid "yes" (Some e) w
    = match find (String.eqb e) (Votes.email w) with
      | Some _ =>
          ({| Votes.yes := Votes.yes w + 1;
              Votes.no := Votes.no w;
              Votes.email := Votes.email w |},
           [Votes.ToSocket sid
              (Votes.emailExists "This email has already voted.")])
      | None =>
          ({| Votes.yes := Votes.yes w + 1;
              Votes.no := Votes.no w;
              Votes.email := Votes.email w ++ [e] |},
           [Votes.ToAll
              (Votes.voteUpdate
                 {| Votes.yes := Votes.yes w + 1;
                    Votes.no := Votes.no w;
                    Votes.email := Votes.email w ++ [e] |})])
      end).
  { intros w. by destruct e. }
  assert (Hagain : ∀ k w, e ∈ Votes.email w →
    Votes.run (replicate k (sid, "yes", Some e)) w
    = ({| Votes.yes := Votes.yes w + k;
          Votes.no := Votes.no w;
          Votes.email := Votes.email w |},
       replicate k
         (Votes.ToSocket sid
            (Votes.emailExists "This email has already voted.")))).
  { induction k as [|k IH]; intros w Hin.
    - simpl. destruct w. simpl. by rewrite Nat.add_0_r.
    - cbn [replicate Votes.run]. rewrite Hvote.
      destruct (find _ (Votes.email w)) eqn:Hfind.
      2: { by apply votes_find_None in Hfind. }
      rewrite IH by done. simpl. do 2 f_equal. lia. }
  cbn [replicate Votes.run]. rewrite Hvote.
  destruct (find _ (Votes.email v)) eqn:Hfind.
  { apply find_some in Hfind as [Hin Heq]. apply String.eqb_eq in Heq.
    subst. by apply list_elem_of_In in Hin. }
  rewrite Hagain by (simpl; apply elem_of_app; right; apply list_elem_of_here).
  simpl. do 2 f_equal. lia.
Qed.

Lemma votes_repeated_email_counted_witness :
  Votes.run (replicate 3 ("A", "yes", Some "a@b.c")) Votes.initial
  = ({| Votes.yes := 3; Votes.no := 0; Votes.email := ["a@b.c"] |},
     [Votes.ToAll
        (Votes.voteUpdate
           {| Votes.yes := 1; Votes.no := 0; Votes.email := ["a@b.c"] |});
      Votes.ToSocket "A" (Votes.emailExists "This email has already voted.");
      Votes.ToSocket "A" (Votes.emailExists "This email has already voted.")]).
Proof.
  apply (votes_repeated_email_counted 2 "A" "a@b.c" Votes.initial).
  - discriminate.
  - apply not_elem_of_nil.
Defined.

(** * What stays fixed, and what a rejection does not stop *)

(** The creator, the creating user and the creation time of a room never
    change while the room lives: no join, leave or disconnect hands the
    creator role on, and nothing postpones the hour after which the sweep
    deletes the room. *)
Theorem room_metadata_fixed (e : event) (s s' : State) out (p : string)
    (room room' : Room) :
  reachable s →
  react e s = Returned s' out →
  Map_get p (rooms s) = Some room →
  Map_get p (rooms s') = Some room' →
  creator room' = creator room
  ∧ creatorUserId room' = creatorUserId room
  ∧ createdAt room' = createdAt room.
Proof.
  intros [Hkeys _]%reachable_inv Hstep Hroom.
  assert (Hsame : rooms s' = rooms s →
            Map_get p (rooms s') = Some room' →
            creator room' = creator room
            ∧ creatorUserId room' = creatorUserId room
            ∧ createdAt room' = createdAt room).
  { intros ->. rewrite Hroom. by intros [= <-]. }
  destruct e; simpl in Hstep.
  - injection Hstep as <- <-. by apply Hsame.
  - unfold create_room in Hstep.
    destruct (unique_pin draws (rooms s)) as [p0|] eqn:Hpin; [|done].
    apply unique_pin_fresh in Hpin. injection Hstep as <- <-. simpl.
    rewrite (Map_get_set_fresh p0 p _ room) by done. by intros [= <-].
  - unfold join_room in Hstep.
    destruct (Map_get p0 (rooms s)) as [room0|] eqn:Hroom0;
      [|injection Hstep as <- <-; by apply Hsame].
    destruct (find (is_socket sid) (participants room0));
      [injection Hstep as <- <-; by apply Hsame|].
    injection Hstep as <- <-. simpl.
    destruct (decide (p0 = p)) as [->|Hne].
    + rewrite Map_get_set_eq. intros [= <-]. simpl.
      by assert (room0 = room) as -> by congruence.
    + rewrite Map_get_set_ne, Hroom by done. by intros [= <-].
  - unfold leave_room in Hstep.
    destruct (Map_get p0 (rooms s)) as [room0|] eqn:Hroom0;
      [|injection Hstep as <- <-; by apply Hsame].
    destruct (find (is_socket sid) (participants room0)) as [x|];
      [|injection Hstep as <- <-; by apply Hsame].
    injection Hstep as <- <-. simpl.
    destruct (decide (p0 = p)) as [->|Hne];
      destruct (decide (length _ = 0)) as [Hempty|Hleft].
    + by rewrite Map_get_delete_eq.
    + rewrite Map_get_set_eq. intros [= <-]. simpl.
      by assert (room0 = room) as -> by congruence.
    + rewrite Map_get_delete_ne, Map_get_set_ne, Hroom by done.
      by intros [= <-].
    + rewrite Map_get_set_ne, Hroom by done. by intros [= <-].
  - unfold initiate_file_transfer in Hstep.
    destruct (Map_get p0 (rooms s)); [case_decide|];
      injection Hstep as <- <-; by apply Hsame.
  - unfold file_chunk, invalid_transfer in Hstep.
    destruct (Map_get transferId (activeTransfers s));
      [|injection Hstep as <- <-; by apply Hsame].
    destruct (negb _); [injection Hstep as <- <-; by apply Hsame|].
    destruct (isLast && _); [destruct (Buffer_concat _)|]; try done;
      injection Hstep as <- <-; by apply Hsame.
  - unfold respond_to_file in Hstep.
    destruct (Map_get transferId (activeTransfers s)); [destruct accept|];
      injection Hstep as <- <-; by apply Hsame.
  - unfold get_room_info in Hstep.
    destruct (Map_get p0 (rooms s));
      injection Hstep as <- <-; by apply Hsame.
  - unfold disconnect in Hstep.
    pose proof (disconnect_rooms_get sid (socket_leave_all sid (adapter s))
                  (rooms s) p Hkeys) as Hget.
    destruct (disconnect_rooms _ _ (rooms s)) as [rs out1].
    destruct (disconnect_transfers _ _ _) as [ts out2].
    injection Hstep as <- <-. cbn [fst rooms] in *. rewrite Hget, Hroom.
    destruct (find (is_socket sid) (participants room)) as [x|];
      [|by intros [= <-]].
    destruct (decide (length _ = 0)); [done|]. by intros [= <-].
  - injection Hstep as <- <-. simpl.
    rewrite cleanupExpiredRooms_get, Hroom by done.
    case_decide; [done|]. by intros [= <-].
  - unfold post_api_room in Hstep.
    destruct (unique_pin draws (rooms s)) as [p0|] eqn:Hpin; [|done].
    apply unique_pin_fresh in Hpin. injection Hstep as <- <-. simpl.
    rewrite (Map_get_set_fresh p0 p _ room) by done. by intros [= <-].
Qed.

Lemma room_metadata_fixed_witness :
  ∃ room',
    Map_get "123456" (rooms (after (transfer_started ++ [Disconnect "A"])))
    = Some room'
    ∧ creator room' = "A"
    ∧ creatorUserId room' = Some "alice"
    ∧ createdAt room' = 10%Z.
Proof.
  eexists. split; [reflexivity|].
  eapply (room_metadata_fixed (Disconnect "A") (after transfer_started)
            (after (transfer_started ++ [Disconnect "A"]))
            [Emit (SocketTo "A" "123456") {["B"]} (user_left "A" "alice");
             Emit (IoTo "123456") {["B"]} (transfer_cancelled "A_20")]
            "123456" two_member_room _
            (reachable_after transfer_started)).
  - reflexivity.
  - reflexivity.
  - reflexivity.
Defined.

(** A rejection stops nothing.  When a connection listed in the transfer's
    room answers [respond_to_file] with a refusal and the sender then
    submits the chunks, flagged chunk last, the transfer completes as if
    nothing had been said and the connection that refused is among those
    the file is sent to. *)
Theorem rejection_does_not_stop_delivery (s : State)
    (sid transferId : string) (transfer : Transfer) (room : Room)
    (q : Participant) (payloads : list (list byte)) (order : list nat) :
  reachable s →
  Map_get transferId (activeTransfers s) = Some transfer →
  from transfer = sid →
  chunks transfer = [] →
  Map_get (pin transfer) (rooms s) = Some room →
  q ∈ participants room →
  socketId q ≠ sid →
  payloads ≠ [] →
  order ≡ₚ seq 0 (length payloads - 1) →
  ∃ s' before R,
    run (RespondToFile (socketId q) transferId false
         :: unflagged_chunks sid transferId payloads order
         ++ [FileChunk sid transferId (length payloads - 1)
               (nth (length payloads - 1) payloads []) true]) s
    = Returned s'
        (before
         ++ [Emit (SocketTo sid (pin transfer)) R
               (file_received transferId (fileName transfer)
                  (fileType transfer) (concat payloads) sid);
             Emit (Socket sid) {[sid]} (transfer_complete transferId)])
    ∧ socketId q ∈ R
    ∧ Map_get transferId (activeTransfers s') = None.
Proof.
  intros Hs Hget Hfrom Hfresh Hroom Hq Hne Hpay Hperm.
  destruct (flagged_chunk_after_unflagged s sid transferId transfer payloads
              order Hget Hfrom Hfresh Hpay Hperm)
    as (s1 & out & Hrun & _ & Hlast).
  assert (Hrest :
    run (unflagged_chunks sid transferId payloads order
         ++ [FileChunk sid transferId (length payloads - 1)
               (nth (length payloads - 1) payloads []) true]) s
    = Returned
        (set_activeTransfers (Map_delete transferId (activeTransfers s)) s)
        (out
         ++ [Emit (Socket sid) {[sid]}
               (upload_progress transferId (length payloads)
                  (length payloads));
             Emit (SocketTo sid (pin transfer))
               (sockets_in (adapter s) (pin transfer) ∖ {[sid]})
               (file_received transferId (fileName transfer)
                  (fileType transfer) (concat payloads) sid);
             Emit (Socket sid) {[sid]} (transfer_complete transferId)])).
  { eapply run_app_Returned; [exact Hrun|]. simpl. by rewrite Hlast. }
  assert (Hresp :
    react (RespondToFile (socketId q) transferId false) s
    = Returned s
        [Emit (IoTo (from transfer)) (sockets_in (adapter s) (from transfer))
           (transfer_rejected transferId (socketId q));
         Callback (socketId q) success]).
  { simpl. unfold respond_to_file. by rewrite Hget. }
  eexists.
  exists
    ((Emit (IoTo (from transfer)) (sockets_in (adapter s) (from transfer))
        (transfer_rejected transferId (socketId q))
      :: Callback (socketId q) success :: out)
     ++ [Emit (Socket sid) {[sid]}
           (upload_progress transferId (length payloads) (length payloads))]).
  eexists. split_and!.
  - rewrite (run_cons_Returned _ _ s s _ _ _ Hrest Hresp).
    simpl. by rewrite <- app_assoc.
  - destruct (reachable_room_inv s _ room Hs Hroom) as (_ & _ & Hgrp & _).
    apply elem_of_difference. split; [by apply Hgrp|].
    by intros ?%elem_of_singleton.
  - simpl. apply Map_get_delete_eq.
Qed.

Lemma rejection_does_not_stop_delivery_witness :
  ∃ s' before R,
    run [RespondToFile "B" "A_20" false;
         FileChunk "A" "A_20" 0 [x01; x02] false;
         FileChunk "A" "A_20" 1 [x03] true] (after transfer_started)
    = Returned s'
        (before
         ++ [Emit (SocketTo "A" "123456") R
               (file_received "A_20" "a.txt" "text/plain"
                  [x01; x02; x03] "A");
             Emit (Socket "A") {["A"]} (transfer_complete "A_20")])
    ∧ "B" ∈ R
    ∧ Map_get "A_20" (activeTransfers s') = None.
Proof.
  apply (rejection_does_not_stop_delivery (after transfer_started) "A"
           "A_20" one_transfer_record two_member_room
           {| socketId := "B"; userId := "bob" |} [[x01; x02]; [x03]] [0]
           (reachable_after transfer_started)).
  - reflexivity.
  - reflexivity.
  - reflexivity.
  - reflexivity.
  - apply list_elem_of_further, list_elem_of_here.
  - discriminate.
  - discriminate.
  - reflexivity.
Defined.

(** * The distinct-user count along a room's history *)

(** What the specification's steps do to the active pairs: a removal takes
    out the pairs of the connection and no other, a join by a connection
    that is not in the room adds its pair, and a user id is counted exactly
    when some active pair carries it. *)
Lemma spec_remove_pairs (c : string) (A A' : spec_room) (c' u : string) :
  spec_remove c A = Some A' → (c', u) ∈ A' ↔ (c', u) ∈ A ∧ c' ≠ c.
Proof.
  unfold spec_remove. destruct (decide (c ∈ spec_connections A)) as [Hin|Hout].
  - cbv zeta. destruct (decide (_ = ∅)); [done|]. intros [= <-].
    rewrite elem_of_filter. cbn [fst]. tauto.
  - intros [= <-]. split; [|tauto]. intros Hpair. split; [done|].
    intros ->. apply Hout. unfold spec_connections. apply elem_of_map.
    by exists (c, u).
Qed.

Lemma spec_remove_last (c : string) (A : spec_room) :
  spec_remove c A = None ↔ A ≠ ∅ ∧ ∀ c' u, (c', u) ∈ A → c' = c.
Proof.
  unfold spec_remove, spec_connections.
  destruct (decide (c ∈ (set_map fst A : gset string))) as [Hin|Hout].
  - cbv zeta. apply elem_of_map in Hin as ([c0 u0] & -> & Hin). cbn [fst] in *.
    destruct (decide (filter (λ x, x.1 ≠ c0) A = ∅)) as [Hempty|Hne].
    + split; [|done]. intros _. split; [set_solver|]. intros c' u Hpair.
      destruct (decide (c' = c0)) as [|Hc']; [done|].
      assert (Hf : (c', u) ∈ filter (λ x : string * string, x.1 ≠ c0) A)
        by by apply elem_of_filter.
      rewrite Hempty in Hf. by apply elem_of_empty in Hf.
    + split; [done|]. intros [_ Hall]. destruct Hne. apply set_eq.
      intros [c' u]. rewrite elem_of_filter, elem_of_empty. cbn [fst].
      split; [|done]. intros [Hc' Hpair]. apply Hc'. by eapply Hall.
  - split; [done|]. intros [Hne Hall]. destruct Hout.
    apply set_choose_L in Hne as [[c' u] Hpair].
    apply elem_of_map. exists (c', u). split; [|done].
    cbn [fst]. symmetry. by eapply Hall.
Qed.

Lemma spec_distinct_users_counted (A : spec_room) (u : string) :
  u ∈ (set_map snd A : gset string) ↔ ∃ c, (c, u) ∈ A.
Proof.
  rewrite elem_of_map. split.
  - intros ([c u'] & -> & Hpair). by exists c.
  - intros (c & Hpair). by exists (c, u).
Qed.

Lemma listed_connections (room : Room) (c : string) :
  c ∈ spec_connections (listed room) ↔ c ∈ socketId <$> participants room.
Proof.
  unfold spec_connections, listed. rewrite elem_of_map, list_elem_of_fmap.
  setoid_rewrite elem_of_list_to_set. setoid_rewrite list_elem_of_fmap.
  split.
  - intros (x & -> & q & -> & Hq). by exists q.
  - intros (q & -> & Hq). exists (socketId q, userId q). split; [done|].
    by exists q.
Qed.

Lemma listed_users (room : Room) :
  spec_distinct_users (listed room)
  = size (list_to_set (userId <$> participants room) : gset string).
Proof.
  unfold spec_distinct_users, listed. f_equal. apply set_eq. intros u.
  rewrite elem_of_map, elem_of_list_to_set, list_elem_of_fmap.
  setoid_rewrite elem_of_list_to_set. setoid_rewrite list_elem_of_fmap.
  split.
  - intros (x & -> & q & -> & Hq). by exists q.
  - intros (q & -> & Hq). exists (socketId q, userId q). split; [done|].
    by exists q.
Qed.

Lemma listed_empty (room : Room) :
  length (participants room) = 0 ↔ listed room = ∅.
Proof.
  unfold listed. destruct (participants room) as [|q ps]; [done|].
  split; [done|]. rewrite fmap_cons, list_to_set_cons. intros Hempty.
  assert (Hq : (socketId q, userId q) ∈ (∅ : spec_room)).
  { rewrite <- Hempty. apply elem_of_union_l. by apply elem_of_singleton. }
  by apply elem_of_empty in Hq.
Qed.

Lemma listed_without (c : string) (x : Participant) (room : Room) :
  listed (without_socket c x room) = filter (λ y, y.1 ≠ c) (listed room).
Proof.
  unfold listed, without_socket, with_members. cbn [participants].
  apply set_eq. intros [c' u'].
  rewrite elem_of_filter, !elem_of_list_to_set, !list_elem_of_fmap.
  setoid_rewrite list_elem_of_filter. cbn [fst]. split.
  - intros (q & [= -> ->] & Hne & Hq). split; [done|]. by exists q.
  - intros (Hne & q & [= -> ->] & Hq). by exists q.
Qed.

Lemma listed_join (room : Room) (c u : string) (us : gset string) :
  listed (with_members room
            (participants room ++ [{| socketId := c; userId := u |}]) us)
  = listed room ∪ {[(c, u)]}.
Proof.
  unfold listed, with_members. cbn [participants].
  rewrite fmap_app, list_to_set_app_L. f_equal.
  rewrite fmap_cons, list_to_set_cons. cbn [socketId userId fmap list_fmap].
  apply set_eq. intros y.
  rewrite elem_of_union, elem_of_list_to_set, elem_of_nil. tauto.
Qed.

(** [leave_room] and the [disconnect] loop do the same to the room a
    connection is taken out of; the specification's removal follows it. *)
Lemma removal_matches (p cr : string) (t0 : Z) (s' : State) (c : string)
    (room : Room) :
  creator room = cr → createdAt room = t0 →
  Map_get p (rooms s')
  = match find (is_socket c) (participants room) with
    | None => Some room
    | Some x =>
        if decide (length (participants (without_socket c x room)) = 0)
        then None
        else Some (without_socket c x room)
    end →
  room_matches p cr t0 s' (spec_remove c (listed room)).
Proof.
  intros Hcr Ht0 Hget. unfold spec_remove.
  destruct (find (is_socket c) (participants room)) as [x|] eqn:Hfind.
  - rewrite decide_True.
    2: { apply listed_connections.
         apply find_is_socket_Some in Hfind as [Hx <-].
         apply list_elem_of_fmap. by exists x. }
    cbv zeta. rewrite <- (listed_without c x room).
    destruct (decide (length (participants (without_socket c x room)) = 0))
      as [Hlen|Hlen].
    + rewrite decide_True by by apply listed_empty. exact Hget.
    + rewrite decide_False by by rewrite <- listed_empty.
      exists (without_socket c x room). by split_and!.
  - rewrite decide_False.
    2: { rewrite listed_connections. by apply find_is_socket_None. }
    exists room. by split_and!.
Qed.

(** One room event moves the server and the specification's view of the
    room together. *)
Lemma room_event_matches (p cr : string) (t0 : Z) (e : room_event)
    (s : State) (oA : option spec_room) :
  reachable s →
  room_matches p cr t0 s oA →
  ∃ s' out,
    react (to_event p e) s = Returned s' out
    ∧ room_matches p cr t0 s' (oA ≫= spec_step e).
Proof.
  intros Hs Hm. pose proof (reachable_inv s Hs) as [Hkeys _].
  destruct e as [c u|c|c]; cbn [to_event react].
  - unfold join_room. destruct oA as [A|]; cbn [room_matches] in Hm.
    + destruct Hm as (room & Hroom & <- & Hcr & Ht0). rewrite Hroom.
      cbn [mbind option_bind spec_step].
      destruct (find (is_socket c) (participants room)) as [x|] eqn:Hfind.
      * eexists _, _. split; [reflexivity|]. rewrite decide_True.
        { exists room. by split_and!. }
        apply listed_connections.
        apply find_is_socket_Some in Hfind as [Hx <-].
        apply list_elem_of_fmap. by exists x.
      * eexists _, _. split; [reflexivity|]. rewrite decide_False.
        2: { rewrite listed_connections. by apply find_is_socket_None. }
        eexists. split; [apply Map_get_set_eq|].
        split; [apply listed_join | done].
    + rewrite Hm. eexists _, _. split; [reflexivity | exact Hm].
  - unfold leave_room. destruct oA as [A|]; cbn [room_matches] in Hm.
    + destruct Hm as (room & Hroom & <- & Hcr & Ht0). rewrite Hroom.
      cbn [mbind option_bind spec_step].
      destruct (find (is_socket c) (participants room)) as [x|] eqn:Hfind.
      * eexists _, _. split; [reflexivity|].
        apply (removal_matches p cr t0 _ c room Hcr Ht0). rewrite Hfind.
        cbn [rooms set_adapter set_rooms]. cbv zeta.
        destruct (decide (length (participants (without_socket c x room))
                          = 0)).
        -- apply Map_get_delete_eq.
        -- apply Map_get_set_eq.
      * eexists _, _. split; [reflexivity|].
        apply (removal_matches p cr t0 _ c room Hcr Ht0). by rewrite Hfind.
    + rewrite Hm. eexists _, _. split; [reflexivity | exact Hm].
  - unfold disconnect.
    pose proof (disconnect_rooms_get c (socket_leave_all c (adapter s))
                  (rooms s) p Hkeys) as Hget.
    destruct (disconnect_rooms _ _ _) as [rs out1].
    destruct (disconnect_transfers _ _ _) as [ts out2].
    eexists _, _. split; [reflexivity|]. cbn [fst] in Hget.
    destruct oA as [A|]; cbn [room_matches] in Hm.
    + destruct Hm as (room & Hroom & <- & Hcr & Ht0). rewrite Hroom in Hget.
      cbn [mbind option_bind spec_step].
      by apply (removal_matches p cr t0 _ c room Hcr Ht0).
    + rewrite Hm in Hget. exact Hget.
Qed.

Lemma room_events_match (p cr : string) (t0 : Z) (es : list room_event)
    (s : State) (oA : option spec_room) :
  reachable s →
  room_matches p cr t0 s oA →
  ∃ s' out,
    run (to_event p <$> es) s = Returned s' out
    ∧ reachable s'
    ∧ room_matches p cr t0 s' (spec_active es oA).
Proof.
  revert s oA. induction es as [|e es IH]; intros s oA Hs Hm.
  - by exists s, [].
  - destruct (room_event_matches p cr t0 e s oA Hs Hm)
      as (s1 & out1 & Hstep & Hm1).
    destruct (IH s1 (oA ≫= spec_step e)) as (s2 & out2 & Hrun & Hs2 & Hm2);
      [by eapply reachable_react | done |].
    exists s2, (out1 ++ out2). split; [|done].
    rewrite fmap_cons. by eapply run_cons_Returned.
Qed.

(** The answer of [get_room_info] in a state that matches the
    specification's view is the specified one. *)
Lemma get_room_info_matches (p cr : string) (t0 : Z) (s : State)
    (oA : option spec_room) (sid : string) :
  reachable s →
  room_matches p cr t0 s oA →
  get_room_info sid p s
  = Returned s [Callback sid (spec_room_info cr sid t0 oA)].
Proof.
  intros Hs Hm. unfold get_room_info.
  destruct oA as [A|]; cbn [room_matches spec_room_info] in *.
  - destruct Hm as (room & Hroom & <- & <- & <-). rewrite Hroom.
    destruct (reachable_room_inv s p room Hs Hroom) as (_ & -> & _).
    by rewrite listed_users.
  - by rewrite Hm.
Qed.

(** C5.  Take a room from the moment it is created - by [create_room],
    with the creator's connection as its one active connection, or by
    [POST /api/room], with none - and apply any sequence of joins, leaves
    and disconnects to it.  The server handles every one of them, and
    [get_room_info] then answers with the number of distinct user ids that
    have an active connection in the room, where the active connections are
    the ones the history leaves: added by a join, taken out by a leave or a
    disconnect.  Connections sharing a user id count once, the user stays
    counted until the last of them is gone, and once no connection is left
    the room is gone too and the answer is "Room not found". *)
Theorem get_room_info_counts_active_users (s0 s1 : State) (e0 : event) out0
    (p cr : string) (t0 : Z) (A0 : spec_room) (es : list room_event)
    (sid : string) :
  reachable s0 →
  react e0 s0 = Returned s1 out0 →
  (∃ c u draws,
     e0 = CreateRoom c u draws t0 ∧ out0 = [Callback c (created p)]
     ∧ A0 = {[(c, u)]} ∧ cr = c)
  ∨ (∃ draws now',
       e0 = PostApiRoom draws t0 now' ∧ out0 = [HttpJson p now']
       ∧ A0 = ∅ ∧ cr = "web-api") →
  ∃ s' out,
    run (to_event p <$> es) s1 = Returned s' out
    ∧ get_room_info sid p s'
      = Returned s'
          [Callback sid (spec_room_info cr sid t0 (spec_active es (Some A0)))].
Proof.
  intros Hs0 Hstep Hcreated.
  assert (Hs1 : reachable s1) by by eapply reachable_react.
  assert (Hm : room_matches p cr t0 s1 (Some A0)).
  { destruct Hcreated as [(c & u & draws & -> & Hout & -> & ->)
                         |(draws & now' & -> & Hout & -> & ->)];
      cbn [react] in Hstep.
    - unfold create_room in Hstep.
      destruct (unique_pin draws (rooms s0)) as [p'|]; [|done].
      injection Hstep as <- <-. injection Hout as <-.
      eexists. split; [apply Map_get_set_eq|]. split_and!; try done.
      unfold listed. cbn [participants fmap list_fmap socketId userId].
      apply set_eq. intros y.
      rewrite elem_of_list_to_set, list_elem_of_singleton.
      by rewrite elem_of_singleton.
    - unfold post_api_room in Hstep.
      destruct (unique_pin draws (rooms s0)) as [p'|]; [|done].
      injection Hstep as <- <-. injection Hout as <-.
      eexists. split; [apply Map_get_set_eq|]. by split_and!. }
  destruct (room_events_match p cr t0 es s1 (Some A0) Hs1 Hm)
    as (s' & out & Hrun & Hs' & Hm').
  exists s', out. split; [exact Hrun|].
  by apply get_room_info_matches.
Qed.

Lemma get_room_info_counts_active_users_witness :
  ∃ s' out,
    run (to_event "123456" <$> two_connections_one_user)
      (after [CreateRoom "A" "alice" [123456%N] 10])
    = Returned s' out
    ∧ get_room_info "D" "123456" s'
      = Returned s' [Callback "D" (room_info 1 false 10)].
Proof.
  destruct (get_room_info_counts_active_users initial
              (after [CreateRoom "A" "alice" [123456%N] 10])
              (CreateRoom "A" "alice" [123456%N] 10)
              [Callback "A" (created "123456")]
              "123456" "A" 10 {[("A", "alice")]} two_connections_one_user "D"
              reachable_initial eq_refl)
    as (s' & out & Hrun & Hinfo).
  { left. by exists "A", "alice", [123456%N]. }
  exists s', out. split; [exact Hrun|].
  etrans; [exact Hinfo|]. by vm_compute.
Defined.
